(** * Backtracking Sudoku solver, validator and conflict checker

    A shallow embedding of the three algorithmic functions of the Sudoku
    board components: [isValid], [solveSudoku] and [checkSolution].

    Numbers are integers ([Z]), array indices naturals.  A read past the end
    of the outer array makes the code index [undefined], which throws: the
    functions return a [result], and the statements about 9×9 boards show
    that no read throws there.  [solveSudoku] is recursive on boards with
    ever fewer empty cells; it is modelled with fuel, and shown to end
    with the same result for every fuel above the number of empty cells.
    The pauses between steps ([await] of a timer) are not modelled: a run is
    the sequence of its calls and of the boards it publishes.

    Two models of the solver are given.  The first works on board values
    and carries the claims about what is computed.  The second keeps the
    arrays in a store, to state which array a write lands in, and is shown
    to refine the first.

    Around these functions the handlers of the two board components are
    modelled as transitions on their state variables: the conversions
    between the 1D board of the external solver library and the 2D board,
    the undo machinery, the step display and the learning mode, the
    achievements, and the mouse and keyboard handlers.  The functions of the
    external library and [JSON.stringify] are parameters. *)

From Stdlib Require Import ZArith Lia.
From stdpp Require Import list relations sorting strings pretty.

Local Open Scope Z_scope.
Local Open Scope nat_scope.
Set Warnings "-clear-no-such-hyp".

(** ** Data model *)

(** [type CellValue = number | null]. *)
Inductive CellValue : Type :=
  | Null
  | Num (n : Z).

#[global] Instance CellValue_eq_dec : EqDecision CellValue.
Proof. solve_decision. Defined.

(** [type BoardType = CellValue[][]]: an array of row arrays. *)
Abbreviation BoardType := (list (list CellValue)).

(** A position is a (row, column) pair of array indices. *)
Abbreviation position := (nat * nat)%type.

(** Outcome of evaluating an expression that may throw.  The only fault the
    modelled code can raise is the [TypeError] of indexing [undefined]. *)
Inductive result (A : Type) : Type :=
  | Ok (a : A)
  | TypeError.
Arguments Ok {A} a.
Arguments TypeError {A}.

(** [board[row][col]].  When [row] is past the end of the outer array,
    [board[row]] is [undefined] and indexing it throws.  When only [col] is
    past the end of the row the read yields [undefined], here [None]. *)
Definition read (board : BoardType) (row col : nat) : result (option CellValue) :=
  match board !! row with
  | Some cells => Ok (cells !! col)
  | None => TypeError
  end.

(** [x === num] for a value [x] produced by a read: [null] and [undefined]
    are never strictly equal to a number. *)
Definition strict_eq_num (x : option CellValue) (num : Z) : bool :=
  match x with
  | Some (Num n) => bool_decide (n = num)
  | _ => false
  end.

(** [x === null]. *)
Definition strict_eq_null (x : option CellValue) : bool :=
  match x with
  | Some Null => true
  | _ => false
  end.

(** ** The validator *)

(** The cells visited by the three loops of [isValid], in visiting order. *)
Definition rowCells (row : nat) : list position := (λ x, (row, x)) <$> seq 0 9.
Definition colCells (col : nat) : list position := (λ x, (x, col)) <$> seq 0 9.
Definition boxCells (row col : nat) : list position :=
  let boxStartRow := row / 3 * 3 in
  let boxStartCol := col / 3 * 3 in
  i ← seq 0 3; (λ j, (boxStartRow + i, boxStartCol + j)) <$> seq 0 3.

(** One scanning loop: [for p of ps: if (board[p] === num) return false].
    [Ok true] means the loop ran to its end without a match. *)
Fixpoint scan (board : BoardType) (num : Z) (ps : list position) : result bool :=
  match ps with
  | [] => Ok true
  | (r, c) :: ps' =>
      match read board r c with
      | TypeError => TypeError
      | Ok x => if strict_eq_num x num then Ok false else scan board num ps'
      end
  end.

(** Sequencing of two loops with early return. *)
Definition and_then (a : result bool) (k : result bool) : result bool :=
  match a with
  | Ok true => k
  | other => other
  end.

Definition isValid (board : BoardType) (row col : nat) (num : Z) : result bool :=
  and_then (scan board num (rowCells row))
    (and_then (scan board num (colCells col))
       (scan board num (boxCells row col))).

(** ** The backtracking solver *)

(** The cells visited by the two nested loops [for row] / [for col] of
    [solveSudoku] (and of the completeness loop of [checkSolution]), in
    row-major order. *)
Definition positions : list position :=
  row ← seq 0 9; (λ col, (row, col)) <$> seq 0 9.

(** The search for the first cell with [board[row][col] === null]. *)
Fixpoint findEmpty (board : BoardType) (ps : list position) : result (option position) :=
  match ps with
  | [] => Ok None
  | (row, col) :: ps' =>
      match read board row col with
      | TypeError => TypeError
      | Ok x => if strict_eq_null x then Ok (Some (row, col)) else findEmpty board ps'
      end
  end.

(** [const newBoard = [...board]; newBoard[row] = [...newBoard[row]];
    newBoard[row][col] = v]: the value of the fresh array.  The solver only
    writes a cell it has just read as [null], hence one inside both arrays;
    [alter] and [insert] leave a list unchanged out of range, a case the
    solver never reaches. *)
Definition place (board : BoardType) (row col : nat) (v : CellValue) : BoardType :=
  alter (λ cells, <[col := v]> cells) row board.

(** What an observer of a run sees: the entry of every (recursive) call with
    its argument, and every [setBoard(...)] with the board it publishes. *)
Inductive event : Type :=
  | Call (board : BoardType)
  | SetBoard (board : BoardType).

Definition event_board (e : event) : BoardType :=
  match e with Call b | SetBoard b => b end.

(** How a call ends: it returns a boolean, or a [TypeError] propagates. *)
Inductive outcome : Type :=
  | Ret (b : bool)
  | Throw.

#[global] Instance outcome_eq_dec : EqDecision outcome.
Proof. solve_decision. Defined.

(** The candidate loop [for (num = 1; num <= 9; num++)] at the empty cell
    [(row, col)], with [rec] standing for the recursive call. [None] means
    the recursion ran out of fuel. *)
Fixpoint tryNums (rec : BoardType → option (list event * outcome))
    (board : BoardType) (row col : nat) (nums : list Z)
    : option (list event * outcome) :=
  match nums with
  | [] => Some ([], Ret false)
  | num :: nums' =>
      match isValid board row col num with
      | TypeError => Some ([], Throw)
      | Ok false => tryNums rec board row col nums'
      | Ok true =>
          let newBoard := place board row col (Num num) in
          match rec newBoard with
          | None => None
          | Some (t, Throw) => Some (SetBoard newBoard :: t, Throw)
          | Some (t, Ret true) => Some (SetBoard newBoard :: t, Ret true)
          | Some (t, Ret false) =>
              let cleared := place newBoard row col Null in
              match tryNums rec board row col nums' with
              | None => None
              | Some (t', o) =>
                  Some (SetBoard newBoard :: t ++ SetBoard cleared :: t', o)
              end
          end
      end
  end.

Fixpoint solve (fuel : nat) (board : BoardType) : option (list event * outcome) :=
  match fuel with
  | 0 => None
  | S fuel' =>
      match findEmpty board positions with
      | TypeError => Some ([Call board], Throw)
      | Ok None => Some ([Call board], Ret true)
      | Ok (Some (row, col)) =>
          match tryNums (solve fuel') board row col (seqZ 1 9) with
          | None => None
          | Some (t, o) => Some (Call board :: t, o)
          end
      end
  end.

(** Number of [null] cells of a board. *)
Definition emptyCount (board : BoardType) : nat :=
  length (filter (λ x, x = Null) (concat board)).

(** [solveSudoku(board)]: every recursive call is on a board with one
    [null] cell less, so [emptyCount board] nested calls below the first
    are all a run can need (see [solve_ends] and [solve_fuel_mono]). *)
Definition solveSudoku (board : BoardType) : option (list event * outcome) :=
  solve (S (emptyCount board)) board.

(** The boards published by [setBoard], in order. *)
Definition snapshots (t : list event) : list BoardType :=
  omap (λ e, match e with SetBoard b => Some b | Call _ => None end) t.

(** The board on display once a run on [board] with trace [t] is over: the
    last one published, or the input if none was. *)
Definition finalBoard (board : BoardType) (t : list event) : BoardType :=
  default board (last (snapshots t)).

(** ** The completeness and conflict checker *)

(** [!value]: [null], [undefined] and [0] are falsy. *)
Definition falsy (x : option CellValue) : bool :=
  match x with
  | Some (Num n) => bool_decide (n = 0%Z)
  | _ => true
  end.

(** [conflicts.add(`${r},${c}`)] on a [Set<string>], kept in insertion order
    as [Array.from] later reads it.  The key of a cell is the text of its
    two indices around a comma, which determines the pair, so the pair
    itself serves as key. *)
Definition addConflict (p : position) (conflicts : list position) : list position :=
  if decide (p ∈ conflicts) then conflicts else conflicts ++ [p].

(** The marking loop: every cell of the unit holding [value] is added. *)
Fixpoint markAll (board : BoardType) (value : Z) (unit : list position)
    (conflicts : list position) : result (list position) :=
  match unit with
  | [] => Ok conflicts
  | (r, c) :: unit' =>
      match read board r c with
      | TypeError => TypeError
      | Ok x =>
          markAll board value unit'
            (if strict_eq_num x value then addConflict (r, c) conflicts else conflicts)
      end
  end.

(** The loop over the cells of one unit with its [seen] set, a
    [Set<number>] only ever grown by [add] and queried by [has], kept here as
    the list of the values added.  [todo] is the part of the unit still to
    visit. *)
Fixpoint checkUnit (board : BoardType) (unit todo : list position)
    (seen : list Z) (conflicts : list position) : result (list position) :=
  match todo with
  | [] => Ok conflicts
  | (r, c) :: todo' =>
      match read board r c with
      | TypeError => TypeError
      | Ok x =>
          if falsy x then checkUnit board unit todo' seen conflicts
          else
            match x with
            | Some (Num value) =>
                if decide (value ∈ seen) then
                  match markAll board value unit conflicts with
                  | TypeError => TypeError
                  | Ok conflicts' =>
                      checkUnit board unit todo' (value :: seen) conflicts'
                  end
                else checkUnit board unit todo' (value :: seen) conflicts
            | _ => checkUnit board unit todo' seen conflicts
            end
      end
  end.

(** The cells of box [(boxRow, boxCol)] in the order of the loops
    [for row = boxRow*3 ..] / [for col = boxCol*3 ..]. *)
Definition boxUnit (boxRow boxCol : nat) : list position :=
  i ← seq (boxRow * 3) 3; (λ j, (i, j)) <$> seq (boxCol * 3) 3.

(** The units in the order [checkSolution] visits them: rows 0..8, then
    columns 0..8, then boxes (0,0), (0,1), ..., (2,2). *)
Definition units : list (list position) :=
  (rowCells <$> seq 0 9) ++ (colCells <$> seq 0 9) ++
  (boxRow ← seq 0 3; boxUnit boxRow <$> seq 0 3).

Fixpoint checkUnits (board : BoardType) (us : list (list position))
    (conflicts : list position) : result (list position) :=
  match us with
  | [] => Ok conflicts
  | u :: us' =>
      match checkUnit board u u [] conflicts with
      | TypeError => TypeError
      | Ok conflicts' => checkUnits board us' conflicts'
      end
  end.

(** The inner loop of the completeness scan: [true] when it meets a falsy
    cell (and leaves through [break]). *)
Fixpoint rowHasFalsy (board : BoardType) (row : nat) (cols : list nat) : result bool :=
  match cols with
  | [] => Ok false
  | col :: cols' =>
      match read board row col with
      | TypeError => TypeError
      | Ok x => if falsy x then Ok true else rowHasFalsy board row cols'
      end
  end.

(** The outer loop: [break] only leaves the inner loop, the remaining rows
    are still scanned. *)
Fixpoint completeLoop (board : BoardType) (rows : list nat) (isComplete : bool)
    : result bool :=
  match rows with
  | [] => Ok isComplete
  | row :: rows' =>
      match rowHasFalsy board row (seq 0 9) with
      | TypeError => TypeError
      | Ok found => completeLoop board rows' (if found then false else isComplete)
      end
  end.

Record CheckResult : Type := mkCheckResult {
  cr_isValid : bool;
  cr_conflicts : list position
}.

(** [checkSolution()] on the board held by the component. *)
Definition checkSolution (board : BoardType) : result CheckResult :=
  match checkUnits board units [] with
  | TypeError => TypeError
  | Ok conflicts =>
      match completeLoop board (seq 0 9) true with
      | TypeError => TypeError
      | Ok isComplete =>
          Ok (mkCheckResult (isComplete && bool_decide (length conflicts = 0)) conflicts)
      end
  end.

(** ** Sample boards *)

(** The puzzle [resetBoard] installs. *)
Definition exampleBoard : BoardType :=
  [ [Num 5; Num 3; Null; Null; Num 7; Null; Null; Null; Null];
    [Num 6; Null; Null; Num 1; Num 9; Num 5; Null; Null; Null];
    [Null; Num 9; Num 8; Null; Null; Null; Null; Num 6; Null];
    [Num 8; Null; Null; Null; Num 6; Null; Null; Null; Num 3];
    [Num 4; Null; Null; Num 8; Null; Num 3; Null; Null; Num 1];
    [Num 7; Null; Null; Null; Num 2; Null; Null; Null; Num 6];
    [Null; Num 6; Null; Null; Null; Null; Num 2; Num 8; Null];
    [Null; Null; Null; Num 4; Num 1; Num 9; Null; Null; Num 5];
    [Null; Null; Null; Null; Num 8; Null; Null; Num 7; Num 9] ].

(** Its solution. *)
Definition solvedBoard : BoardType :=
  (λ row : list Z, Num <$> row) <$>
  [ [5;3;4;6;7;8;9;1;2]; [6;7;2;1;9;5;3;4;8]; [1;9;8;3;4;2;5;6;7];
    [8;5;9;7;6;1;4;2;3]; [4;2;6;8;5;3;7;9;1]; [7;1;3;9;2;4;8;5;6];
    [9;6;1;5;3;7;2;8;4]; [2;8;7;4;1;9;6;3;5]; [3;4;5;2;8;6;1;7;9] ]%Z.

(** The solved board with its cells (0,2) and (8,8) emptied. *)
Definition nearlySolvedBoard : BoardType :=
  place (place solvedBoard 0 2 Null) 8 8 Null.

(** A full board that holds a 1 everywhere. *)
Definition allOnesBoard : BoardType := replicate 9 (replicate 9 (Num 1)).

(** The board whose only filled cell is a 5 in the top left corner. *)
Definition cornerBoard : BoardType :=
  place (replicate 9 (replicate 9 Null)) 0 0 (Num 5).

(** The board whose only filled cells are a 5 at (0,0) and a 5 at (0,3). *)
Definition twoFivesBoard : BoardType :=
  place cornerBoard 0 3 (Num 5).

(** ** Predicates on boards *)

(** The content of a cell, [None] outside the arrays. *)
Definition cell (board : BoardType) (p : position) : option CellValue :=
  board !! p.1 ≫= (.!! p.2).

(** Nine rows of nine cells. *)
Definition board9x9 (board : BoardType) : Prop :=
  length board = 9 ∧ Forall (λ cells, length cells = 9) board.

Definition cell_ok (v : CellValue) : Prop :=
  match v with
  | Null => True
  | Num n => (1 ≤ n ≤ 9)%Z
  end.

#[global] Instance cell_ok_dec v : Decision (cell_ok v).
Proof. destruct v; simpl; apply _. Defined.

(** A board of the data model: 9×9, every cell empty or holding 1..9. *)
Definition wf_board (board : BoardType) : Prop :=
  board9x9 board ∧ Forall (Forall cell_ok) board.

Definition onBoard (p : position) : Prop := p.1 < 9 ∧ p.2 < 9.

(** Two cells lie in a common row, column or 3×3 box. *)
Definition sharesUnit (p q : position) : Prop :=
  p.1 = q.1 ∨ p.2 = q.2 ∨ (p.1 / 3 = q.1 / 3 ∧ p.2 / 3 = q.2 / 3).

#[global] Instance onBoard_dec p : Decision (onBoard p).
Proof. unfold onBoard. apply _. Defined.

#[global] Instance sharesUnit_dec p q : Decision (sharesUnit p q).
Proof. unfold sharesUnit. apply _. Defined.

(** [v] is held by some cell of the row, column or box of [(r, c)],
    the cell [(r, c)] included. *)
Definition occursInUnits (board : BoardType) (r c : nat) (v : Z) : Prop :=
  ∃ p, onBoard p ∧ sharesUnit (r, c) p ∧ cell board p = Some (Num v).

(** [v] is held by some cell of the row, column or box of [(r, c)]
    other than [(r, c)] itself. *)
Definition occursElsewhere (board : BoardType) (r c : nat) (v : Z) : Prop :=
  ∃ p, p ≠ (r, c) ∧ onBoard p ∧ sharesUnit (r, c) p ∧ cell board p = Some (Num v).

(** No value is held by two distinct cells of a common unit. *)
Definition noDuplicates (board : BoardType) : Prop :=
  ∀ p q v, onBoard p → onBoard q → p ≠ q → sharesUnit p q →
    cell board p = Some (Num v) → cell board q ≠ Some (Num v).

(** A cell takes part in a conflict: it holds a value that another cell of
    one of its units holds too. *)
Definition inConflict (board : BoardType) (p : position) : Prop :=
  ∃ q v, onBoard p ∧ onBoard q ∧ q ≠ p ∧ sharesUnit p q ∧
    cell board p = Some (Num v) ∧ cell board q = Some (Num v).

(** During the loop of [checkUnit] over [todo], started with [seen], the
    value [v] is met while already in the [seen] set. *)
Definition seenTwice (board : BoardType) (todo : list position) (seen : list Z)
    (v : Z) : Prop :=
  ∃ l1 q l2, todo = l1 ++ q :: l2 ∧ cell board q = Some (Num v) ∧
    (v ∈ seen ∨ ∃ q', q' ∈ l1 ∧ cell board q' = Some (Num v)).

(** No cell is empty. *)
Definition complete (board : BoardType) : Prop :=
  ∀ p, onBoard p → cell board p ≠ Some Null.

(** [full] keeps every filled cell of [board]. *)
Definition extends (board full : BoardType) : Prop :=
  ∀ p v, cell board p = Some (Num v) → cell full p = Some (Num v).

(** [p] holds a value that another cell of the unit [u] holds too. *)
Definition duplicatedInUnit (board : BoardType) (u : list position) (p : position) : Prop :=
  p ∈ u ∧ ∃ q v, q ∈ u ∧ q ≠ p ∧
    cell board p = Some (Num v) ∧ cell board q = Some (Num v).

(** Executable forms of [noDuplicates] and [complete], for concrete boards. *)
Definition clashes (x y : option CellValue) : bool :=
  match x with
  | Some (Num _) => bool_decide (x = y)
  | _ => false
  end.

Definition noDuplicatesCheck (board : BoardType) : bool :=
  bool_decide (Forall (λ p, Forall (λ q,
    p = q ∨ ¬ sharesUnit p q ∨ clashes (cell board p) (cell board q) = false)
    positions) positions).

Definition completeCheck (board : BoardType) : bool :=
  bool_decide (Forall (λ p, cell board p ≠ Some Null) positions).

#[global] Instance board9x9_dec board : Decision (board9x9 board).
Proof. unfold board9x9. apply _. Defined.

#[global] Instance wf_board_dec board : Decision (wf_board board).
Proof. unfold wf_board. apply _. Defined.

(** The values held by the cells of a unit, in unit order. *)
Definition unitValues (board : BoardType) (u : list position) : list (option CellValue) :=
  cell board <$> u.

(** Every row, column and box holds each of 1..9 exactly once. *)
Definition allUnitsPermutation (board : BoardType) : Prop :=
  ∀ u, u ∈ units → unitValues board u ≡ₚ (λ n, Some (Num n)) <$> seqZ 1 9.

(** A valid completion of [board]. *)
Definition validCompletion (board full : BoardType) : Prop :=
  wf_board full ∧ extends board full ∧ allUnitsPermutation full.

(** ** The solver on a store of arrays

    [solveSudoku] receives a reference to an array of references to row
    arrays, and copies before it writes.  This second model keeps the arrays
    in a store, so that which array a write lands in can be stated. *)

Abbreviation loc := nat.

Inductive object : Type :=
  | RowArray (cells : list CellValue)
  | BoardArray (rows : list loc).

(** The arrays allocated so far, the address of an array being its index;
    an allocation appends. *)
Abbreviation heap := (list object).

Definition loadRow (h : heap) (l : loc) : option (list CellValue) :=
  match h !! l with
  | Some (RowArray cells) => Some cells
  | _ => None
  end.

(** The board a reader sees through the address [board]. [None] when the
    address does not hold an array of row arrays, which the types of the
    program exclude. *)
Definition load (h : heap) (board : loc) : option BoardType :=
  match h !! board with
  | Some (BoardArray rows) => mapM (loadRow h) rows
  | _ => None
  end.

(** [[...board]]: a fresh outer array holding the same row references. *)
Definition spreadBoard (h : heap) (board : loc) : option (heap * loc) :=
  match h !! board with
  | Some (BoardArray rows) => Some (h ++ [BoardArray rows], length h)
  | _ => None
  end.

(** [newBoard[row] = [...newBoard[row]]]: a fresh copy of one row, stored
    into the outer array.  The solver copies a row it has just read from. *)
Definition copyRow (h : heap) (newBoard : loc) (row : nat) : option heap :=
  match h !! newBoard with
  | Some (BoardArray rows) =>
      match rows !! row ≫= loadRow h with
      | Some cells =>
          Some (<[newBoard := BoardArray (<[row := length h]> rows)]>
                  (h ++ [RowArray cells]))
      | None => None
      end
  | _ => None
  end.

(** [newBoard[row][col] = v]: a write into the row array that
    [newBoard[row]] refers to. *)
Definition writeCell (h : heap) (newBoard : loc) (row col : nat) (v : CellValue)
    : option heap :=
  match h !! newBoard with
  | Some (BoardArray rows) =>
      match rows !! row with
      | Some r =>
          match h !! r with
          | Some (RowArray cells) => Some (<[r := RowArray (<[col := v]> cells)]> h)
          | _ => None
          end
      | None => None
      end
  | _ => None
  end.

(** [setBoard([...newBoard])]: the address published, with the board an
    observer reads through it at that moment. *)
Definition publish (h : heap) (newBoard : loc) : option (heap * (loc * BoardType)) :=
  match spreadBoard h newBoard with
  | Some (h', shown) =>
      match load h' shown with
      | Some b => Some (h', (shown, b))
      | None => None
      end
  | None => None
  end.

(** The candidate loop and the solver, threading the store.  A run yields
    the final store, the boards published and how the call ended. *)
Fixpoint tryNumsOnHeap
    (rec : loc → heap → option (heap * list (loc * BoardType) * outcome))
    (board : loc) (row col : nat) (nums : list Z) (h : heap)
    : option (heap * list (loc * BoardType) * outcome) :=
  match nums with
  | [] => Some (h, [], Ret false)
  | num :: nums' =>
      match load h board with
      | None => None
      | Some b =>
          match isValid b row col num with
          | TypeError => Some (h, [], Throw)
          | Ok false => tryNumsOnHeap rec board row col nums' h
          | Ok true =>
              '(h1, newBoard) ← spreadBoard h board;
              h2 ← copyRow h1 newBoard row;
              h3 ← writeCell h2 newBoard row col (Num num);
              '(h4, shown) ← publish h3 newBoard;
              '(h5, t, o) ← rec newBoard h4;
              match o with
              | Ret false =>
                  h6 ← writeCell h5 newBoard row col Null;
                  '(h7, cleared) ← publish h6 newBoard;
                  '(h8, t', o') ← tryNumsOnHeap rec board row col nums' h7;
                  Some (h8, shown :: t ++ cleared :: t', o')
              | _ => Some (h5, shown :: t, o)
              end
          end
      end
  end.

Fixpoint solveOnHeap (fuel : nat) (board : loc) (h : heap)
    : option (heap * list (loc * BoardType) * outcome) :=
  match fuel with
  | 0 => None
  | S fuel' =>
      match load h board with
      | None => None
      | Some b =>
          match findEmpty b positions with
          | TypeError => Some (h, [], Throw)
          | Ok None => Some (h, [], Ret true)
          | Ok (Some (row, col)) =>
              tryNumsOnHeap (solveOnHeap fuel') board row col (seqZ 1 9) h
          end
      end
  end.

(** [solveSudoku(board)] on the store, with the fuel of [solveSudoku]. *)
Definition solveSudokuOnHeap (board : loc) (h : heap)
    : option (heap * list (loc * BoardType) * outcome) :=
  match load h board with
  | Some b => solveOnHeap (S (emptyCount b)) board h
  | None => None
  end.

(** A store holding just the board [b]: its rows at addresses
    0 .. length b - 1, the outer array at address [length b]. *)
Definition storeOf (b : BoardType) : heap :=
  (RowArray <$> b) ++ [BoardArray (seq 0 (length b))].

(** The store after [newBoard = [...board]; newBoard[row] = [...]] and any
    number of writes into the fresh row: two fresh arrays on top of [h]. *)
Definition placedHeap (h : heap) (rows : list loc) (row : nat)
    (cells : list CellValue) : heap :=
  h ++ [BoardArray (<[row := S (length h)]> rows); RowArray cells].

(** A run on the store refines a run on board values: same end, same
    boards published; nothing allocated before the run is changed; and after
    a success the last array published still holds the board published. *)
Definition refinesRun (h : heap) (run : option (list event * outcome))
    (runOnHeap : option (heap * list (loc * BoardType) * outcome)) : Prop :=
  match run with
  | None => runOnHeap = None
  | Some (t, o) =>
      ∃ h' tH, runOnHeap = Some (h', tH, o) ∧
        h `prefix_of` h' ∧
        tH.*2 = snapshots t ∧
        Forall (λ e, length h ≤ e.1) tH ∧
        (o = Ret true → ∀ l b, last tH = Some (l, b) → load h' l = Some b)
  end.

(** ** Arrays of cells in one and in two dimensions *)

(** The position [Array.prototype.slice] derives from an argument [k] on an
    array of length [len]: a negative argument counts from the end, and the
    result is clamped to the array. *)
Definition sliceIndex (len : nat) (k : Z) : nat :=
  if decide (k < 0)%Z then Z.to_nat (Z.max (Z.of_nat len + k) 0)
  else Nat.min (Z.to_nat k) len.

(** [l.slice(start, stop)]. *)
Definition slice {A} (l : list A) (start stop : Z) : list A :=
  let s := sliceIndex (length l) start in
  let e := sliceIndex (length l) stop in
  take (e - s) (drop s l).

(** [l.slice(start)]. *)
Definition sliceFrom {A} (l : list A) (start : Z) : list A :=
  slice l start (Z.of_nat (length l)).

(** [type SudokuBoard = Array<number | null>], the board of the external
    solver library. *)
Abbreviation SudokuBoard := (list CellValue).

(** [to2D]: nine slices of nine cells. *)
Definition to2D (board : SudokuBoard) : BoardType :=
  (λ i, slice board (Z.of_nat i * 9) (Z.of_nat i * 9 + 9)) <$> seq 0 9.

(** [to1D]: [board.flat()], one level deep. *)
Definition to1D (board : BoardType) : SudokuBoard := concat board.

(** The cell an update of the external solver names by its index:
    [row = Math.floor(index / 9)], [col = index % 9]. *)
Definition cellOfIndex (index : nat) : position := (index / 9, index mod 9).

(** ** The two board components *)

(** What a click or key handler does: it returns, leaving a new state; or
    it throws the [TypeError] of indexing [undefined], leaving the state its
    updates before the throw lead to; or it assigns past the end of a row,
    which leaves a sparse array that no list of cells stands for. *)
Inductive handled (A : Type) : Type :=
  | Done (a : A)
  | Raised (a : A)
  | Sparse.
Arguments Done {A} a.
Arguments Raised {A} a.
Arguments Sparse {A}.

(** [l[i] = x]: an element is replaced, or appended when [i] is the length;
    further out the array would get holes. *)
Definition assignAt {A} (l : list A) (i : nat) (x : A) : option (list A) :=
  if decide (i < length l) then Some (<[i := x]> l)
  else if decide (i = length l) then Some (l ++ [x])
  else None.

(** [initialBoardState[row]?.[col]] as a condition: [undefined] is falsy. *)
Definition initialCell (initialBoardState : list (list bool)) (row col : nat) : bool :=
  match initialBoardState !! row with
  | Some flags => default false (flags !! col)
  | None => false
  end.

(** [board.map(row => row.map(cell => cell !== null))]. *)
Definition initialCells (board : BoardType) : list (list bool) :=
  (λ row : list CellValue, (λ c, negb (strict_eq_null (Some c))) <$> row) <$> board.

Module SolverBoard.
  (** [isInSameBox] of the component that holds [solveSudoku]: the cell
      against the bounds of the box of the selected cell. *)
Definition isInSameBox (row col selectedRow selectedCol : nat) : bool :=
  let boxStartRow := selectedRow / 3 * 3 in
  let boxStartCol := selectedCol / 3 * 3 in
  (boxStartRow <=? row) && (row <? boxStartRow + 3) &&
  (boxStartCol <=? col) && (col <? boxStartCol + 3).

  (** The state variables of the component. *)
Record State : Type := mkState {
  sb_board : BoardType;
  sb_initialBoardState : list (list bool);
  sb_selectedCell : option position;
  sb_isSolving : bool
}.

  (** The state the component is created with. *)
Definition initialState : State :=
  mkState (replicate 9 (replicate 9 Null)) [] None false.

Definition setBoard (b : BoardType) (s : State) : State :=
  mkState b (sb_initialBoardState s) (sb_selectedCell s) (sb_isSolving s).

  (** [resetBoard]: the sample puzzle, its filled cells marked as given. *)
Definition resetBoard (s : State) : State :=
  mkState exampleBoard (initialCells exampleBoard) (sb_selectedCell s) (sb_isSolving s).

Definition handleCellClick (row col : nat) (s : State) : State :=
  if initialCell (sb_initialBoardState s) row col then s
  else mkState (sb_board s) (sb_initialBoardState s) (Some (row, col)) (sb_isSolving s).

  (** [handleNumberClick].  The outer array is copied and the row written in
      place; the board the component shows next is the one computed here. *)
Definition handleNumberClick (num : Z) (s : State) : handled State :=
  match sb_selectedCell s with
  | None => Done s
  | Some (row, col) =>
      if initialCell (sb_initialBoardState s) row col then Done s
      else
        match sb_board s !! row with
        | None => Raised s
        | Some cells =>
            let v := if strict_eq_num (cells !! col) num then Null else Num num in
            match assignAt cells col v with
            | Some cells' => Done (setBoard (<[row := cells']> (sb_board s)) s)
            | None => Sparse
            end
        end
  end.

  (** The Clear button: [selectedCell && handleNumberClick(0)]. *)
Definition handleClearClick (s : State) : handled State :=
  match sb_selectedCell s with
  | None => Done s
  | Some _ => handleNumberClick 0 s
  end.

  (** [handleSolveClick], from the click to the end of the run it awaits: the
      solver runs on a deep copy of the board, the board on display is the
      last one it published, and a throw is caught.  [None] stands for a run
      that the fuel of [solveSudoku] does not cover. *)
Definition handleSolveClick (s : State) : option State :=
  if sb_isSolving s then Some s
  else
    match solveSudoku (sb_board s) with
    | Some (t, _) =>
        Some (mkState (finalBoard (sb_board s) t) (sb_initialBoardState s)
                (sb_selectedCell s) false)
    | None => None
    end.

  (** What a user can do next: click a cell on display, and, while no run
      is under way, press a number button, Clear, Solve or New Puzzle. *)
Inductive uiStep : State → State → Prop :=
  | ui_cell s row col :
      is_Some (cell (sb_board s) (row, col)) → uiStep s (handleCellClick row col s)
  | ui_number s num s' :
      sb_isSolving s = false → (1 ≤ num ≤ 9)%Z →
      handleNumberClick num s = Done s' → uiStep s s'
  | ui_clear s s' :
      sb_isSolving s = false → handleClearClick s = Done s' → uiStep s s'
  | ui_solve s s' :
      sb_isSolving s = false → handleSolveClick s = Some s' → uiStep s s'
  | ui_new s : sb_isSolving s = false → uiStep s (resetBoard s).
End SolverBoard.

(** The state after a click on the empty cell (0,2), the button 4 and
    Clear. *)
Definition clearedState : SolverBoard.State :=
  SolverBoard.mkState (place exampleBoard 0 2 (Num 0)) (initialCells exampleBoard)
    (Some (0, 2)) false.

(** What the states of a session of the solver component have in common. *)
Definition solverInvariant (s : SolverBoard.State) : Prop :=
  board9x9 (SolverBoard.sb_board s) ∧
  extends exampleBoard (SolverBoard.sb_board s) ∧
  SolverBoard.sb_initialBoardState s = initialCells exampleBoard ∧
  SolverBoard.sb_isSolving s = false ∧
  (∀ p, SolverBoard.sb_selectedCell s = Some p → onBoard p).

Module GameBoard.
  (** [isInSameBox] of the component that holds [checkSolution]: equal box
      coordinates. *)
Definition isInSameBox (row1 col1 row2 col2 : nat) : bool :=
  let boxRow1 := row1 / 3 in
  let boxCol1 := col1 / 3 in
  let boxRow2 := row2 / 3 in
  let boxCol2 := col2 / 3 in
  (boxRow1 =? boxRow2) && (boxCol1 =? boxCol2).
End GameBoard.

(** ** Order of the search *)

(** [q] comes before [p] in the row-major scan. *)
Definition rowMajorBefore (q p : position) : Prop :=
  q.1 < p.1 ∨ (q.1 = p.1 ∧ q.2 < p.2).

(** [F] is [G] on the board, or holds the smaller value in the first cell,
    in row-major order, where the two differ. *)
Definition rowMajorLe (F G : BoardType) : Prop :=
  (∀ p, onBoard p → cell F p = cell G p) ∨
  ∃ p n m, onBoard p ∧ cell F p = Some (Num n) ∧ cell G p = Some (Num m) ∧
    (n < m)%Z ∧ ∀ q, onBoard q → rowMajorBefore q p → cell F q = cell G q.

(** A board on which the search places 1, then 2, at (0,0) and finds no
    value for (0,1) either time. *)
Definition deadEndBoard : BoardType :=
  [ [Null; Null; Num 3; Num 4; Num 5; Num 6; Num 7; Num 8; Num 9];
    replicate 9 Null; replicate 9 Null;
    [Null; Num 1; Null; Null; Null; Null; Null; Null; Null];
    [Null; Num 2; Null; Null; Null; Null; Null; Null; Null];
    replicate 9 Null; replicate 9 Null; replicate 9 Null; replicate 9 Null ].

(** The board without any filled cell. *)
Definition blankBoard : BoardType := replicate 9 (replicate 9 Null).

(** The solved board with 10 written for every 9. *)
Definition tenBoard : BoardType :=
  (λ row : list CellValue,
     (λ x, if decide (x = Num 9) then Num 10 else x) <$> row) <$> solvedBoard.

(** The first three rows of the sample puzzle. *)
Definition threeRowBoard : BoardType := take 3 exampleBoard.

(** ** Undo and redo of the game component *)

(** [type PencilMarks = number[]]. *)
Abbreviation PencilMarks := (list Z).

(** An entry of [history] or [future]: [{ board, pencilMarks }].  Entries
    are deep copies made by [JSON.parse(JSON.stringify(...))], which on
    arrays of integers and [null] yields an equal value. *)
Record Snapshot : Type := mkSnapshot {
  snap_board : BoardType;
  snap_pencilMarks : list (list PencilMarks)
}.

(** The state variables the undo machinery reads and writes. *)
Record EditState : Type := mkEditState {
  st_board : BoardType;
  st_pencilMarks : list (list PencilMarks);
  st_history : list Snapshot;
  st_historyIndex : Z;
  st_future : list Snapshot
}.

Definition currentSnapshot (s : EditState) : Snapshot :=
  mkSnapshot (st_board s) (st_pencilMarks s).

(** [undo].  [history[historyIndex]] is [undefined] past the end of
    [history], and reading its [board] then throws. *)
Definition undo (s : EditState) : result EditState :=
  if decide (st_historyIndex s < 0)%Z then Ok s
  else
    match st_history s !! Z.to_nat (st_historyIndex s) with
    | None => TypeError
    | Some previousState =>
        Ok {| st_board := snap_board previousState;
              st_pencilMarks := snap_pencilMarks previousState;
              st_history := st_history s;
              st_historyIndex := st_historyIndex s - 1;
              st_future := slice (currentSnapshot s :: st_future s) 0 49 |}
    end.

(** [redo]. *)
Definition redo (s : EditState) : EditState :=
  match st_future s with
  | [] => s
  | nextState :: _ =>
      {| st_board := snap_board nextState;
         st_pencilMarks := snap_pencilMarks nextState;
         st_history := sliceFrom (st_history s ++ [currentSnapshot s]) (-50);
         st_historyIndex := Z.min (st_historyIndex s + 1) 49;
         st_future := sliceFrom (st_future s) 1 |}
  end.

(** What [resetBoard] leaves in these variables, for the board the
    generator returned: no pencil marks, no history. *)
Definition resetEdit (newBoard : BoardType) : EditState :=
  {| st_board := newBoard;
     st_pencilMarks := replicate 9 (replicate 9 []);
     st_history := [];
     st_historyIndex := -1;
     st_future := [] |}.

(** A handler's [setBoard(b); setPencilMarks(pm)]. *)
Definition setBoardAndMarks (b : BoardType) (pm : list (list PencilMarks))
    (s : EditState) : EditState :=
  {| st_board := b; st_pencilMarks := pm; st_history := st_history s;
     st_historyIndex := st_historyIndex s; st_future := st_future s |}.

(** The bounds the undo machinery keeps. *)
Definition historyBounds (s : EditState) : Prop :=
  length (st_history s) ≤ 50 ∧ length (st_future s) ≤ 49 ∧
  (-1 ≤ st_historyIndex s < Z.of_nat (length (st_history s)))%Z.

(** A state with one entry to undo: the sample puzzle was on display before
    the solved board. *)
Definition sampleEdit : EditState :=
  {| st_board := solvedBoard;
     st_pencilMarks := replicate 9 (replicate 9 []);
     st_history := [mkSnapshot exampleBoard (replicate 9 (replicate 9 []))];
     st_historyIndex := 0;
     st_future := [] |}.

Section save_to_history.
  (** [JSON.stringify] on boards and on pencil marks: any function to
      texts that can be compared. *)
Context {Text : Type} `{EqDecision Text}.
Variable stringifyBoard : BoardType → Text.
Variable stringifyMarks : list (list PencilMarks) → Text.

(** [saveToHistory(newBoard, newPencilMarks)]. *)
Definition saveToHistory (s : EditState) (newBoard : BoardType)
    (newPencilMarks : list (list PencilMarks)) : EditState :=
  if bool_decide (stringifyBoard newBoard = stringifyBoard (st_board s)) &&
     bool_decide (stringifyMarks newPencilMarks = stringifyMarks (st_pencilMarks s))
  then s
  else
    {| st_board := st_board s;
       st_pencilMarks := st_pencilMarks s;
       st_history :=
         sliceFrom (slice (st_history s) 0 (st_historyIndex s + 1)
                    ++ [currentSnapshot s]) (-50);
       st_historyIndex := Z.min (st_historyIndex s + 1) 49;
       st_future := [] |}.

(** One handler call, as far as these variables go.  [handleClearCell] and
    [handleNumberClick] call [saveToHistory(board, pencilMarks)], on the
    current board and marks, and then set a new board and new marks; the
    keyboard handler and the step display only set them; [undo], [redo] and
    [resetBoard] are the three other writers of the history. *)
Inductive sessionStep : EditState → EditState → Prop :=
  | step_click s b pm :
      sessionStep s
        (setBoardAndMarks b pm (saveToHistory s (st_board s) (st_pencilMarks s)))
  | step_set s b pm : sessionStep s (setBoardAndMarks b pm s)
  | step_undo s s' : undo s = Ok s' → sessionStep s s'
  | step_redo s : sessionStep s (redo s)
  | step_reset s b : sessionStep s (resetEdit b).
End save_to_history.

(** ** Replaying the steps of the external solver *)

(** [interface Update], [interface SolvingStep] and [type SolutionStep] of
    the types module; what the external [solve] returns is read through its
    fields [solved] and [steps]. *)
Record Update : Type := mkUpdate {
  upd_index : nat;
  upd_eliminatedCandidate : option Z;
  upd_filledValue : Z
}.

Inductive StepKind : Type := ValueStep | EliminationStep.

Record SolvingStep : Type := mkSolvingStep {
  step_strategy : string;
  step_updates : list Update;
  step_type : StepKind
}.

Record SolutionStep : Type := mkSolutionStep {
  ss_board : BoardType;
  ss_cell : position;
  ss_value : Z;
  ss_strategy : string;
  ss_explanation : string
}.

Record Solution : Type := mkSolution {
  sol_solved : bool;
  sol_steps : option (list SolvingStep)
}.

(** [generateStepExplanation]. *)
Definition generateStepExplanation (strategy : string) (row col : nat) (value : Z)
    : string :=
  let rowNum := pretty (row + 1) in
  let colNum := pretty (col + 1) in
  if decide (strategy = "naked-single") then
    "Cell [" +:+ rowNum +:+ ", " +:+ colNum +:+ "] can only be " +:+ pretty value
    +:+ ". All other numbers 1-9 are already present in its row, column, or 3x3 box."
  else if decide (strategy = "hidden-single") then
    "In the row/column/box containing cell [" +:+ rowNum +:+ ", " +:+ colNum
    +:+ "], the number " +:+ pretty value +:+ " can only go in this one cell."
  else if decide (strategy = "naked-pair") then
    "Found a naked pair in the row/column/box containing cell [" +:+ rowNum +:+ ", "
    +:+ colNum +:+ "]. This allows us to place " +:+ pretty value +:+ "."
  else if decide (strategy = "hidden-pair") then
    "Found a hidden pair pattern that reveals " +:+ pretty value
    +:+ " must go in cell [" +:+ rowNum +:+ ", " +:+ colNum +:+ "]."
  else
    "Using " +:+ strategy +:+ " strategy to place " +:+ pretty value +:+ " in cell ["
    +:+ rowNum +:+ ", " +:+ colNum +:+ "].".

(** [currentBoard.map((r, rIdx) => r.map((c, cIdx) => rIdx === row && cIdx
    === col ? value : c))]: a fresh board, the cell replaced if there is
    one. *)
Definition mapCell (currentBoard : BoardType) (row col : nat) (value : CellValue)
    : BoardType :=
  imap (λ rIdx r,
    imap (λ cIdx c,
      if bool_decide (rIdx = row) && bool_decide (cIdx = col) then value else c) r)
    currentBoard.

(** The callback of [solution.steps.map], with [currentBoard] threaded
    through.  A step without update makes [update] [undefined], and reading
    its [index] throws. *)
Fixpoint replaySteps (currentBoard : BoardType) (steps : list SolvingStep)
    : result (list SolutionStep) :=
  match steps with
  | [] => Ok []
  | step :: steps' =>
      match step_updates step with
      | [] => TypeError
      | update :: _ =>
          let row := upd_index update / 9 in
          let col := upd_index update mod 9 in
          let newBoard := mapCell currentBoard row col (Num (upd_filledValue update)) in
          match replaySteps newBoard steps' with
          | TypeError => TypeError
          | Ok out =>
              Ok (mkSolutionStep newBoard (row, col) (upd_filledValue update)
                    (step_strategy step)
                    (generateStepExplanation (step_strategy step) row col
                       (upd_filledValue update)) :: out)
          end
      end
  end.

(** [generateSolutionSteps], for the external [solve] given as [solver]. *)
Definition generateSolutionSteps (solver : SudokuBoard → Solution) (board : BoardType)
    : result (list SolutionStep) :=
  let board1D := to1D board in
  let solution := solver board1D in
  match sol_solved solution, sol_steps solution with
  | true, Some steps => replaySteps board steps
  | _, _ => Ok []
  end.

(** Two steps that complete [nearlySolvedBoard], and a solver stub that
    reports them. *)
Definition sampleSteps : list SolvingStep :=
  [ mkSolvingStep "naked-single" [mkUpdate 2 None 4] ValueStep;
    mkSolvingStep "hidden-single" [mkUpdate 80 None 9] ValueStep ].

Definition sampleSolver (board1D : SudokuBoard) : Solution :=
  mkSolution true (Some sampleSteps).

(** The updates of a list of steps applied to the 1D board, one board per
    step: what the external solver's own board goes through. *)
Fixpoint replay1D (board1D : SudokuBoard) (steps : list SolvingStep)
    : list SudokuBoard :=
  match steps with
  | [] => []
  | step :: steps' =>
      match step_updates step with
      | [] => []
      | update :: _ =>
          let next := <[upd_index update := Num (upd_filledValue update)]> board1D in
          next :: replay1D next steps'
      end
  end.

(** ** Achievements and the check button *)

(** [type Achievement] and [ALL_ACHIEVEMENTS] of the types module. *)
Record Achievement : Type := mkAchievement {
  ach_id : string;
  ach_title : string;
  ach_description : string;
  ach_earned : bool
}.

Definition ALL_ACHIEVEMENTS : list Achievement :=
  [ mkAchievement "first-solve" "First Solve" "Solve your first Sudoku puzzle." false;
    mkAchievement "naked-single-master" "Naked Single Master"
      "Solve a puzzle using only Naked Single strategy." false;
    mkAchievement "hidden-single-master" "Hidden Single Master"
      "Solve a puzzle using at least one Hidden Single strategy." false;
    mkAchievement "no-hint-master" "No Hint Master"
      "Solve a puzzle without using any hints." false;
    mkAchievement "speed-demon" "Speed Demon" "Solve a puzzle in under 5 minutes." false ].

(** [{ ...achievement, earned: true }]. *)
Definition earn (a : Achievement) : Achievement :=
  mkAchievement (ach_id a) (ach_title a) (ach_description a) true.

(** The update [checkAchievement(id)] applies to the achievements. *)
Definition checkAchievement (id : string) (prevAchievements : list Achievement)
    : list Achievement :=
  (λ achievement,
     if bool_decide (ach_id achievement = id) && negb (ach_earned achievement)
     then earn achievement else achievement) <$> prevAchievements.

(** The state [handleCheckSolution] reads and writes.  Times are the
    millisecond counts of [Date.now()]. *)
Record CheckState : Type := mkCheckState {
  cs_board : BoardType;
  cs_achievements : list Achievement;
  cs_hintsUsed : nat;
  cs_startTime : Z;
  cs_conflictCells : list position
}.

(** [handleCheckSolution], [now] being what [Date.now()] returns once the
    congratulation is dismissed.  [(now - startTime) / 1000 < 300] on
    millisecond counts is [now - startTime < 300000].  On an invalid board
    the conflicts are shown, and a timer set to hide them two seconds later;
    the state here is the one the handler leaves. *)
Definition handleCheckSolution (now : Z) (s : CheckState) : result CheckState :=
  match checkSolution (cs_board s) with
  | TypeError => TypeError
  | Ok res =>
      if cr_isValid res then
        let a1 := checkAchievement "first-solve" (cs_achievements s) in
        let a2 := if decide (cs_hintsUsed s = 0)
                  then checkAchievement "no-hint-master" a1 else a1 in
        let a3 := if decide (now - cs_startTime s < 300000)%Z
                  then checkAchievement "speed-demon" a2 else a2 in
        Ok (mkCheckState (cs_board s) a3 (cs_hintsUsed s) (cs_startTime s) [])
      else
        Ok (mkCheckState (cs_board s) (cs_achievements s) (cs_hintsUsed s)
              (cs_startTime s) (cr_conflicts res))
  end.

(** A list of achievements after [checkAchievement] on each of [ids]. *)
Definition checkAll (ids : list string) (achievements : list Achievement)
    : list Achievement :=
  foldl (λ l id, checkAchievement id l) achievements ids.

(** ** The game component: mouse and keyboard *)

(** The state variables the mouse and keyboard handlers read and write. *)
Record GameState : Type := mkGame {
  gs_edit : EditState;
  gs_isPencilMode : bool;
  gs_initialBoardState : list (list bool);
  gs_selectedCell : option position;
  gs_score : Z;
  gs_achievements : list Achievement
}.

Definition withEdit (e : EditState) (s : GameState) : GameState :=
  mkGame e (gs_isPencilMode s) (gs_initialBoardState s) (gs_selectedCell s)
    (gs_score s) (gs_achievements s).

Definition setSelectedCell (p : position) (s : GameState) : GameState :=
  mkGame (gs_edit s) (gs_isPencilMode s) (gs_initialBoardState s) (Some p)
    (gs_score s) (gs_achievements s).

Definition togglePencilMode (s : GameState) : GameState :=
  mkGame (gs_edit s) (negb (gs_isPencilMode s)) (gs_initialBoardState s)
    (gs_selectedCell s) (gs_score s) (gs_achievements s).

(** The fields of a [KeyboardEvent] the handler reads. *)
Record KeyboardEvent : Type := mkKeyboardEvent {
  ev_key : string;
  ev_ctrlKey : bool;
  ev_metaKey : bool;
  ev_shiftKey : bool
}.

(** [/^[1-9]$/.test(key)] with [parseInt(key)]: the digit a key stands for. *)
Definition digitKey (key : string) : option Z :=
  if decide (key = "1") then Some 1%Z
  else if decide (key = "2") then Some 2%Z
  else if decide (key = "3") then Some 3%Z
  else if decide (key = "4") then Some 4%Z
  else if decide (key = "5") then Some 5%Z
  else if decide (key = "6") then Some 6%Z
  else if decide (key = "7") then Some 7%Z
  else if decide (key = "8") then Some 8%Z
  else if decide (key = "9") then Some 9%Z
  else None.

(** The pencil marks after the toggle of [num] in the cell: the row is
    copied, which throws when there is none, and so does [includes] on a
    missing cell; a missing mark is appended and the marks sorted. *)
Definition togglePencilMark (pencilMarks : list (list PencilMarks)) (row col : nat)
    (num : Z) : result (list (list PencilMarks)) :=
  match pencilMarks !! row with
  | None => TypeError
  | Some marksRow =>
      match marksRow !! col with
      | None => TypeError
      | Some marks =>
          let marks' :=
            if bool_decide (num ∈ marks) then filter (λ n, n ≠ num) marks
            else merge_sort Z.le (marks ++ [num]) in
          Ok (<[row := <[col := marks']> marksRow]> pencilMarks)
      end
  end.

(** [[...r.slice(0, col), x, ...r.slice(col + 1)]]. *)
Definition spliceCell {A} (r : list A) (col : nat) (x : A) : list A :=
  slice r 0 (Z.of_nat col) ++ [x] ++ sliceFrom r (Z.of_nat col + 1).

(** [awardPoints]. *)
Definition awardPoints (strategy : string) (score : Z) : Z :=
  if decide (strategy = "naked-single") then (score + 10)%Z
  else if decide (strategy = "hidden-single") then (score + 20)%Z
  else (score + 5)%Z.

(** [resetBoard] on these variables, for the board the generator returned.
    The pencil mode and the achievements stay. *)
Definition resetBoard (generated : SudokuBoard) (s : GameState) : GameState :=
  let newBoard := to2D generated in
  mkGame (resetEdit newBoard) (gs_isPencilMode s) (initialCells newBoard) None 0
    (gs_achievements s).

Definition handleCellClick (row col : nat) (s : GameState) : GameState :=
  if initialCell (gs_initialBoardState s) row col then s
  else setSelectedCell (row, col) s.

(** The last two branches of [handleKeyDown]: undo and redo, and the
    pencil key. *)
Definition otherKey (e : KeyboardEvent) (s : GameState) : handled GameState :=
  let key := ev_key e in
  if (ev_ctrlKey e || ev_metaKey e) &&
     (bool_decide (key = "z") || bool_decide (key = "y")) then
    if bool_decide (key = "z") && negb (ev_shiftKey e) then
      match undo (gs_edit s) with
      | Ok e' => Done (withEdit e' s)
      | TypeError => Raised s
      end
    else if bool_decide (key = "y") || (bool_decide (key = "z") && ev_shiftKey e) then
      Done (withEdit (redo (gs_edit s)) s)
    else Done s
  else if bool_decide (key = "p") || bool_decide (key = "P") then
    Done (togglePencilMode s)
  else Done s.

Section game_handlers.
Context {Text : Type} `{EqDecision Text}.
Variable stringifyBoard : BoardType → Text.
Variable stringifyMarks : list (list PencilMarks) → Text.
  (** [hint] of the external solver library. *)
Variable getHint : SudokuBoard → Solution.

(** [handleClearCell]. *)
Definition handleClearCell (s : GameState) : GameState :=
  match gs_selectedCell s with
  | None => s
  | Some (row, col) =>
      if initialCell (gs_initialBoardState s) row col then s
      else
        let board := st_board (gs_edit s) in
        let pencilMarks := st_pencilMarks (gs_edit s) in
        let saved := saveToHistory stringifyBoard stringifyMarks (gs_edit s)
                       board pencilMarks in
        let newBoard :=
          imap (λ rIdx r, if bool_decide (rIdx = row) then spliceCell r col Null else r)
            board in
        let newPencilMarks :=
          imap (λ rIdx r, if bool_decide (rIdx = row) then spliceCell r col [] else r)
            pencilMarks in
        withEdit (setBoardAndMarks newBoard newPencilMarks saved) s
  end.

(** [handleNumberClick].  Every throw comes before the score and the
    achievements are touched, and after [saveToHistory]. *)
Definition handleNumberClick (num : Z) (s : GameState) : handled GameState :=
  match gs_selectedCell s with
  | None => Done s
  | Some (row, col) =>
      if initialCell (gs_initialBoardState s) row col then Done s
      else
        let board := st_board (gs_edit s) in
        let pencilMarks := st_pencilMarks (gs_edit s) in
        let saved := saveToHistory stringifyBoard stringifyMarks (gs_edit s)
                       board pencilMarks in
        if gs_isPencilMode s then
          match togglePencilMark pencilMarks row col num with
          | TypeError => Raised (withEdit saved s)
          | Ok newPencilMarks =>
              Done (withEdit (setBoardAndMarks (st_board saved) newPencilMarks saved) s)
          end
        else
          match pencilMarks !! row, board !! row with
          | Some marksRow, Some cells =>
              let hintStep :=
                match sol_steps (getHint (to1D board)) with
                | Some (hintStep :: _) => Some hintStep
                | _ => None
                end in
              let v := if strict_eq_num (cells !! col) num then Null else Num num in
              let write (score : Z) (achievements : list Achievement) :=
                match assignAt cells col v, assignAt marksRow col [] with
                | Some cells', Some marksRow' =>
                    Done (mkGame
                            (setBoardAndMarks (<[row := cells']> board)
                               (<[row := marksRow']> pencilMarks) saved)
                            (gs_isPencilMode s) (gs_initialBoardState s)
                            (gs_selectedCell s) score achievements)
                | _, _ => Sparse
                end in
              match hintStep with
              | None => write (gs_score s) (gs_achievements s)
              | Some hintStep =>
                  match step_updates hintStep with
                  | [] => Raised (withEdit saved s)
                  | update :: _ =>
                      if bool_decide (upd_index update = row * 9 + col) &&
                         bool_decide (upd_filledValue update = num)
                      then write (awardPoints (step_strategy hintStep) (gs_score s))
                             (checkAchievement (step_strategy hintStep +:+ "-master")
                                (gs_achievements s))
                      else write (gs_score s) (gs_achievements s)
                  end
              end
          | _, _ => Raised (withEdit saved s)
          end
  end.

(** [handleKeyDown]. *)
Definition handleKeyDown (e : KeyboardEvent) (s : GameState) : handled GameState :=
  let key := ev_key e in
  let board := st_board (gs_edit s) in
  let pencilMarks := st_pencilMarks (gs_edit s) in
  match digitKey key, gs_selectedCell s with
  | Some num, Some (row, col) =>
      if gs_isPencilMode s then
        match togglePencilMark pencilMarks row col num with
        | TypeError => Raised s
        | Ok newPencilMarks =>
            Done (withEdit (setBoardAndMarks board newPencilMarks (gs_edit s)) s)
        end
      else
        match board !! row, pencilMarks !! row with
        | Some cells, Some marksRow =>
            match assignAt cells col (Num num), assignAt marksRow col [] with
            | Some cells', Some marksRow' =>
                Done (withEdit
                        (setBoardAndMarks (<[row := cells']> board)
                           (<[row := marksRow']> pencilMarks) (gs_edit s)) s)
            | _, _ => Sparse
            end
        | _, _ => Raised s
        end
  | _, selectedCell =>
      match selectedCell with
      | Some (row, col) =>
          if bool_decide (key = "Backspace") || bool_decide (key = "Delete")
          then Done (handleClearCell s)
          else if bool_decide (key = "ArrowUp") then
            Done (if decide (0 < row) then setSelectedCell (row - 1, col) s else s)
          else if bool_decide (key = "ArrowDown") then
            Done (if decide (row < 8) then setSelectedCell (row + 1, col) s else s)
          else if bool_decide (key = "ArrowLeft") then
            Done (if decide (0 < col) then setSelectedCell (row, col - 1) s else s)
          else if bool_decide (key = "ArrowRight") then
            Done (if decide (col < 8) then setSelectedCell (row, col + 1) s else s)
          else otherKey e s
      | None => otherKey e s
      end
  end.
(** What a player can do to a puzzle short of typing a digit: click a cell
    on display, press a number button, Clear or the pencil button, and press
    a key that is no digit. *)
Inductive gameStep : GameState → GameState → Prop :=
  | game_cell s row col :
      is_Some (cell (st_board (gs_edit s)) (row, col)) →
      gameStep s (handleCellClick row col s)
  | game_number s num s' :
      (1 ≤ num ≤ 9)%Z → handleNumberClick num s = Done s' → gameStep s s'
  | game_clear s : gameStep s (handleClearCell s)
  | game_pencil s : gameStep s (togglePencilMode s)
  | game_key s e s' :
      digitKey (ev_key e) = None → handleKeyDown e s = Done s' → gameStep s s'.
End game_handlers.

(** Nine rows of nine lists of pencil marks. *)
Definition marks9x9 (pencilMarks : list (list PencilMarks)) : Prop :=
  length pencilMarks = 9 ∧ Forall (λ r, length r = 9) pencilMarks.

(** What the states of a game on the puzzle [newBoard] have in common,
    the givens apart. *)
Definition gameShape (newBoard : BoardType) (s : GameState) : Prop :=
  board9x9 (st_board (gs_edit s)) ∧
  marks9x9 (st_pencilMarks (gs_edit s)) ∧
  gs_initialBoardState s = initialCells newBoard ∧
  (∀ p, gs_selectedCell s = Some p → onBoard p) ∧
  st_history (gs_edit s) = [] ∧ st_historyIndex (gs_edit s) = (-1)%Z ∧
  st_future (gs_edit s) = [].

(** The texts of the example sessions: a board or the marks themselves. *)
Definition sampleText : Type := BoardType + list (list PencilMarks).

#[global] Instance sampleText_eq_dec : EqDecision sampleText.
Proof. solve_decision. Defined.

(** A library that has no hint to give. *)
Definition noHint (board1D : SudokuBoard) : Solution := mkSolution false None.

(** The sample puzzle as a game, with the given 5 at (0,0) selected: the
    state two presses of ArrowLeft lead to after a click on the empty cell
    (0,2). *)
Definition givenSelected : GameState :=
  mkGame (resetEdit exampleBoard) false (initialCells exampleBoard) (Some (0, 0)) 0
    ALL_ACHIEVEMENTS.

(** ** The game component: the learning mode *)

(** The state variables of the step display. *)
Record LearnState : Type := mkLearn {
  ls_board : BoardType;
  ls_solutionSteps : list SolutionStep;
  ls_currentStepIndex : Z;
  ls_isStepMode : bool;
  ls_isSolving : bool;
  ls_score : Z
}.

(** The effect that follows a change of [currentStepIndex] or
    [solutionSteps]: the board of the current step, if there is one, is put
    on display. *)
Definition showCurrentStep (s : LearnState) : LearnState :=
  if decide (0 ≤ ls_currentStepIndex s)%Z then
    match ls_solutionSteps s !! Z.to_nat (ls_currentStepIndex s) with
    | Some currentStep =>
        mkLearn (ss_board currentStep) (ls_solutionSteps s) (ls_currentStepIndex s)
          (ls_isStepMode s) (ls_isSolving s) (ls_score s)
    | None => s
    end
  else s.

(** [handleShowMeHow], for the external [solve] given as [solver], with the
    effect that follows it.  A throw of [generateSolutionSteps] comes after
    [setIsSolving(true)]. *)
Definition handleShowMeHow (solver : SudokuBoard → Solution) (s : LearnState)
    : handled LearnState :=
  if ls_isSolving s then Done s
  else
    match generateSolutionSteps solver (ls_board s) with
    | TypeError =>
        Raised (mkLearn (ls_board s) (ls_solutionSteps s) (ls_currentStepIndex s)
                  (ls_isStepMode s) true (ls_score s))
    | Ok [] =>
        Done (mkLearn (ls_board s) (ls_solutionSteps s) (ls_currentStepIndex s)
                (ls_isStepMode s) false (ls_score s))
    | Ok steps =>
        Done (showCurrentStep
                (mkLearn (ls_board s) steps 0 true false (ls_score s + 25)))
    end.

(** [handlePreviousStep] and [handleNextStep], each with the effect that
    follows it. *)
Definition handlePreviousStep (s : LearnState) : LearnState :=
  if decide (0 < ls_currentStepIndex s)%Z then
    showCurrentStep
      (mkLearn (ls_board s) (ls_solutionSteps s) (ls_currentStepIndex s - 1)
         (ls_isStepMode s) (ls_isSolving s) (ls_score s))
  else s.

Definition handleNextStep (s : LearnState) : LearnState :=
  if decide (ls_currentStepIndex s < Z.of_nat (length (ls_solutionSteps s)) - 1)%Z then
    showCurrentStep
      (mkLearn (ls_board s) (ls_solutionSteps s) (ls_currentStepIndex s + 1)
         (ls_isStepMode s) (ls_isSolving s) (ls_score s))
  else s.

(** [handleExitStepMode]: [resetBoard] puts the board the generator returns
    on display. *)
Definition handleExitStepMode (generated : SudokuBoard) (s : LearnState) : LearnState :=
  mkLearn (to2D generated) [] (-1) false (ls_isSolving s) 0.

(** Navigation in the learning mode. *)
Inductive learnStep : LearnState → LearnState → Prop :=
  | learn_previous s : learnStep s (handlePreviousStep s)
  | learn_next s : learnStep s (handleNextStep s).

(** The state [handleShowMeHow] is called in on [nearlySolvedBoard]. *)
Definition sampleLearn : LearnState := mkLearn nearlySolvedBoard [] (-1) false false 0.

(** Pencil marks in ascending order without repetition. *)
Definition ascending (marks : PencilMarks) : Prop :=
  StronglySorted Z.le marks ∧ NoDup marks.

(** The game in pencil mode, with the empty cell (0,2) of the sample
    puzzle selected. *)
Definition pencilState : GameState :=
  mkGame (resetEdit exampleBoard) true (initialCells exampleBoard) (Some (0, 2)) 0
    ALL_ACHIEVEMENTS.

(** ** Cells and units *)

Lemma elem_of_rowCells row p : p ∈ rowCells row ↔ p.1 = row ∧ p.2 < 9.
Proof.
  unfold rowCells. rewrite list_elem_of_fmap. split.
  - intros (x & -> & Hx). apply elem_of_seq in Hx. simpl. lia.
  - intros [<- Hlt]. exists p.2. split; [by destruct p|]. apply elem_of_seq. lia.
Qed.

Lemma elem_of_colCells col p : p ∈ colCells col ↔ p.2 = col ∧ p.1 < 9.
Proof.
  unfold colCells. rewrite list_elem_of_fmap. split.
  - intros (x & -> & Hx). apply elem_of_seq in Hx. simpl. lia.
  - intros [<- Hlt]. exists p.1. split; [by destruct p|]. apply elem_of_seq. lia.
Qed.

Lemma elem_of_grid a b n m (p : position) :
  p ∈ (i ← seq a n; (λ j, (i, j)) <$> seq b m) ↔
  (a ≤ p.1 < a + n) ∧ (b ≤ p.2 < b + m).
Proof.
  rewrite list_elem_of_bind. split.
  - intros (i & Hp & Hi). apply list_elem_of_fmap in Hp as (j & -> & Hj).
    apply elem_of_seq in Hi, Hj. simpl. lia.
  - intros [H1 H2]. exists p.1. split; [|apply elem_of_seq; lia].
    apply list_elem_of_fmap. exists p.2. split; [by destruct p|].
    apply elem_of_seq. lia.
Qed.

Lemma elem_of_positions p : p ∈ positions ↔ onBoard p.
Proof. unfold positions, onBoard. rewrite elem_of_grid. lia. Qed.

Lemma div3_spec n k : n / 3 = k ↔ k * 3 ≤ n < k * 3 + 3.
Proof.
  pose proof (Nat.div_mod_eq n 3). pose proof (Nat.mod_upper_bound n 3).
  split; [intros <-; lia|].
  intros ?. symmetry. apply (Nat.div_unique n 3 k (n - k * 3)); lia.
Qed.

Lemma elem_of_boxUnit boxRow boxCol p :
  p ∈ boxUnit boxRow boxCol ↔ p.1 / 3 = boxRow ∧ p.2 / 3 = boxCol.
Proof. unfold boxUnit. rewrite elem_of_grid, !div3_spec. lia. Qed.

Lemma elem_of_boxCells row col p :
  p ∈ boxCells row col ↔ p.1 / 3 = row / 3 ∧ p.2 / 3 = col / 3.
Proof.
  unfold boxCells. rewrite list_elem_of_bind, !div3_spec. split.
  - intros (i & Hp & Hi). apply list_elem_of_fmap in Hp as (j & -> & Hj).
    apply elem_of_seq in Hi, Hj. simpl. lia.
  - intros [H1 H2]. exists (p.1 - row / 3 * 3). split; [|apply elem_of_seq; lia].
    apply list_elem_of_fmap. exists (p.2 - col / 3 * 3).
    split; [|apply elem_of_seq; lia].
    destruct p as [a b]; simpl in *. f_equal; lia.
Qed.

Lemma sharesUnit_sym p q : sharesUnit p q → sharesUnit q p.
Proof. unfold sharesUnit. intuition congruence. Qed.

Lemma div3_lt9 n m : n / 3 = m / 3 → m < 9 → n < 9.
Proof.
  intros Hd Hm. apply div3_spec in Hd.
  assert (m / 3 < 3) by (apply Nat.Div0.div_lt_upper_bound; lia). lia.
Qed.

(** The three loops of [isValid] visit exactly the cells sharing a unit
    with the target cell. *)
Lemma elem_of_isValid_cells row col p :
  row < 9 → col < 9 →
  p ∈ rowCells row ++ colCells col ++ boxCells row col ↔
  onBoard p ∧ sharesUnit (row, col) p.
Proof.
  intros Hr Hc. rewrite !elem_of_app, elem_of_rowCells, elem_of_colCells,
    elem_of_boxCells. unfold onBoard, sharesUnit; simpl. split.
  - intros [[-> ?]|[[-> ?]|[H1 H2]]]; try (split; [lia|auto]).
    split; [|auto]. split; eapply div3_lt9; eauto.
  - intros [[? ?] [->|[->|[H1 H2]]]]; auto.
Qed.

(** The units of [checkSolution]: the nine rows, columns and boxes. *)
Lemma units_spec u :
  u ∈ units ↔
  (∃ r, r < 9 ∧ u = rowCells r) ∨ (∃ c, c < 9 ∧ u = colCells c) ∨
  (∃ boxRow boxCol, boxRow < 3 ∧ boxCol < 3 ∧ u = boxUnit boxRow boxCol).
Proof.
  unfold units. rewrite !elem_of_app, !list_elem_of_fmap, list_elem_of_bind.
  setoid_rewrite list_elem_of_fmap. setoid_rewrite elem_of_seq.
  split.
  - intros [(r & -> & ?)|[(c & -> & ?)|(br & (bc & -> & ?) & ?)]].
    + left. exists r. split; [lia|done].
    + right; left. exists c. split; [lia|done].
    + right; right. exists br, bc. repeat split; lia.
  - intros [(r & ? & ->)|[(c & ? & ->)|(br & bc & ? & ? & ->)]].
    + left. exists r. split; [done|lia].
    + right; left. exists c. split; [done|lia].
    + right; right. exists br. split; [|lia]. exists bc. split; [done|lia].
Qed.

(** ** Reads on a 9×9 board *)

Lemma read_cell board row col :
  row < length board → read board row col = Ok (cell board (row, col)).
Proof.
  intros Hlt. unfold read, cell; simpl.
  destruct (lookup_lt_is_Some_2 board row Hlt) as [cells ->]. done.
Qed.

Lemma read_TypeError board row col :
  length board ≤ row → read board row col = TypeError.
Proof. intros Hge. unfold read. by rewrite (lookup_ge_None_2 board row Hge). Qed.

Lemma cell_is_Some board p :
  board9x9 board → onBoard p → is_Some (cell board p).
Proof.
  intros [Hlen Hrows] [Hr Hc]. unfold cell.
  destruct (lookup_lt_is_Some_2 board p.1) as [cells Hcells]; [lia|].
  rewrite Hcells; simpl. apply lookup_lt_is_Some_2.
  rewrite Forall_lookup in Hrows. rewrite (Hrows _ _ Hcells). done.
Qed.

Lemma cell_Some_onBoard board p x :
  board9x9 board → cell board p = Some x → onBoard p.
Proof.
  intros [Hlen Hrows] Hcell. unfold cell in Hcell.
  destruct (board !! p.1) as [cells|] eqn:Hcells; [|done]. simpl in Hcell.
  apply lookup_lt_Some in Hcell. pose proof (lookup_lt_Some _ _ _ Hcells).
  rewrite Forall_lookup in Hrows. rewrite (Hrows _ _ Hcells) in Hcell.
  split; lia.
Qed.

(** ** The validator *)

Lemma scan_spec board num ps :
  Forall (λ p, p.1 < length board) ps →
  ∃ clear, scan board num ps = Ok clear ∧
    (clear = false ↔ ∃ p, p ∈ ps ∧ cell board p = Some (Num num)).
Proof.
  induction 1 as [|[r c] ps Hr _ IH]; simpl.
  - exists true. split; [done|]. split; [done|]. intros (p & Hp & _).
    by apply elem_of_nil in Hp.
  - simpl in Hr. rewrite read_cell by done.
    destruct (strict_eq_num (cell board (r, c)) num) eqn:Heq.
    + exists false. split; [done|]. split; [|done]. intros _.
      exists (r, c). split; [left|]. unfold strict_eq_num in Heq.
      destruct (cell board (r, c)) as [[|n]|]; try done.
      apply bool_decide_eq_true in Heq. by subst.
    + destruct IH as (clear & -> & IH). exists clear. split; [done|].
      rewrite IH. split.
      * intros (p & Hp & Hc). exists p. split; [by right|done].
      * intros (p & Hp & Hc). apply elem_of_cons in Hp as [->|Hp]; [|eauto].
        rewrite Hc in Heq. simpl in Heq.
        by rewrite bool_decide_eq_false in Heq.
Qed.

Lemma scan_app board num ps qs :
  scan board num (ps ++ qs) = and_then (scan board num ps) (scan board num qs).
Proof.
  induction ps as [|[r c] ps IH]; simpl; [done|].
  destruct (read board r c) as [x|]; [|done].
  by destruct (strict_eq_num x num).
Qed.

Lemma isValid_scan board row col num :
  isValid board row col num =
  scan board num (rowCells row ++ colCells col ++ boxCells row col).
Proof. unfold isValid. by rewrite !scan_app. Qed.

Lemma isValid_spec board row col num :
  board9x9 board → row < 9 → col < 9 →
  ∃ ok, isValid board row col num = Ok ok ∧
    (ok = false ↔ occursInUnits board row col num).
Proof.
  intros Hb Hr Hc. rewrite isValid_scan.
  destruct (scan_spec board num (rowCells row ++ colCells col ++ boxCells row col))
    as (ok & Hscan & Hok).
  - apply Forall_forall. intros p Hp.
    apply elem_of_isValid_cells in Hp as [[? ?] _]; [|done..].
    destruct Hb as [-> _]. done.
  - exists ok. split; [done|]. rewrite Hok. unfold occursInUnits.
    split; intros (p & Hp & Hcell); exists p.
    + apply elem_of_isValid_cells in Hp; [tauto|done..].
    + split; [|tauto]. apply elem_of_isValid_cells; tauto.
Qed.

(** ** Writing a cell *)

Lemma cell_place_eq board row col v :
  is_Some (cell board (row, col)) → cell (place board row col v) (row, col) = Some v.
Proof.
  unfold cell, place; simpl. intros [x Hx].
  rewrite list_lookup_alter_eq.
  destruct (board !! row) as [cells|]; [|done]. simpl in *.
  apply list_lookup_insert_eq. by eapply lookup_lt_Some.
Qed.

Lemma cell_place_ne board row col v p :
  p ≠ (row, col) → cell (place board row col v) p = cell board p.
Proof.
  unfold cell, place. destruct p as [r c]; simpl. intros Hne.
  destruct (decide (row = r)) as [->|Hr].
  - rewrite list_lookup_alter_eq. destruct (board !! r) as [cells|]; [|done].
    simpl. apply list_lookup_insert_ne. congruence.
  - by rewrite list_lookup_alter_ne.
Qed.

Lemma place_board9x9 board row col v :
  board9x9 board → board9x9 (place board row col v).
Proof.
  intros [Hlen Hrows]. split; unfold place.
  - by rewrite length_alter.
  - apply Forall_alter; [done|]. intros cells Hcells _.
    rewrite length_insert. by eapply Forall_lookup_1 in Hrows.
Qed.

Lemma place_wf board row col v :
  wf_board board → cell_ok v → wf_board (place board row col v).
Proof.
  intros [Hshape Hcells] Hv. split; [by apply place_board9x9|].
  unfold place. apply Forall_alter; [done|]. intros cells Hin _.
  apply Forall_insert; [|done]. by eapply Forall_lookup_1 in Hcells.
Qed.

(** Clearing a cell just written on an empty cell restores the board: this
    is the backtracking step. *)
Lemma place_clear board row col v :
  cell board (row, col) = Some Null →
  place (place board row col v) row col Null = board.
Proof.
  unfold cell, place; simpl. intros Hcell.
  rewrite list_alter_alter_eq. apply list_eq. intros i.
  destruct (decide (row = i)) as [->|Hne]; [|by rewrite list_lookup_alter_ne].
  rewrite list_lookup_alter_eq. destruct (board !! i) as [cells|]; [|done].
  simpl in *. f_equal. rewrite list_insert_insert_eq.
  by apply list_insert_id.
Qed.

Lemma wf_cell_ok board p v :
  wf_board board → cell board p = Some v → cell_ok v.
Proof.
  intros [_ Hcells] Hcell. unfold cell in Hcell.
  destruct (board !! p.1) as [cells|] eqn:Hrow; [|done]. simpl in Hcell.
  eapply Forall_lookup_1 in Hcells; [|done]. by eapply Forall_lookup_1 in Hcells.
Qed.

(** ** Counting the empty cells *)

Lemma emptyCount_cons cells board :
  emptyCount (cells :: board) =
  length (filter (λ x, x = Null) cells) + emptyCount board.
Proof. unfold emptyCount. simpl. by rewrite filter_app, length_app. Qed.

Lemma filter_Null_insert (cells : list CellValue) col n :
  cells !! col = Some Null →
  S (length (filter (λ x, x = Null) (<[col := Num n]> cells))) =
  length (filter (λ x, x = Null) cells).
Proof.
  revert col. induction cells as [|x cells IH]; intros [|col] Hcol; try done.
  - simpl in Hcol. injection Hcol as ->. cbn [insert list_insert].
    rewrite filter_cons_False by done. by rewrite filter_cons_True.
  - cbn [insert list_insert]. rewrite !filter_cons. destruct (decide (x = Null)); simpl;
      by rewrite <- (IH col Hcol).
Qed.

(** Filling an empty cell leaves one empty cell less. *)
Lemma emptyCount_place board row col n :
  cell board (row, col) = Some Null →
  S (emptyCount (place board row col (Num n))) = emptyCount board.
Proof.
  unfold cell, place; simpl. revert row.
  induction board as [|cells board IH]; intros [|row] Hcell; try done.
  - cbn [alter list_alter]. rewrite !emptyCount_cons.
    by rewrite <- (filter_Null_insert cells col n Hcell).
  - cbn [alter list_alter]. rewrite !emptyCount_cons. rewrite <- (IH row Hcell).
    unfold alter. lia.
Qed.

Lemma emptyCount_bound board : board9x9 board → emptyCount board ≤ 81.
Proof.
  intros [Hlen Hrows]. unfold emptyCount.
  etrans; [apply length_filter|].
  assert (length (concat board) = length board * 9) as ->; [|lia].
  clear Hlen. induction Hrows as [|cells board Hc _ IH]; [done|].
  simpl. rewrite length_app. lia.
Qed.

(** ** The search for the first empty cell *)

Lemma findEmpty_Some_cell board ps p :
  findEmpty board ps = Ok (Some p) → cell board p = Some Null.
Proof.
  induction ps as [|[r c] ps IH]; simpl; [done|].
  unfold read. destruct (board !! r) as [cells|] eqn:Hrow; [|done].
  destruct (cells !! c) as [[|n]|] eqn:Hcell; simpl; try done.
  intros [= <-]. unfold cell; simpl. by rewrite Hrow.
Qed.

Lemma findEmpty_spec board ps :
  Forall (λ p, p.1 < length board) ps →
  (findEmpty board ps = Ok None ∧ ∀ p, p ∈ ps → cell board p ≠ Some Null) ∨
  (∃ p, findEmpty board ps = Ok (Some p) ∧ p ∈ ps ∧ cell board p = Some Null).
Proof.
  induction 1 as [|[r c] ps Hr _ IH]; simpl.
  - left. split; [done|]. intros p Hp. by apply elem_of_nil in Hp.
  - simpl in Hr. rewrite read_cell by done.
    destruct (cell board (r, c)) as [[|n]|] eqn:Hcell; simpl.
    + right. exists (r, c). split; [done|]. split; [left|done].
    + destruct IH as [[-> IH]|(p & -> & Hp & Hnull)].
      * left. split; [done|]. intros p [->|Hp]%elem_of_cons; [congruence|eauto].
      * right. exists p. split; [done|]. split; [by right|done].
    + destruct IH as [[-> IH]|(p & -> & Hp & Hnull)].
      * left. split; [done|]. intros p [->|Hp]%elem_of_cons; [congruence|eauto].
      * right. exists p. split; [done|]. split; [by right|done].
Qed.

Lemma findEmpty_positions board :
  board9x9 board →
  (findEmpty board positions = Ok None ∧ complete board) ∨
  (∃ p, findEmpty board positions = Ok (Some p) ∧ onBoard p ∧
        cell board p = Some Null).
Proof.
  intros Hb. destruct (findEmpty_spec board positions) as [[Hf Hall]|(p & Hf & Hp & Hc)].
  - apply Forall_forall. intros p [? ?]%elem_of_positions.
    destruct Hb as [-> _]. done.
  - left. split; [done|]. intros p Hp. by apply Hall, elem_of_positions.
  - right. exists p. by rewrite <- elem_of_positions.
Qed.

(** ** Fuel: more never changes a result, [emptyCount] is enough *)

Lemma tryNums_mono rec rec' board row col nums x :
  (∀ b y, rec b = Some y → rec' b = Some y) →
  tryNums rec board row col nums = Some x →
  tryNums rec' board row col nums = Some x.
Proof.
  intros Hrec. revert x. induction nums as [|num nums IH]; intros x; simpl; [done|].
  destruct (isValid board row col num) as [[|]|]; [|by auto|tauto].
  destruct (rec _) as [[t [[|]|]]|] eqn:Hr; [| | |done];
    rewrite (Hrec _ _ Hr); [done| |done].
  destruct (tryNums rec board row col nums) as [[t' o]|]; [|done].
  intros <-. by rewrite (IH _ eq_refl).
Qed.

Lemma solve_S fuel board :
  solve (S fuel) board =
  match findEmpty board positions with
  | TypeError => Some ([Call board], Throw)
  | Ok None => Some ([Call board], Ret true)
  | Ok (Some (row, col)) =>
      match tryNums (solve fuel) board row col (seqZ 1 9) with
      | None => None
      | Some (t, o) => Some (Call board :: t, o)
      end
  end.
Proof. reflexivity. Qed.

Lemma solve_fuel_S fuel board x :
  solve fuel board = Some x → solve (S fuel) board = Some x.
Proof.
  revert board x. induction fuel as [|fuel IH]; intros board x; [done|].
  rewrite (solve_S (S fuel)), (solve_S fuel).
  destruct (findEmpty board positions) as [[[row col]|]|]; [|done..].
  destruct (tryNums (solve fuel) _ _ _ _) as [y|] eqn:Ht; [|done].
  by rewrite (tryNums_mono _ (solve (S fuel)) _ _ _ _ _ IH Ht).
Qed.

Lemma solve_fuel_mono fuel fuel' board x :
  fuel ≤ fuel' → solve fuel board = Some x → solve fuel' board = Some x.
Proof. induction 1; [done|]. intros. by apply solve_fuel_S, IHle. Qed.

Lemma isValid_9x9 board row col num :
  board9x9 board → onBoard (row, col) → ∃ ok, isValid board row col num = Ok ok.
Proof.
  intros Hb [Hr Hc]. destruct (isValid_spec board row col num) as (ok & ? & _); eauto.
Qed.

Lemma tryNums_total rec board row col nums :
  board9x9 board → onBoard (row, col) →
  (∀ n, ∃ t r, rec (place board row col (Num n)) = Some (t, Ret r)) →
  ∃ t r, tryNums rec board row col nums = Some (t, Ret r).
Proof.
  intros Hb Hp Hrec. induction nums as [|num nums (t' & r' & IH)]; simpl; [by eauto|].
  destruct (isValid_9x9 board row col num Hb Hp) as [[|] ->]; [|by eauto].
  destruct (Hrec num) as (t & [|] & ->); [by eauto|].
  rewrite IH. eauto.
Qed.

(** On a 9×9 board a run with more fuel than empty cells ends, and ends by
    returning. *)
Lemma solve_total fuel board :
  board9x9 board → emptyCount board < fuel →
  ∃ t r, solve fuel board = Some (t, Ret r).
Proof.
  revert board. induction fuel as [|fuel IH]; intros board Hb Hfuel; [lia|].
  rewrite solve_S. destruct (findEmpty_positions board Hb) as [[-> _]|([row col] & -> & Hp & Hnull)];
    [by eauto|].
  destruct (tryNums_total (solve fuel) board row col (seqZ 1 9) Hb Hp) as (t & r & ->);
    [|by eauto].
  intros n. apply IH; [by apply place_board9x9|].
  pose proof (emptyCount_place board row col n Hnull). lia.
Qed.

(** Whatever the shape of the board, the fuel of [solveSudoku] is enough for
    the run to end, by returning or by throwing. *)
Lemma tryNums_ends rec board row col nums :
  (∀ n, is_Some (rec (place board row col (Num n)))) →
  is_Some (tryNums rec board row col nums).
Proof.
  intros Hrec. induction nums as [|num nums [[t' o'] IH]]; simpl; [by eauto|].
  destruct (isValid board row col num) as [[|]|]; [|by eauto..].
  destruct (Hrec num) as [[t [[|]|]] ->]; [by eauto| |by eauto].
  rewrite IH. eauto.
Qed.

Lemma solve_ends fuel board : emptyCount board < fuel → is_Some (solve fuel board).
Proof.
  revert board. induction fuel as [|fuel IH]; intros board Hfuel; [lia|].
  rewrite solve_S.
  destruct (findEmpty board positions) as [[[row col]|]|] eqn:Hfind; [|by eauto..].
  apply findEmpty_Some_cell in Hfind.
  destruct (tryNums_ends (solve fuel) board row col (seqZ 1 9)) as [[t o] ->];
    [|by eauto].
  intros n. apply IH. pose proof (emptyCount_place board row col n Hfind). lia.
Qed.

Lemma solveSudoku_ends board : is_Some (solveSudoku board).
Proof. apply solve_ends. lia. Qed.

(** A board with too few rows makes the scan index [undefined]. *)
Example solveSudoku_no_rows : solveSudoku [] = Some ([Call []], Throw).
Proof. reflexivity. Qed.

Example isValid_short_board :
  isValid [[Null; Null; Null]] 0 0 1 = TypeError.
Proof. reflexivity. Qed.

Lemma solveSudoku_total board :
  board9x9 board → ∃ t r, solveSudoku board = Some (t, Ret r).
Proof. intros Hb. apply solve_total; [done|lia]. Qed.

Lemma solve_solveSudoku fuel board x :
  board9x9 board → solve fuel board = Some x → solveSudoku board = Some x.
Proof.
  intros Hb Hs. destruct (solveSudoku_total board Hb) as (t & r & Hrun).
  destruct (Nat.le_ge_cases fuel (S (emptyCount board))) as [Hle|Hge].
  - by apply (solve_fuel_mono fuel).
  - rewrite Hrun. by rewrite <- (solve_fuel_mono _ fuel _ _ Hge Hrun).
Qed.

(** ** Invariants of a run *)

Section trace_invariant.
Variable I : BoardType → Prop.
Hypothesis I_step : ∀ board row col n,
  board9x9 board → I board → onBoard (row, col) →
  cell board (row, col) = Some Null →
  isValid board row col n = Ok true → n ∈ seqZ 1 9 →
  I (place board row col (Num n)).

Lemma tryNums_invariant rec board row col nums t o :
  board9x9 board → I board → onBoard (row, col) →
  cell board (row, col) = Some Null →
  (∀ n, n ∈ nums → n ∈ seqZ 1 9) →
  (∀ b t o, board9x9 b → I b → rec b = Some (t, o) →
     Forall (λ e, I (event_board e)) t) →
  tryNums rec board row col nums = Some (t, o) →
  Forall (λ e, I (event_board e)) t.
Proof.
  intros Hb HI Hp Hnull Hnums Hrec. revert t o.
  induction nums as [|num nums IH]; intros t o; simpl.
  { intros [= <- <-]. constructor. }
  assert (∀ n, n ∈ nums → n ∈ seqZ 1 9) as Hnums' by (intros; apply Hnums; by right).
  destruct (isValid board row col num) as [[|]|] eqn:Hvalid;
    [|by eauto|intros [= <- <-]; constructor].
  assert (board9x9 (place board row col (Num num))) as Hb'
    by by apply place_board9x9.
  assert (I (place board row col (Num num))) as HI'.
  { apply I_step; auto. apply Hnums. left. }
  destruct (rec _) as [[t1 [[|]|]]|] eqn:Hr; [| | |done].
  - intros [= <- <-]. constructor; [done|]. eauto.
  - destruct (tryNums rec board row col nums) as [[t2 o2]|]; [|done].
    intros [= <- <-]. constructor; [done|]. apply Forall_app. split; [eauto|].
    constructor; [|eauto]. simpl. by rewrite place_clear.
  - intros [= <- <-]. constructor; [done|]. eauto.
Qed.

Lemma solve_invariant fuel board t o :
  board9x9 board → I board → solve fuel board = Some (t, o) →
  Forall (λ e, I (event_board e)) t.
Proof.
  revert board t o. induction fuel as [|fuel IH]; intros board t o Hb HI; [done|].
  rewrite solve_S.
  destruct (findEmpty_positions board Hb)
    as [[-> _]|([row col] & -> & Hp & Hnull)].
  { intros [= <- <-]. by repeat constructor. }
  destruct (tryNums _ _ _ _ _) as [[t' o']|] eqn:Htry; [|done].
  intros [= <- <-]. constructor; [done|].
  eapply tryNums_invariant; eauto.
Qed.
End trace_invariant.

(** A valid placement keeps the board free of duplicates. *)
Lemma noDuplicates_place board row col n :
  board9x9 board → noDuplicates board → onBoard (row, col) →
  isValid board row col n = Ok true →
  noDuplicates (place board row col (Num n)).
Proof.
  intros Hb Hnd [Hr Hc] Hvalid p q v Hp Hq Hne Hshare Hcp Hcq.
  destruct (isValid_spec board row col n Hb Hr Hc) as (ok & Hok & Hiff).
  rewrite Hvalid in Hok. injection Hok as <-.
  assert (¬ occursInUnits board row col n) as Hfree by (rewrite <- Hiff; done).
  assert (is_Some (cell board (row, col))) as Hsome
    by (by apply cell_is_Some).
  destruct (decide (p = (row, col))) as [->|Hp'];
    [|destruct (decide (q = (row, col))) as [->|Hq']].
  - rewrite cell_place_eq in Hcp by done. injection Hcp as <-.
    rewrite cell_place_ne in Hcq by done.
    apply Hfree. by exists q.
  - rewrite cell_place_eq in Hcq by done. injection Hcq as <-.
    rewrite cell_place_ne in Hcp by done.
    apply Hfree. exists p. split; [done|]. split; [by apply sharesUnit_sym|done].
  - rewrite cell_place_ne in Hcp, Hcq by done.
    by apply (Hnd p q v).
Qed.

Lemma extends_place board0 board row col v :
  extends board0 board → cell board (row, col) = Some Null →
  extends board0 (place board row col v).
Proof.
  intros Hext Hnull p w Hp. rewrite cell_place_ne; [by apply Hext|].
  intros ->. apply Hext in Hp. congruence.
Qed.

(** ** The board a successful run ends on *)

Lemma tryNums_true rec board row col nums t :
  tryNums rec board row col nums = Some (t, Ret true) →
  ∃ pre n t', t = pre ++ SetBoard (place board row col (Num n)) :: t' ∧
    rec (place board row col (Num n)) = Some (t', Ret true).
Proof.
  revert t. induction nums as [|num nums IH]; intros t; simpl; [done|].
  destruct (isValid board row col num) as [[|]|]; [|by auto|done].
  destruct (rec _) as [[t1 [[|]|]]|] eqn:Hr; [| |done..].
  - intros [= <-]. by exists [], num, t1.
  - destruct (tryNums rec board row col nums) as [[t2 o2]|]; [|done].
    intros [= <- ->]. destruct (IH _ eq_refl) as (pre & n & t' & -> & Hrec).
    exists (SetBoard (place board row col (Num num)) :: t1 ++
            SetBoard (place (place board row col (Num num)) row col Null) :: pre), n, t'.
    split; [|done]. simpl. by rewrite <- app_assoc.
Qed.

Lemma finalBoard_app_SetBoard board pre b t :
  finalBoard board (pre ++ SetBoard b :: t) = finalBoard b t.
Proof.
  unfold finalBoard, snapshots. rewrite omap_app. simpl.
  rewrite last_app_cons, last_cons. by destruct (last _).
Qed.

Lemma finalBoard_Call board b t : finalBoard board (Call b :: t) = finalBoard board t.
Proof. done. Qed.

Lemma solve_starts_with_Call fuel board t o :
  solve fuel board = Some (t, o) → ∃ t', t = Call board :: t'.
Proof.
  destruct fuel as [|fuel]; [done|]. rewrite solve_S.
  destruct (findEmpty board positions) as [[[row col]|]|]; try (intros [= <- <-]; by eauto).
  destruct (tryNums _ _ _ _ _) as [[t' o']|]; [|done]. intros [= <- <-]. eauto.
Qed.

Lemma finalBoard_in_trace board t :
  finalBoard board (Call board :: t) ∈ event_board <$> (Call board :: t).
Proof.
  rewrite finalBoard_Call. unfold finalBoard.
  destruct (last (snapshots t)) as [b|] eqn:Hlast; simpl; [|left].
  right. apply last_Some_elem_of in Hlast.
  apply list_elem_of_omap in Hlast as ([b'|b'] & Hin & Heq); [done|].
  injection Heq as ->. apply list_elem_of_fmap. by exists (SetBoard b).
Qed.

Lemma solve_true_complete fuel board t :
  board9x9 board → solve fuel board = Some (t, Ret true) →
  complete (finalBoard board t).
Proof.
  revert board t. induction fuel as [|fuel IH]; intros board t Hb; [done|].
  rewrite solve_S.
  destruct (findEmpty_positions board Hb)
    as [[-> Hcomplete]|([row col] & -> & Hp & Hnull)].
  { by intros [= <-]. }
  destruct (tryNums _ _ _ _ _) as [[t' o']|] eqn:Htry; [|done].
  intros [= <- ->]. apply tryNums_true in Htry as (pre & n & t1 & -> & Hrec).
  rewrite finalBoard_Call, finalBoard_app_SetBoard.
  apply IH; [by apply place_board9x9|done].
Qed.

(** ** Units: shape, and duplicates against permutations *)

Lemma units_shape :
  Forall (λ u, NoDup u ∧ length u = 9 ∧ Forall onBoard u ∧
               Forall (λ p, Forall (sharesUnit p) u) u) units.
Proof. apply (bool_decide_unpack _). vm_compute. exact I. Qed.

Lemma shares_common_unit p q :
  onBoard p → onBoard q → sharesUnit p q → ∃ u, u ∈ units ∧ p ∈ u ∧ q ∈ u.
Proof.
  intros [Hp1 Hp2] [Hq1 Hq2] [Hrow|[Hcol|[Hb1 Hb2]]].
  - exists (rowCells p.1). rewrite units_spec, !elem_of_rowCells. eauto 10.
  - exists (colCells p.2). rewrite units_spec, !elem_of_colCells. eauto 10.
  - exists (boxUnit (p.1 / 3) (p.2 / 3)). rewrite units_spec, !elem_of_boxUnit.
    split; [|done]. right; right. exists (p.1 / 3), (p.2 / 3).
    split; [|split; [|done]]; apply Nat.Div0.div_lt_upper_bound; lia.
Qed.

Lemma onBoard_in_unit p : onBoard p → ∃ u, u ∈ units ∧ p ∈ u.
Proof.
  intros Hp. destruct (shares_common_unit p p Hp Hp) as (u & ? & ? & _); [by left|eauto].
Qed.

Lemma NoDup_fmap_elem_inj {A B} (f : A → B) (l : list A) x y :
  NoDup (f <$> l) → x ∈ l → y ∈ l → f x = f y → x = y.
Proof.
  induction l as [|a l IH]; simpl; [by intros _ ?%elem_of_nil|].
  rewrite NoDup_cons, !elem_of_cons. intros [Ha Hnd] [->|Hx] [->|Hy] Heq; auto.
  - destruct Ha. rewrite Heq. by apply list_elem_of_fmap_2.
  - destruct Ha. rewrite <- Heq. by apply list_elem_of_fmap_2.
Qed.

Lemma filled_values_NoDup : NoDup ((λ n, Some (Num n)) <$> seqZ 1 9).
Proof. apply NoDup_fmap_2; [intros ?? [=]; done|apply NoDup_seqZ]. Qed.

Lemma allUnitsPermutation_cell full p :
  allUnitsPermutation full → onBoard p →
  ∃ n, cell full p = Some (Num n) ∧ n ∈ seqZ 1 9.
Proof.
  intros Hperm Hp. destruct (onBoard_in_unit p Hp) as (u & Hu & Hpu).
  assert (cell full p ∈ unitValues full u) as Hin by by apply list_elem_of_fmap_2.
  rewrite (Hperm u Hu) in Hin. apply list_elem_of_fmap in Hin as (n & ? & ?). eauto.
Qed.

Lemma allUnitsPermutation_complete full : allUnitsPermutation full → complete full.
Proof.
  intros Hperm p Hp. destruct (allUnitsPermutation_cell full p Hperm Hp) as (n & -> & _).
  done.
Qed.

Lemma allUnitsPermutation_noDuplicates full :
  allUnitsPermutation full → noDuplicates full.
Proof.
  intros Hperm p q v Hp Hq Hne Hshare Hcp Hcq. apply Hne.
  destruct (shares_common_unit p q Hp Hq Hshare) as (u & Hu & Hpu & Hqu).
  apply (NoDup_fmap_elem_inj (cell full) u); [|done|done|congruence].
  fold (unitValues full u). rewrite (Hperm u Hu). apply filled_values_NoDup.
Qed.

(** A full board of the data model without duplicates has a permutation of
    1..9 in every unit: nine distinct values among nine. *)
Lemma complete_noDuplicates_permutation full :
  wf_board full → complete full → noDuplicates full → allUnitsPermutation full.
Proof.
  intros Hwf Hcomplete Hnd u Hu.
  pose proof units_shape as Hshape. rewrite Forall_forall in Hshape.
  destruct (Hshape u Hu) as (Hnodup & Hlen & Hon & Hsh).
  rewrite Forall_forall in Hon. rewrite Forall_forall in Hsh.
  assert (∀ p, p ∈ u → ∃ n, cell full p = Some (Num n) ∧ n ∈ seqZ 1 9) as Hval.
  { intros p Hp. destruct (cell_is_Some full p) as [[|n] Hc]; [apply Hwf|by apply Hon| |].
    - by destruct (Hcomplete p (Hon p Hp)).
    - exists n. split; [done|]. apply elem_of_seqZ.
      pose proof (wf_cell_ok full p (Num n) Hwf Hc) as Hok. simpl in Hok. lia. }
  apply submseteq_length_Permutation.
  - apply NoDup_submseteq.
    + apply NoDup_fmap_2_strong; [|done]. intros p q Hp Hq Heq.
      destruct (decide (p = q)) as [|Hne]; [done|exfalso].
      destruct (Hval p Hp) as (n & Hcp & _).
      apply (Hnd p q n); auto; [|congruence].
      specialize (Hsh p Hp). rewrite Forall_forall in Hsh. auto.
    + intros x (p & -> & Hp)%list_elem_of_fmap.
      destruct (Hval p Hp) as (n & -> & Hn). apply list_elem_of_fmap. eauto.
  - unfold unitValues. rewrite !length_fmap, Hlen, length_seqZ. done.
Qed.

(** ** Completeness of the search *)

Lemma tryNums_false rec board row col nums t :
  tryNums rec board row col nums = Some (t, Ret false) →
  ∀ n, n ∈ nums →
    isValid board row col n = Ok false ∨
    ∃ t', rec (place board row col (Num n)) = Some (t', Ret false).
Proof.
  revert t. induction nums as [|num nums IH]; intros t; simpl.
  { intros _ n Hn. by apply elem_of_nil in Hn. }
  destruct (isValid board row col num) as [[|]|] eqn:Hvalid; [| |done].
  - destruct (rec _) as [[t1 [[|]|]]|] eqn:Hr; [done| |done..].
    destruct (tryNums rec board row col nums) as [[t2 o2]|]; [|done].
    intros [= <- ->] n [->|Hn]%elem_of_cons; [by eauto|]. by eapply IH.
  - intros Htry n [->|Hn]%elem_of_cons; [by left|]. by eapply IH.
Qed.

Lemma extends_place_completion board full row col n :
  extends board full → cell full (row, col) = Some (Num n) →
  is_Some (cell board (row, col)) →
  extends (place board row col (Num n)) full.
Proof.
  intros Hext Hfull Hsome p v. destruct (decide (p = (row, col))) as [->|Hne].
  - rewrite cell_place_eq by done. congruence.
  - rewrite cell_place_ne by done. apply Hext.
Qed.

(** A board with a valid completion is never given up on. *)
Lemma solve_complete fuel board full t :
  board9x9 board → validCompletion board full →
  solve fuel board = Some (t, Ret false) → False.
Proof.
  revert board t. induction fuel as [|fuel IH]; intros board t Hb Hfull; [done|].
  rewrite solve_S.
  destruct (findEmpty_positions board Hb)
    as [[-> _]|([row col] & -> & Hp & Hnull)]; [done|].
  destruct (tryNums _ _ _ _ _) as [[t' o']|] eqn:Htry; [|done].
  intros [= <- ->]. destruct Hfull as (Hwf & Hext & Hperm).
  destruct (allUnitsPermutation_cell full (row, col) Hperm Hp) as (n & Hn & Hrange).
  destruct (tryNums_false _ _ _ _ _ _ Htry n Hrange) as [Hinvalid|[t1 Hrec]].
  - destruct Hp as [Hr Hc].
    destruct (isValid_spec board row col n Hb Hr Hc) as (ok & Hok & Hiff).
    rewrite Hinvalid in Hok. injection Hok as <-.
    destruct Hiff as [(q & Hq & Hshare & Hcq) _]; [done|].
    apply (allUnitsPermutation_noDuplicates full Hperm (row, col) q n); auto.
    + by split.
    + intros <-. congruence.
  - apply (IH _ _ (place_board9x9 _ _ _ _ Hb)) in Hrec; [done|].
    split; [done|]. split; [|done].
    apply extends_place_completion; [done..|]. by rewrite Hnull.
Qed.

(** ** The conflict checker *)

Lemma addConflict_elem p q conflicts :
  q ∈ addConflict p conflicts ↔ q ∈ conflicts ∨ q = p.
Proof.
  unfold addConflict. destruct (decide (p ∈ conflicts)).
  - split; [by left|]. by intros [?| ->].
  - rewrite elem_of_app, list_elem_of_singleton. done.
Qed.

Lemma addConflict_NoDup p conflicts : NoDup conflicts → NoDup (addConflict p conflicts).
Proof.
  unfold addConflict. destruct (decide (p ∈ conflicts)); [done|].
  intros Hnd. apply NoDup_app. split; [done|]. split; [|apply NoDup_singleton].
  intros x Hx ->%list_elem_of_singleton. done.
Qed.

Lemma strict_eq_num_true x v : strict_eq_num x v = true ↔ x = Some (Num v).
Proof.
  destruct x as [[|n]|]; simpl; try (split; done).
  rewrite bool_decide_eq_true. split; [by intros ->|by intros [= ->]].
Qed.

Lemma markAll_spec board value unit conflicts :
  Forall (λ p, p.1 < length board) unit →
  ∃ conflicts', markAll board value unit conflicts = Ok conflicts' ∧
    (∀ p, p ∈ conflicts' ↔
          p ∈ conflicts ∨ (p ∈ unit ∧ cell board p = Some (Num value))) ∧
    (NoDup conflicts → NoDup conflicts').
Proof.
  intros Hunit. revert conflicts.
  induction Hunit as [|[r c] unit Hr _ IH]; intros conflicts; simpl.
  - exists conflicts. split; [done|]. split; [|done]. intros p.
    rewrite elem_of_nil. tauto.
  - simpl in Hr. rewrite read_cell by done.
    destruct (IH (if strict_eq_num (cell board (r, c)) value
                  then addConflict (r, c) conflicts else conflicts))
      as (conflicts' & -> & Hiff & Hnd).
    exists conflicts'. split; [done|]. split.
    + intros p. rewrite Hiff, elem_of_cons.
      destruct (strict_eq_num _ _) eqn:Heq.
      * apply strict_eq_num_true in Heq. rewrite addConflict_elem.
        split; [|naive_solver]. intros [[?| ->]|?]; naive_solver.
      * assert (cell board (r, c) ≠ Some (Num value)) as Hne.
        { intros Hc%strict_eq_num_true. congruence. }
        naive_solver.
    + intros Hc. apply Hnd. destruct (strict_eq_num _ _); [|done].
      by apply addConflict_NoDup.
Qed.

Lemma seenTwice_nil board seen v : ¬ seenTwice board [] seen v.
Proof. intros (l1 & q & l2 & Heq & _). by destruct l1. Qed.

Lemma seenTwice_cons board q0 todo seen v :
  seenTwice board (q0 :: todo) seen v ↔
  (cell board q0 = Some (Num v) ∧ v ∈ seen) ∨
  (∃ l1 q l2, todo = l1 ++ q :: l2 ∧ cell board q = Some (Num v) ∧
     (v ∈ seen ∨ cell board q0 = Some (Num v) ∨
      ∃ q', q' ∈ l1 ∧ cell board q' = Some (Num v))).
Proof.
  unfold seenTwice. split.
  - intros ([|q1 l1] & q & l2 & Heq & Hq & Hsrc); simplify_eq/=.
    + left. split; [done|]. destruct Hsrc as [?|(q' & []%elem_of_nil & _)]. done.
    + right. exists l1, q, l2. split; [done|]. split; [done|].
      destruct Hsrc as [?|(q' & [->|?]%elem_of_cons & ?)]; eauto.
  - intros [[Hq0 Hseen]|(l1 & q & l2 & -> & Hq & Hsrc)].
    + exists [], q0, todo. eauto.
    + exists (q0 :: l1), q, l2. split; [done|]. split; [done|].
      destruct Hsrc as [?|[?|(q' & ? & ?)]]; [by left|right..].
      * exists q0. split; [left|done].
      * exists q'. split; [by right|done].
Qed.

Lemma seenTwice_skip board q0 todo seen v :
  cell board q0 ≠ Some (Num v) →
  seenTwice board (q0 :: todo) seen v ↔ seenTwice board todo seen v.
Proof. intros Hne. rewrite seenTwice_cons. unfold seenTwice. naive_solver. Qed.

Lemma seenTwice_add board q0 todo seen v w :
  cell board q0 = Some (Num w) →
  seenTwice board (q0 :: todo) seen v ↔
  (w = v ∧ v ∈ seen) ∨ seenTwice board todo (w :: seen) v.
Proof.
  intros Hq0. rewrite seenTwice_cons. unfold seenTwice.
  setoid_rewrite elem_of_cons. rewrite Hq0. split.
  - intros [[[= ->] ?]|(l1 & q & l2 & -> & Hq & [?|[[= ->]|?]])]; eauto 10.
  - intros [[-> ?]|(l1 & q & l2 & -> & Hq & [[->|?]|?])]; eauto 10.
Qed.

Lemma falsy_false x : falsy x = false ↔ ∃ n, x = Some (Num n) ∧ n ≠ 0%Z.
Proof.
  destruct x as [[|n]|]; simpl; try (split; [done|by intros (? & ? & ?)]).
  rewrite bool_decide_eq_false. split; [by eauto|]. by intros (? & [= <-] & ?).
Qed.

Lemma checkUnit_spec board unit todo seen conflicts :
  Forall (λ p, p.1 < length board) unit →
  Forall (λ p, p.1 < length board) todo →
  ∃ conflicts', checkUnit board unit todo seen conflicts = Ok conflicts' ∧
    (∀ p, p ∈ conflicts' ↔
          p ∈ conflicts ∨
          (p ∈ unit ∧ ∃ v, v ≠ 0%Z ∧ cell board p = Some (Num v) ∧
                           seenTwice board todo seen v)) ∧
    (NoDup conflicts → NoDup conflicts').
Proof.
  intros Hunit Htodo. revert seen conflicts.
  induction Htodo as [|[r c] todo Hr _ IH]; intros seen conflicts; simpl.
  - exists conflicts. split; [done|]. split; [|done]. intros p. split; [by left|].
    intros [?|(_ & v & _ & _ & []%seenTwice_nil)]. done.
  - simpl in Hr. rewrite read_cell by done.
    destruct (falsy (cell board (r, c))) eqn:Hfalsy.
    + destruct (IH seen conflicts) as (conflicts' & -> & Hiff & Hnd).
      exists conflicts'. split; [done|]. split; [|done]. intros p. rewrite Hiff.
      assert (∀ v, v ≠ 0%Z → cell board (r, c) ≠ Some (Num v)) as Hne.
      { intros v Hv Hc. rewrite Hc in Hfalsy. simpl in Hfalsy.
        by apply bool_decide_eq_true in Hfalsy. }
      split; (intros [?|(Hp & v & Hv & Hc & Htw)]; [by left|right]);
        (split; [done|]; exists v; split; [done|]; split; [done|]).
      * by apply seenTwice_skip; auto.
      * by apply seenTwice_skip in Htw; auto.
    + apply falsy_false in Hfalsy as (w & Hw & Hw0). rewrite Hw.
      destruct (decide (w ∈ seen)) as [Hseen|Hseen].
      * destruct (markAll_spec board w unit conflicts Hunit)
          as (conflicts1 & -> & Hiff1 & Hnd1).
        destruct (IH (w :: seen) conflicts1) as (conflicts' & -> & Hiff & Hnd).
        exists conflicts'. split; [done|]. split; [|by auto]. intros p.
        rewrite Hiff, Hiff1. setoid_rewrite (seenTwice_add board (r, c) todo seen _ w Hw).
        naive_solver.
      * destruct (IH (w :: seen) conflicts) as (conflicts' & -> & Hiff & Hnd).
        exists conflicts'. split; [done|]. split; [|done]. intros p.
        rewrite Hiff. setoid_rewrite (seenTwice_add board (r, c) todo seen _ w Hw).
        naive_solver.
Qed.

Lemma seenTwice_unit board u v :
  NoDup u →
  seenTwice board u [] v ↔
  ∃ q q', q ∈ u ∧ q' ∈ u ∧ q ≠ q' ∧
    cell board q = Some (Num v) ∧ cell board q' = Some (Num v).
Proof.
  intros Hnd. split.
  - intros (l1 & q & l2 & -> & Hq & [[]%elem_of_nil|(q' & Hq' & Hcq')]).
    exists q, q'. rewrite !elem_of_app, !elem_of_cons.
    apply NoDup_app in Hnd as (_ & Hdisj & _).
    split; [by auto|]. split; [by auto|]. split; [|done].
    intros ->. apply (Hdisj q' Hq'). left.
  - intros (q & q' & Hq & Hq' & Hne & Hcq & Hcq').
    apply list_elem_of_split in Hq as (l1 & l2 & ->).
    apply elem_of_app in Hq' as [Hq'|[->|Hq']%elem_of_cons]; [|done|].
    + exists l1, q, l2. eauto 10.
    + apply list_elem_of_split in Hq' as (l3 & l4 & ->).
      exists (l1 ++ q :: l3), q', l4. split; [by rewrite <- app_assoc|].
      split; [done|]. right. exists q. split; [|done].
      rewrite elem_of_app, elem_of_cons. auto.
Qed.

Lemma checkUnits_spec board us conflicts :
  Forall (Forall (λ p, p.1 < length board)) us →
  ∃ conflicts', checkUnits board us conflicts = Ok conflicts' ∧
    (∀ p, p ∈ conflicts' ↔
          p ∈ conflicts ∨
          ∃ u, u ∈ us ∧ p ∈ u ∧
            ∃ v, v ≠ 0%Z ∧ cell board p = Some (Num v) ∧ seenTwice board u [] v) ∧
    (NoDup conflicts → NoDup conflicts').
Proof.
  intros Hus. revert conflicts.
  induction Hus as [|u us Hu _ IH]; intros conflicts; simpl.
  - exists conflicts. split; [done|]. split; [|done]. intros p. split; [by left|].
    intros [?|(u & []%elem_of_nil & _)]. done.
  - destruct (checkUnit_spec board u u [] conflicts Hu Hu)
      as (conflicts1 & -> & Hiff1 & Hnd1).
    destruct (IH conflicts1) as (conflicts' & -> & Hiff & Hnd).
    exists conflicts'. split; [done|]. split; [|by auto]. intros p.
    rewrite Hiff, Hiff1. setoid_rewrite elem_of_cons. naive_solver.
Qed.

Lemma units_in_range board :
  board9x9 board → Forall (Forall (λ p, p.1 < length board)) units.
Proof.
  intros [-> _]. eapply Forall_impl; [apply units_shape|].
  intros u (_ & _ & Hon & _). eapply Forall_impl; [apply Hon|].
  by intros p [? _].
Qed.

(** On a board of the data model, the cells a unit scan marks are the
    cells in conflict. *)
Lemma marked_inConflict board p :
  wf_board board →
  (∃ u, u ∈ units ∧ p ∈ u ∧
     ∃ v, v ≠ 0%Z ∧ cell board p = Some (Num v) ∧ seenTwice board u [] v) ↔
  inConflict board p.
Proof.
  intros Hwf. pose proof units_shape as Hshape. rewrite Forall_forall in Hshape.
  split.
  - intros (u & Hu & Hp & v & Hv & Hcp & Htw).
    destruct (Hshape u Hu) as (Hnd & _ & Hon & Hsh).
    rewrite Forall_forall in Hon. rewrite Forall_forall in Hsh.
    apply seenTwice_unit in Htw as (q & q' & Hq & Hq' & Hne & Hcq & Hcq'); [|done].
    specialize (Hsh p Hp). rewrite Forall_forall in Hsh.
    destruct (decide (q = p)) as [->|Hqp].
    + exists q', v. split; [by apply Hon|]. split; [by apply Hon|]. auto.
    + exists q, v. split; [by apply Hon|]. split; [by apply Hon|]. auto.
  - intros (q & v & Hp & Hq & Hne & Hshare & Hcp & Hcq).
    destruct (shares_common_unit p q Hp Hq Hshare) as (u & Hu & Hpu & Hqu).
    destruct (Hshape u Hu) as (Hnd & _).
    exists u. split; [done|]. split; [done|]. exists v. split.
    { pose proof (wf_cell_ok board p (Num v) Hwf Hcp) as Hok. simpl in Hok. lia. }
    split; [done|]. apply seenTwice_unit; [done|]. exists p, q. auto.
Qed.

(** ** The completeness scan *)

Lemma rowHasFalsy_spec board row cols :
  row < length board →
  ∃ found, rowHasFalsy board row cols = Ok found ∧
    (found = false ↔ ∀ col, col ∈ cols → falsy (cell board (row, col)) = false).
Proof.
  intros Hrow. induction cols as [|col cols (found & IH & Hiff)]; simpl.
  - exists false. split; [done|]. split; [|done]. by intros _ col ?%elem_of_nil.
  - rewrite read_cell by done. destruct (falsy (cell board (row, col))) eqn:Hf.
    + exists true. split; [done|]. split; [done|]. intros Hall.
      rewrite Hall in Hf; [done|left].
    + exists found. split; [done|]. rewrite Hiff. setoid_rewrite elem_of_cons.
      naive_solver.
Qed.

Lemma completeLoop_spec board rows isComplete :
  Forall (λ row, row < length board) rows →
  ∃ r, completeLoop board rows isComplete = Ok r ∧
    (r = true ↔
     isComplete = true ∧
     ∀ row col, row ∈ rows → col ∈ seq 0 9 → falsy (cell board (row, col)) = false).
Proof.
  intros Hrows. revert isComplete.
  induction Hrows as [|row rows Hrow _ IH]; intros isComplete; cbn [completeLoop].
  - exists isComplete. split; [done|]. split; [|tauto]. intros ->. split; [done|].
    by intros row col ?%elem_of_nil.
  - destruct (rowHasFalsy_spec board row (seq 0 9) Hrow) as (found & -> & Hfound).
    destruct (IH (if found then false else isComplete)) as (r & -> & Hr).
    exists r. split; [done|]. rewrite Hr. clear Hr. destruct found.
    + split; [by intros [? _]|]. intros [_ Hall]. enough (true = false) by done.
      apply Hfound. intros col Hcol. apply Hall; [left|done].
    + destruct Hfound as [Hfound _]. specialize (Hfound eq_refl). split.
      * intros [-> Hall]. split; [done|].
        intros row' col [->|?]%elem_of_cons ?; auto.
      * intros [-> Hall]. split; [done|]. intros row' col ? ?.
        apply Hall; [by right|done].
Qed.

Lemma falsy_cell_wf board p :
  wf_board board → onBoard p →
  falsy (cell board p) = false ↔ cell board p ≠ Some Null.
Proof.
  intros Hwf Hp. destruct (cell_is_Some board p) as [[|n] Hc]; [apply Hwf|done| |];
    rewrite Hc; simpl; [done|].
  pose proof (wf_cell_ok board p (Num n) Hwf Hc) as Hok. simpl in Hok.
  rewrite bool_decide_eq_false. split; [done|lia].
Qed.

(** What [checkSolution] answers on a board of the data model. *)
Lemma checkSolution_spec board :
  wf_board board →
  ∃ res, checkSolution board = Ok res ∧
    (∀ p, p ∈ cr_conflicts res ↔ inConflict board p) ∧
    NoDup (cr_conflicts res) ∧
    (cr_isValid res = true ↔ complete board ∧ cr_conflicts res = []).
Proof.
  intros Hwf. unfold checkSolution. assert (board9x9 board) as Hb by apply Hwf.
  destruct (checkUnits_spec board units [] (units_in_range board Hb))
    as (conflicts & -> & Hiff & Hnd).
  destruct (completeLoop_spec board (seq 0 9) true) as (r & -> & Hr).
  { apply Forall_forall. intros row Hrow%elem_of_seq. destruct Hb as [-> _]. lia. }
  eexists. split; [done|]. simpl. split; [|split; [apply Hnd; constructor|]].
  - intros p. rewrite Hiff, elem_of_nil, marked_inConflict by done. tauto.
  - rewrite andb_true_iff, bool_decide_eq_true, length_zero_iff_nil, Hr.
    assert ((∀ row col, row ∈ seq 0 9 → col ∈ seq 0 9 →
              falsy (cell board (row, col)) = false) ↔ complete board) as ->; [|tauto].
    unfold complete. split.
    + intros Hall [row col] Hp. apply falsy_cell_wf; [done..|].
      destruct Hp. apply Hall; apply elem_of_seq; simpl in *; lia.
    + intros Hall row col Hrow%elem_of_seq Hcol%elem_of_seq.
      assert (onBoard (row, col)) as Hp by (split; simpl; lia).
      apply falsy_cell_wf; auto.
Qed.

(** ** Checking concrete boards *)

Lemma noDuplicatesCheck_correct board :
  noDuplicatesCheck board = true → noDuplicates board.
Proof.
  unfold noDuplicatesCheck. rewrite bool_decide_eq_true, Forall_forall.
  intros Hall p q v Hp%elem_of_positions Hq%elem_of_positions Hne Hshare Hcp Hcq.
  specialize (Hall p Hp). rewrite Forall_forall in Hall.
  destruct (Hall q Hq) as [?|[?|Hclash]]; [done..|].
  rewrite Hcp, Hcq in Hclash. simpl in Hclash.
  by apply bool_decide_eq_false in Hclash.
Qed.

Lemma completeCheck_correct board : completeCheck board = true → complete board.
Proof.
  unfold completeCheck. rewrite bool_decide_eq_true, Forall_forall.
  intros Hall p Hp%elem_of_positions. by apply Hall.
Qed.

Lemma inConflict_units board p :
  inConflict board p ↔ ∃ u, u ∈ units ∧ duplicatedInUnit board u p.
Proof.
  pose proof units_shape as Hshape. rewrite Forall_forall in Hshape. split.
  - intros (q & v & Hp & Hq & Hne & Hshare & Hcp & Hcq).
    destruct (shares_common_unit p q Hp Hq Hshare) as (u & Hu & Hpu & Hqu).
    exists u. split; [done|]. split; [done|]. exists q, v. auto.
  - intros (u & Hu & Hpu & q & v & Hqu & Hne & Hcp & Hcq).
    destruct (Hshape u Hu) as (_ & _ & Hon & Hsh).
    rewrite Forall_forall in Hon. rewrite Forall_forall in Hsh.
    specialize (Hsh p Hpu). rewrite Forall_forall in Hsh.
    exists q, v. split; [by apply Hon|]. split; [by apply Hon|]. auto.
Qed.

Lemma noDuplicates_no_conflict board p : noDuplicates board → ¬ inConflict board p.
Proof.
  intros Hnd (q & v & Hp & Hq & Hne & Hshare & Hcp & Hcq).
  by apply (Hnd p q v).
Qed.

Lemma cell_blank p x :
  cell (replicate 9 (replicate 9 Null)) p = Some x → x = Null.
Proof.
  unfold cell. destruct (replicate 9 (replicate 9 Null) !! p.1) as [cells|] eqn:Hrow;
    [|done].
  apply lookup_replicate in Hrow as [-> _]. intros Hx.
  change (replicate 9 Null !! p.2 = Some x) in Hx.
  by apply lookup_replicate in Hx as [-> _].
Qed.

(** ** The validator: what it answers *)

(** C3, amended.  On a 9×9 board and a cell (r,c) on it, [isValid] answers
    false exactly when [v] is held by some cell of row [r], of column [c]
    or of the box of (r,c), the cell (r,c) included, and true otherwise; when
    the cell (r,c) itself does not hold [v] (as at every call the solver
    makes, on an empty cell), that is the same as [v] being held elsewhere in
    these units. *)
Theorem isValid_scans_whole_units board r c v :
  board9x9 board → r < 9 → c < 9 →
  (isValid board r c v = Ok false ↔ occursInUnits board r c v) ∧
  (isValid board r c v = Ok true ↔ ¬ occursInUnits board r c v) ∧
  (cell board (r, c) ≠ Some (Num v) →
   (occursInUnits board r c v ↔ occursElsewhere board r c v)).
Proof.
  intros Hb Hr Hc. destruct (isValid_spec board r c v Hb Hr Hc) as (ok & -> & Hiff).
  split; [|split].
  - rewrite <- Hiff. split; [by intros [= ->]|by intros ->].
  - rewrite <- Hiff. split; [by intros [= ->]|]. by destruct ok.
  - intros Hown. unfold occursInUnits, occursElsewhere. split.
    + intros (p & Hp & Hshare & Hcp). exists p. split; [|done]. by intros ->.
    + intros (p & _ & Hp & Hshare & Hcp). eauto.
Qed.

Lemma isValid_scans_whole_units_witness :
  board9x9 exampleBoard ∧ 0 < 9 ∧ 2 < 9 ∧
  (isValid exampleBoard 0 2 4 = Ok true ↔ ¬ occursInUnits exampleBoard 0 2 4).
Proof.
  split; [apply (bool_decide_unpack _); vm_compute; exact I|].
  split; [lia|]. split; [lia|].
  apply (isValid_scans_whole_units exampleBoard 0 2 4);
    [apply (bool_decide_unpack _); vm_compute; exact I|lia|lia].
Defined.

(** C3 as stated fails: on the board whose only filled cell is a 5 at
    (0,0), the value 5 is held nowhere else in the units of (0,0), yet
    [isValid] answers false there: the scan does not skip the cell itself. *)
Lemma isValid_counts_own_cell :
  board9x9 cornerBoard ∧
  isValid cornerBoard 0 0 5 = Ok false ∧
  ¬ occursElsewhere cornerBoard 0 0 5.
Proof.
  split; [apply (bool_decide_unpack _); vm_compute; exact I|].
  split; [reflexivity|].
  intros (p & Hne & _ & _ & Hcp). unfold cornerBoard in Hcp.
  rewrite cell_place_ne in Hcp by done. by apply cell_blank in Hcp.
Qed.

(** ** The checker: what it answers *)

(** C4.  On every board of the data model, the conflict list of
    [checkSolution] holds exactly the cells that hold a value another cell of
    one of their units holds too: all occurrences of a duplicated value in a
    unit, and nothing else.  On the board whose only filled cells are a 5 at
    (0,0) and a 5 at (0,3), the list is exactly (0,0), (0,3). *)
Theorem checkSolution_conflicts board :
  wf_board board →
  (∃ res, checkSolution board = Ok res ∧
     (∀ p, p ∈ cr_conflicts res ↔ ∃ u, u ∈ units ∧ duplicatedInUnit board u p) ∧
     NoDup (cr_conflicts res)) ∧
  checkSolution twoFivesBoard =
    Ok {| cr_isValid := false; cr_conflicts := [(0, 0); (0, 3)] |}.
Proof.
  intros Hwf. split; [|reflexivity].
  destruct (checkSolution_spec board Hwf) as (res & Hres & Hiff & Hnd & _).
  exists res. split; [done|]. split; [|done].
  intros p. by rewrite Hiff, inConflict_units.
Qed.

Lemma checkSolution_conflicts_witness :
  wf_board twoFivesBoard ∧
  ∃ res, checkSolution twoFivesBoard = Ok res ∧
    (∀ p, p ∈ cr_conflicts res ↔
          ∃ u, u ∈ units ∧ duplicatedInUnit twoFivesBoard u p) ∧
    NoDup (cr_conflicts res).
Proof.
  split; [apply (bool_decide_unpack _); vm_compute; exact I|].
  apply (checkSolution_conflicts twoFivesBoard).
  apply (bool_decide_unpack _); vm_compute; exact I.
Defined.

(** C5.  On every board of the data model, [checkSolution] answers
    [isValid = true] exactly when the board has no empty cell and the
    conflict list is empty; the conflict list is the list of the cells in
    conflict whether or not the board is complete. *)
Theorem checkSolution_isValid board :
  wf_board board →
  ∃ res, checkSolution board = Ok res ∧
    (cr_isValid res = true ↔ complete board ∧ cr_conflicts res = []) ∧
    (∀ p, p ∈ cr_conflicts res ↔ inConflict board p).
Proof.
  intros Hwf.
  destruct (checkSolution_spec board Hwf) as (res & Hres & Hiff & _ & Hvalid).
  by exists res.
Qed.

Lemma checkSolution_isValid_witness :
  wf_board twoFivesBoard ∧
  ∃ res, checkSolution twoFivesBoard = Ok res ∧
    (cr_isValid res = true ↔ complete twoFivesBoard ∧ cr_conflicts res = []) ∧
    (∀ p, p ∈ cr_conflicts res ↔ inConflict twoFivesBoard p).
Proof.
  split; [apply (bool_decide_unpack _); vm_compute; exact I|].
  apply (checkSolution_isValid twoFivesBoard).
  apply (bool_decide_unpack _); vm_compute; exact I.
Defined.

(** ** The solver: what a run does *)

Lemma wf_board_place_valid board row col n :
  wf_board board → n ∈ seqZ 1 9 → wf_board (place board row col (Num n)).
Proof.
  intros Hwf Hn%elem_of_seqZ. apply place_wf; [done|]. simpl. lia.
Qed.

Lemma solve_trace_wf fuel board t o :
  wf_board board → solve fuel board = Some (t, o) →
  Forall (λ e, wf_board (event_board e)) t.
Proof.
  intros Hwf. apply (solve_invariant wf_board); [|apply Hwf|done].
  intros b row col n _ Hb _ _ _ Hn. by apply wf_board_place_valid.
Qed.

Lemma solve_trace_noDuplicates fuel board t o :
  board9x9 board → noDuplicates board → solve fuel board = Some (t, o) →
  Forall (λ e, noDuplicates (event_board e)) t.
Proof.
  intros Hb Hnd. apply (solve_invariant noDuplicates); [|done..].
  intros b row col n Hb' Hnd' Hp _ Hvalid _. by apply noDuplicates_place.
Qed.

Lemma solve_trace_extends fuel board t o :
  board9x9 board → solve fuel board = Some (t, o) →
  Forall (λ e, extends board (event_board e)) t.
Proof.
  intros Hb. apply (solve_invariant (extends board)); [|done|by intros p v].
  intros b row col n _ Hext _ Hnull _ _. by apply extends_place.
Qed.

Lemma solve_trace_9x9 fuel board t o :
  board9x9 board → solve fuel board = Some (t, o) →
  Forall (λ e, board9x9 (event_board e)) t.
Proof.
  intros Hb. apply (solve_invariant board9x9); [|done..].
  intros b row col n _ Hb' _ _ _ _. by apply place_board9x9.
Qed.

(** What holds of every board of the trace holds of the final board. *)
Lemma finalBoard_invariant (I : BoardType → Prop) fuel board t o :
  solve fuel board = Some (t, o) →
  Forall (λ e, I (event_board e)) t → I (finalBoard board t).
Proof.
  intros Hs Hall. destruct (solve_starts_with_Call _ _ _ _ Hs) as [t' ->].
  pose proof (finalBoard_in_trace board t') as Hin.
  apply list_elem_of_fmap in Hin as (e & -> & He).
  rewrite Forall_forall in Hall. by apply Hall.
Qed.

(** The final board of a successful run from a board of the data model
    without duplicates is a valid completion of it. *)
Lemma solve_true_validCompletion fuel board t :
  wf_board board → noDuplicates board →
  solve fuel board = Some (t, Ret true) →
  validCompletion board (finalBoard board t).
Proof.
  intros Hwf Hnd Hs. assert (board9x9 board) as Hb by apply Hwf.
  assert (wf_board (finalBoard board t)) as Hwf'.
  { eapply (finalBoard_invariant wf_board); [done|]. by eapply solve_trace_wf. }
  split; [done|]. split.
  - eapply (finalBoard_invariant (extends board)); [done|].
    by eapply solve_trace_extends.
  - apply complete_noDuplicates_permutation; [done|by eapply solve_true_complete|].
    eapply (finalBoard_invariant noDuplicates); [done|].
    by eapply solve_trace_noDuplicates.
Qed.

(** C1.  On every board of the data model without duplicates, the run of
    [solveSudoku] ends and returns a boolean (the same for every fuel above
    the number of empty cells), and the boolean is [true] exactly when the
    board has a valid completion. *)
Theorem solveSudoku_decides_completion board :
  wf_board board → noDuplicates board →
  ∃ t r, solveSudoku board = Some (t, Ret r) ∧
    (∀ fuel, emptyCount board < fuel → solve fuel board = Some (t, Ret r)) ∧
    (r = true ↔ ∃ full, validCompletion board full).
Proof.
  intros Hwf Hnd. assert (board9x9 board) as Hb by apply Hwf.
  destruct (solveSudoku_total board Hb) as (t & r & Hrun).
  exists t, r. split; [done|]. split.
  { intros fuel Hfuel. destruct (solve_total fuel board Hb Hfuel) as (t' & r' & Hs).
    rewrite Hs, <- Hrun. symmetry. by apply (solve_solveSudoku fuel). }
  split.
  - intros ->. exists (finalBoard board t). by eapply solve_true_validCompletion.
  - intros [full Hfull]. destruct r; [done|exfalso].
    by eapply solve_complete.
Qed.

Lemma solveSudoku_decides_completion_witness :
  wf_board exampleBoard ∧ noDuplicates exampleBoard ∧
  ∃ t r, solveSudoku exampleBoard = Some (t, Ret r) ∧
    (∀ fuel, emptyCount exampleBoard < fuel →
       solve fuel exampleBoard = Some (t, Ret r)) ∧
    (r = true ↔ ∃ full, validCompletion exampleBoard full).
Proof.
  split; [apply (bool_decide_unpack _); vm_compute; exact I|].
  split; [apply noDuplicatesCheck_correct; vm_compute; reflexivity|].
  apply (solveSudoku_decides_completion exampleBoard).
  - apply (bool_decide_unpack _); vm_compute; exact I.
  - apply noDuplicatesCheck_correct; vm_compute; reflexivity.
Defined.

(** C2.  On every board of the data model without duplicates, whenever
    [solveSudoku] returns true the board it ends on has no empty cell, has
    in every row, column and box each of 1..9 exactly once, and
    [checkSolution] answers [isValid = true] with no conflict on it. *)
Theorem solveSudoku_true_is_solution board t :
  wf_board board → noDuplicates board →
  solveSudoku board = Some (t, Ret true) →
  complete (finalBoard board t) ∧
  allUnitsPermutation (finalBoard board t) ∧
  checkSolution (finalBoard board t) =
    Ok {| cr_isValid := true; cr_conflicts := [] |}.
Proof.
  intros Hwf Hnd Hrun.
  destruct (solve_true_validCompletion _ board t Hwf Hnd Hrun) as (Hwf' & _ & Hperm).
  pose proof (allUnitsPermutation_complete _ Hperm) as Hcomplete.
  split; [done|]. split; [done|].
  destruct (checkSolution_spec _ Hwf') as ([valid conflicts] & -> & Hiff & _ & Hvalid).
  simpl in *. assert (conflicts = []) as ->.
  { destruct conflicts as [|p conflicts]; [done|].
    destruct (noDuplicates_no_conflict (finalBoard board t) p).
    - by apply allUnitsPermutation_noDuplicates.
    - apply Hiff. left. }
  destruct Hvalid as [_ ->]; done.
Qed.

Lemma solveSudoku_true_is_solution_witness :
  let t := [Call nearlySolvedBoard;
            SetBoard (place nearlySolvedBoard 0 2 (Num 4));
            Call (place nearlySolvedBoard 0 2 (Num 4));
            SetBoard solvedBoard; Call solvedBoard] in
  wf_board nearlySolvedBoard ∧ noDuplicates nearlySolvedBoard ∧
  solveSudoku nearlySolvedBoard = Some (t, Ret true) ∧
  complete (finalBoard nearlySolvedBoard t) ∧
  allUnitsPermutation (finalBoard nearlySolvedBoard t) ∧
  checkSolution (finalBoard nearlySolvedBoard t) =
    Ok {| cr_isValid := true; cr_conflicts := [] |}.
Proof.
  intros t.
  split; [apply (bool_decide_unpack _); vm_compute; exact I|].
  split; [apply noDuplicatesCheck_correct; vm_compute; reflexivity|].
  split; [vm_compute; reflexivity|].
  apply (solveSudoku_true_is_solution nearlySolvedBoard t).
  - apply (bool_decide_unpack _); vm_compute; exact I.
  - apply noDuplicatesCheck_correct; vm_compute; reflexivity.
  - vm_compute; reflexivity.
Defined.

(** The sample puzzle of the component is solved, to the known solution. *)
Example solveSudoku_exampleBoard :
  match solveSudoku exampleBoard with
  | Some (t, o) => o = Ret true ∧ finalBoard exampleBoard t = solvedBoard
  | None => False
  end.
Proof. vm_compute. split; reflexivity. Qed.

(** C6.  On every 9×9 board without duplicates the run ends, and every
    board it passes to a (recursive) call and every board it publishes, after
    a placement or after a removal, is without duplicates. *)
Theorem solveSudoku_preserves_noDuplicates board :
  board9x9 board → noDuplicates board →
  ∃ t r, solveSudoku board = Some (t, Ret r) ∧
    Forall (λ e, noDuplicates (event_board e)) t.
Proof.
  intros Hb Hnd. destruct (solveSudoku_total board Hb) as (t & r & Hrun).
  exists t, r. split; [done|]. by eapply solve_trace_noDuplicates.
Qed.

Lemma solveSudoku_preserves_noDuplicates_witness :
  board9x9 exampleBoard ∧ noDuplicates exampleBoard ∧
  ∃ t r, solveSudoku exampleBoard = Some (t, Ret r) ∧
    Forall (λ e, noDuplicates (event_board e)) t.
Proof.
  split; [apply (bool_decide_unpack _); vm_compute; exact I|].
  split; [apply noDuplicatesCheck_correct; vm_compute; reflexivity|].
  apply (solveSudoku_preserves_noDuplicates exampleBoard).
  - apply (bool_decide_unpack _); vm_compute; exact I.
  - apply noDuplicatesCheck_correct; vm_compute; reflexivity.
Defined.

(** C8.  On every 9×9 board, duplicates among the filled cells or not, the
    run ends and returns a boolean: the board has at most 81 empty cells, a
    nesting depth of one more than their number is enough, and the board of
    each recursive call has one empty cell less than that of its caller. *)
Theorem solveSudoku_terminates board :
  board9x9 board →
  emptyCount board ≤ 81 ∧
  (∃ t r, solveSudoku board = Some (t, Ret r) ∧
     ∀ fuel, emptyCount board < fuel → solve fuel board = Some (t, Ret r)) ∧
  (∀ row col n, findEmpty board positions = Ok (Some (row, col)) →
     S (emptyCount (place board row col (Num n))) = emptyCount board).
Proof.
  intros Hb. split; [by apply emptyCount_bound|]. split.
  - destruct (solveSudoku_total board Hb) as (t & r & Hrun).
    exists t, r. split; [done|]. intros fuel Hfuel.
    destruct (solve_total fuel board Hb Hfuel) as (t' & r' & Hs).
    rewrite Hs, <- Hrun. symmetry. by apply (solve_solveSudoku fuel).
  - intros row col n Hfind. apply emptyCount_place.
    destruct (findEmpty_positions board Hb) as [[Hnone _]|(p & Hsome & _ & Hnull)];
      congruence.
Qed.

Lemma solveSudoku_terminates_witness :
  board9x9 twoFivesBoard ∧ ¬ noDuplicates twoFivesBoard ∧
  ∃ t r, solveSudoku twoFivesBoard = Some (t, Ret r) ∧
    ∀ fuel, emptyCount twoFivesBoard < fuel →
      solve fuel twoFivesBoard = Some (t, Ret r).
Proof.
  split; [apply (bool_decide_unpack _); vm_compute; exact I|].
  split.
  - intros Hnd.
    apply (Hnd (0, 0) (0, 3) 5%Z);
      [split; simpl; lia|split; simpl; lia|intros [=]|left; reflexivity
      |reflexivity|reflexivity].
  - apply (solveSudoku_terminates twoFivesBoard).
    apply (bool_decide_unpack _); vm_compute; exact I.
Defined.

(** C9.  On every 9×9 board without an empty cell, duplicates or not, the
    run is the call itself: it returns true and publishes no board. *)
Theorem solveSudoku_full_board board :
  board9x9 board → complete board →
  solveSudoku board = Some ([Call board], Ret true) ∧
  snapshots [Call board] = [] ∧
  ∀ fuel, solve (S fuel) board = Some ([Call board], Ret true).
Proof.
  intros Hb Hcomplete.
  assert (∀ fuel, solve (S fuel) board = Some ([Call board], Ret true)) as Hs.
  { intros fuel. rewrite solve_S.
    destruct (findEmpty_positions board Hb) as [[-> _]|(p & _ & Hp & Hnull)]; [done|].
    by destruct (Hcomplete p Hp). }
  split; [apply Hs|]. split; [done|apply Hs].
Qed.

Lemma solveSudoku_full_board_witness :
  board9x9 allOnesBoard ∧ complete allOnesBoard ∧ ¬ noDuplicates allOnesBoard ∧
  solveSudoku allOnesBoard = Some ([Call allOnesBoard], Ret true).
Proof.
  split; [apply (bool_decide_unpack _); vm_compute; exact I|].
  split; [apply completeCheck_correct; vm_compute; reflexivity|].
  split.
  - intros Hnd.
    apply (Hnd (0, 0) (0, 1) 1%Z);
      [split; simpl; lia|split; simpl; lia|intros [=]|left; reflexivity
      |reflexivity|reflexivity].
  - apply (solveSudoku_full_board allOnesBoard).
    + apply (bool_decide_unpack _); vm_compute; exact I.
    + apply completeCheck_correct; vm_compute; reflexivity.
Defined.

(** C10.  On every 9×9 board the run ends, and every board of its trace
    (passed to a call or published) and the board it ends on hold, in every
    cell filled in the input, the value the input holds there. *)
Theorem solveSudoku_keeps_filled_cells board :
  board9x9 board →
  ∃ t r, solveSudoku board = Some (t, Ret r) ∧
    Forall (λ e, extends board (event_board e)) t ∧
    extends board (finalBoard board t).
Proof.
  intros Hb. destruct (solveSudoku_total board Hb) as (t & r & Hrun).
  exists t, r. split; [done|].
  assert (Forall (λ e, extends board (event_board e)) t) as Hall
    by by eapply solve_trace_extends.
  split; [done|]. by eapply (finalBoard_invariant (extends board)).
Qed.

Lemma solveSudoku_keeps_filled_cells_witness :
  board9x9 exampleBoard ∧
  ∃ t r, solveSudoku exampleBoard = Some (t, Ret r) ∧
    Forall (λ e, extends exampleBoard (event_board e)) t ∧
    extends exampleBoard (finalBoard exampleBoard t).
Proof.
  split; [apply (bool_decide_unpack _); vm_compute; exact I|].
  apply (solveSudoku_keeps_filled_cells exampleBoard).
  apply (bool_decide_unpack _); vm_compute; exact I.
Defined.

(** ** The store: reads, copies and writes *)

Lemma loadRow_Some h l cells : loadRow h l = Some cells ↔ h !! l = Some (RowArray cells).
Proof.
  unfold loadRow. destruct (h !! l) as [[cells'|rows]|]; split; congruence.
Qed.

Lemma load_Some h board b :
  load h board = Some b ↔
  ∃ rows, h !! board = Some (BoardArray rows) ∧
    Forall2 (λ l cells, h !! l = Some (RowArray cells)) rows b.
Proof.
  unfold load. split.
  - destruct (h !! board) as [[cells|rows]|]; [done| |done].
    intros Hrows%mapM_Some. exists rows. split; [done|].
    eapply Forall2_impl; [done|]. intros l cells. apply loadRow_Some.
  - intros (rows & -> & Hrows). apply mapM_Some.
    eapply Forall2_impl; [done|]. intros l cells. apply loadRow_Some.
Qed.

Lemma load_prefix h h' board b :
  h `prefix_of` h' → load h board = Some b → load h' board = Some b.
Proof.
  intros Hpre. rewrite !load_Some. intros (rows & Hboard & Hrows).
  exists rows. split; [by eapply prefix_lookup_Some|].
  eapply Forall2_impl; [done|]. intros l cells Hl. simpl in *.
  eapply prefix_lookup_Some; [exact Hl|exact Hpre].
Qed.

Lemma prefix_of_insert (h h' : heap) i o :
  h `prefix_of` h' → length h ≤ i → h `prefix_of` <[i := o]> h'.
Proof.
  intros [k ->] Hi. rewrite insert_app_r_alt by done. by apply prefix_app_r.
Qed.

Lemma placedHeap_lookup_board h rows row cells k :
  (placedHeap h rows row cells ++ k) !! length h =
  Some (BoardArray (<[row := S (length h)]> rows)).
Proof.
  unfold placedHeap. rewrite <- app_assoc. simpl. by rewrite list_lookup_middle.
Qed.

Lemma placedHeap_lookup_row h rows row cells k :
  (placedHeap h rows row cells ++ k) !! S (length h) = Some (RowArray cells).
Proof.
  unfold placedHeap. rewrite <- app_assoc.
  rewrite lookup_app_r by lia. by replace (S (length h) - length h) with 1 by lia.
Qed.

Lemma placedHeap_prefix h rows row cells k :
  h `prefix_of` placedHeap h rows row cells ++ k.
Proof. unfold placedHeap. rewrite <- app_assoc. by eexists. Qed.

Lemma placedHeap_copy h board rows row cells :
  h !! board = Some (BoardArray rows) →
  rows !! row ≫= loadRow h = Some cells →
  spreadBoard h board = Some (h ++ [BoardArray rows], length h) ∧
  copyRow (h ++ [BoardArray rows]) (length h) row =
    Some (placedHeap h rows row cells).
Proof.
  intros Hboard Hrow. unfold spreadBoard, copyRow. rewrite Hboard.
  split; [done|]. rewrite list_lookup_middle by done.
  destruct (rows !! row) as [r|] eqn:Hr; [|done]. simpl in *.
  apply loadRow_Some in Hrow.
  assert (loadRow (h ++ [BoardArray rows]) r = Some cells) as ->.
  { apply loadRow_Some. by apply lookup_app_l_Some. }
  f_equal. unfold placedHeap. rewrite <- app_assoc. simpl.
  rewrite length_app. simpl. replace (length h + 1) with (S (length h)) by lia.
  replace (length h) with (length h + 0) at 1 by lia.
  by rewrite insert_app_r.
Qed.

Lemma placedHeap_write h rows row cells k col v :
  row < length rows →
  writeCell (placedHeap h rows row cells ++ k) (length h) row col v =
  Some (placedHeap h rows row (<[col := v]> cells) ++ k).
Proof.
  intros Hrow. unfold writeCell.
  rewrite placedHeap_lookup_board, list_lookup_insert_eq by done.
  rewrite placedHeap_lookup_row. f_equal.
  unfold placedHeap. rewrite <- !app_assoc.
  replace (S (length h)) with (length h + 1) at 1 by lia.
  by rewrite insert_app_r.
Qed.

Lemma placedHeap_load h rows row cells k b :
  Forall2 (λ l c, h !! l = Some (RowArray c)) rows b →
  load (placedHeap h rows row cells ++ k) (length h) = Some (<[row := cells]> b).
Proof.
  intros Hrows. apply load_Some. eexists. split; [apply placedHeap_lookup_board|].
  apply Forall2_same_length_lookup. split.
  { rewrite !length_insert. by eapply Forall2_length. }
  intros i l c Hl Hc. destruct (decide (row = i)) as [->|Hne].
  - apply list_lookup_insert_Some in Hl as [(_ & <- & _)|[? _]]; [|done].
    apply list_lookup_insert_Some in Hc as [(_ & <- & _)|[? _]]; [|done].
    apply placedHeap_lookup_row.
  - rewrite list_lookup_insert_ne in Hl by done.
    rewrite list_lookup_insert_ne in Hc by done.
    eapply prefix_lookup_Some; [|apply placedHeap_prefix].
    exact (Forall2_lookup_lr _ _ _ i l c Hrows Hl Hc).
Qed.

Lemma publish_spec h board b :
  load h board = Some b →
  ∃ o, publish h board = Some (h ++ [o], (length h, b)) ∧
    load (h ++ [o]) (length h) = Some b.
Proof.
  intros Hload. pose proof Hload as (rows & Hboard & Hrows)%load_Some.
  exists (BoardArray rows).
  assert (load (h ++ [BoardArray rows]) (length h) = Some b) as Hshown.
  { apply load_Some. exists rows. split; [by rewrite list_lookup_middle|].
    eapply Forall2_impl; [done|]. intros l c Hl. simpl in *.
    by apply lookup_app_l_Some. }
  split; [|done]. unfold publish, spreadBoard. by rewrite Hboard, Hshown.
Qed.

Lemma place_insert board row col v cells :
  board !! row = Some cells →
  place board row col v = <[row := <[col := v]> cells]> board.
Proof.
  intros Hrow. unfold place. apply list_eq. intros i.
  destruct (decide (row = i)) as [->|Hne].
  - rewrite list_lookup_alter_eq, Hrow. simpl.
    rewrite list_lookup_insert_eq; [done|]. by eapply lookup_lt_Some.
  - by rewrite list_lookup_alter_ne, list_lookup_insert_ne.
Qed.

(** ** The run on the store refines the run on board values *)

Lemma snapshots_app t t' : snapshots (t ++ t') = snapshots t ++ snapshots t'.
Proof. apply omap_app. Qed.

Lemma last_cons_published {A} (x : A) (l : list A) y :
  last (x :: l) = Some y → (l = [] ∧ y = x) ∨ last l = Some y.
Proof. rewrite last_cons. destruct (last l) eqn:Hl; [by right|]. left.
  apply last_None in Hl. by simplify_eq. Qed.

Lemma tryNumsOnHeap_refines rec recH board row col nums :
  (∀ nb l h1, load h1 l = Some nb → refinesRun h1 (rec nb) (recH l h1)) →
  ∀ h b, load h board = Some b → is_Some (b !! row) →
    refinesRun h (tryNums rec b row col nums)
      (tryNumsOnHeap recH board row col nums h).
Proof.
  intros Hrec. induction nums as [|num nums IH]; intros h b Hload [cells Hcells].
  { exists h, []. split; [done|]. split; [done|]. split; [done|]. split; [done|].
    by intros. }
  cbn [tryNums tryNumsOnHeap]. rewrite Hload.
  destruct (isValid b row col num) as [[|]|]; [|by apply IH; eauto|].
  2:{ exists h, []. split; [done|]. split; [done|]. split; [done|]. split; [done|].
      by intros. }
  pose proof Hload as (rows & Hboard & Hrows)%load_Some.
  destruct (Forall2_lookup_r _ _ _ _ _ Hrows Hcells) as (r & Hr & Hrcells).
  assert (rows !! row ≫= loadRow h = Some cells) as Hrowload.
  { rewrite Hr. simpl. by apply loadRow_Some. }
  assert (row < length rows) as Hlt by by eapply lookup_lt_Some.
  destruct (placedHeap_copy h board rows row cells Hboard Hrowload) as [-> Hcopy].
  cbn [mbind option_bind]. rewrite Hcopy. cbn [mbind option_bind].
  pose proof (placedHeap_write h rows row cells [] col (Num num) Hlt) as Hwrite.
  rewrite !app_nil_r in Hwrite. rewrite Hwrite. cbn [mbind option_bind].
  set (cells1 := <[col := Num num]> cells).
  set (nb := place b row col (Num num)).
  assert (nb = <[row := cells1]> b) as Hnb by by apply place_insert.
  assert (∀ k, load (placedHeap h rows row cells1 ++ k) (length h) = Some nb) as Hnbload.
  { intros k. rewrite Hnb. by apply placedHeap_load. }
  pose proof (Hnbload []) as Hload3. rewrite app_nil_r in Hload3.
  destruct (publish_spec _ _ _ Hload3) as (o1 & -> & Hshown).
  cbn [mbind option_bind].
  specialize (Hrec nb (length h) _ (Hnbload [o1])).
  destruct (rec nb) as [[t o]|]; [|by rewrite Hrec].
  destruct Hrec as (h5 & tH & -> & Hpre & Htr & Hfresh & Hlast).
  cbn [mbind option_bind].
  assert (h `prefix_of` h5) as Hpre5.
  { etrans; [|exact Hpre]. apply placedHeap_prefix. }
  assert (Forall (λ e : loc * BoardType, length h ≤ e.1) tH) as Hfresh'.
  { eapply Forall_impl; [exact Hfresh|]. intros e He. simpl in *.
    rewrite length_app in He. unfold placedHeap in He. rewrite length_app in He. lia. }
  assert (length h ≤ length (placedHeap h rows row cells1)) as Hlen3.
  { unfold placedHeap. rewrite length_app. lia. }
  destruct o as [[|]|].
  - exists h5, ((length (placedHeap h rows row cells1), nb) :: tH).
    split; [done|]. split; [done|]. split; [by simpl; f_equal|].
    split; [by constructor|]. intros _ l bd [[-> [= -> ->]]|Hl]%last_cons_published.
    + exact (load_prefix _ _ _ _ Hpre Hshown).
    + by apply Hlast.
  - destruct Hpre as [k ->].
    rewrite <- app_assoc, (placedHeap_write h rows row cells1 _ col Null Hlt).
    cbn [mbind option_bind].
    set (cells2 := <[col := Null]> cells1).
    assert (place nb row col Null = <[row := cells2]> b) as Hcleared.
    { rewrite (place_insert nb row col Null cells1).
      - by rewrite Hnb, list_insert_insert_eq.
      - rewrite Hnb. apply list_lookup_insert_eq. by eapply lookup_lt_Some. }
    assert (load (placedHeap h rows row cells2 ++ [o1] ++ k) (length h) =
            Some (place nb row col Null)) as Hload6.
    { rewrite Hcleared. by apply placedHeap_load. }
    destruct (publish_spec _ _ _ Hload6) as (o2 & -> & Hshown2).
    cbn [mbind option_bind].
    set (h7 := (placedHeap h rows row cells2 ++ [o1] ++ k) ++ [o2]) in *.
    assert (h `prefix_of` h7) as Hpre7.
    { unfold h7. rewrite <- app_assoc. apply placedHeap_prefix. }
    specialize (IH h7 b (load_prefix _ _ _ _ Hpre7 Hload) (ex_intro _ cells Hcells)).
    destruct (tryNums rec b row col nums) as [[t' o']|]; [|by rewrite IH].
    destruct IH as (h8 & tH' & -> & Hpre8 & Htr' & Hfresh8 & Hlast8).
    eexists h8, _. split; [done|]. split; [by etrans|].
    split; [|split].
    + rewrite fmap_cons, fmap_app, fmap_cons, Htr, Htr'.
      change (snapshots (SetBoard nb :: ?l)) with (nb :: snapshots l).
      rewrite snapshots_app. done.
    + constructor; [done|]. apply Forall_app. split; [done|].
      pose proof (prefix_length _ _ Hpre7) as Hlen7.
      constructor.
      * simpl. rewrite !length_app. unfold placedHeap. rewrite length_app. lia.
      * eapply Forall_impl; [exact Hfresh8|]. intros e He. simpl in *. lia.
    + intros Ho' l bd Hl. rewrite app_comm_cons, last_app_cons in Hl.
      apply last_cons_published in Hl as [[-> [= -> ->]]|Hl].
      * exact (load_prefix _ _ _ _ Hpre8 Hshown2).
      * by apply Hlast8.
  - exists h5, ((length (placedHeap h rows row cells1), nb) :: tH).
    split; [done|]. split; [done|]. split; [by simpl; f_equal|].
    split; [by constructor|]. done.
Qed.

Lemma solveOnHeap_refines fuel board h b :
  load h board = Some b →
  refinesRun h (solve fuel b) (solveOnHeap fuel board h).
Proof.
  revert board h b. induction fuel as [|fuel IH]; intros board h b Hload; [done|].
  rewrite solve_S. cbn [solveOnHeap]. rewrite Hload.
  destruct (findEmpty b positions) as [[[row col]|]|] eqn:Hfind.
  - apply findEmpty_Some_cell in Hfind. unfold cell in Hfind. simpl in Hfind.
    destruct (b !! row) as [cells|] eqn:Hrow; [|done].
    pose proof (tryNumsOnHeap_refines (solve fuel) (solveOnHeap fuel) board row col
      (seqZ 1 9) (λ nb l h1, IH l h1 nb) h b Hload) as Href.
    rewrite Hrow in Href. specialize (Href (ex_intro _ cells eq_refl)).
    unfold refinesRun in *.
    destruct (tryNums _ _ _ _ _) as [[t o]|]; [|done]. done.
  - exists h, []. split; [done|]. split; [done|]. split; [done|]. split; [done|].
    by intros.
  - exists h, []. split; [done|]. split; [done|]. split; [done|]. split; [done|].
    by intros.
Qed.

(** ** The solver and the array it is given *)

(** C7, amended.  [solveSudoku] does not write into the board it is given:
    every placement goes into a fresh copy of the outer array and of the
    row.  For every store holding a 9×9 board at the address passed, the run
    ends with the outcome and the published boards of the run on board
    values; every array that existed before the call, the array passed and
    its rows included, holds afterwards what it held before; every board is
    published through an array allocated during the run; and after a
    success, the last array published holds the board the run ends on. *)
Theorem solveSudoku_writes_fresh_copies h board b :
  load h board = Some b → board9x9 b →
  ∃ h' t tp r,
    solveSudokuOnHeap board h = Some (h', t, Ret r) ∧
    solveSudoku b = Some (tp, Ret r) ∧ t.*2 = snapshots tp ∧
    h `prefix_of` h' ∧ load h' board = Some b ∧
    Forall (λ e, length h ≤ e.1) t ∧
    (r = true → ∀ l final, last t = Some (l, final) →
       load h' l = Some final ∧ final = finalBoard b tp).
Proof.
  intros Hload Hb. destruct (solveSudoku_total b Hb) as (tp & r & Hrun).
  pose proof (solveOnHeap_refines (S (emptyCount b)) board h b Hload) as Href.
  unfold solveSudoku in Hrun. rewrite Hrun in Href.
  destruct Href as (h' & t & HrunH & Hpre & Htr & Hfresh & Hlast).
  exists h', t, tp, r. unfold solveSudokuOnHeap. rewrite Hload.
  split; [done|]. split; [done|]. split; [done|]. split; [done|].
  split; [by eapply load_prefix|]. split; [done|].
  intros -> l final Hl. split; [by apply Hlast|].
  unfold finalBoard. rewrite <- Htr, fmap_last, Hl. done.
Qed.

Lemma solveSudoku_writes_fresh_copies_witness :
  load (storeOf nearlySolvedBoard) 9 = Some nearlySolvedBoard ∧
  board9x9 nearlySolvedBoard ∧
  ∃ h' t tp r,
    solveSudokuOnHeap 9 (storeOf nearlySolvedBoard) = Some (h', t, Ret r) ∧
    solveSudoku nearlySolvedBoard = Some (tp, Ret r) ∧ t.*2 = snapshots tp ∧
    storeOf nearlySolvedBoard `prefix_of` h' ∧
    load h' 9 = Some nearlySolvedBoard ∧
    Forall (λ e, length (storeOf nearlySolvedBoard) ≤ e.1) t ∧
    (r = true → ∀ l final, last t = Some (l, final) →
       load h' l = Some final ∧ final = finalBoard nearlySolvedBoard tp).
Proof.
  split; [vm_compute; reflexivity|].
  split; [apply (bool_decide_unpack _); vm_compute; exact I|].
  apply (solveSudoku_writes_fresh_copies (storeOf nearlySolvedBoard) 9 nearlySolvedBoard).
  - vm_compute; reflexivity.
  - apply (bool_decide_unpack _); vm_compute; exact I.
Defined.

(** C7 as stated fails: on a store holding the solved board with two cells
    emptied, the run returns true, and the array passed as argument still
    holds the board with its two empty cells, not the completed solution,
    which is in the array published last. *)
Lemma solveSudoku_argument_left_unsolved :
  match solveSudokuOnHeap 9 (storeOf nearlySolvedBoard) with
  | Some (h', t, o) =>
      load (storeOf nearlySolvedBoard) 9 = Some nearlySolvedBoard ∧
      o = Ret true ∧
      load h' 9 = Some nearlySolvedBoard ∧
      cell nearlySolvedBoard (0, 2) = Some Null ∧
      t.*1 = [12; 15] ∧ load h' 15 = Some solvedBoard
  | None => False
  end.
Proof. vm_compute. repeat split; reflexivity. Qed.

(** ** One and two dimensions *)

Lemma slice_nat {A} (l : list A) (a b : nat) :
  slice l (Z.of_nat a) (Z.of_nat b) = take (b - a) (drop a l).
Proof.
  unfold slice, sliceIndex. rewrite !decide_False by lia. rewrite !Nat2Z.id.
  destruct (decide (length l ≤ a)) as [Hge|Hlt].
  - by rewrite !drop_ge, !take_nil by lia.
  - rewrite (Nat.min_l a) by lia. destruct (decide (b ≤ length l)) as [Hb|Hb].
    + by rewrite (Nat.min_l b) by lia.
    + rewrite (Nat.min_r b) by lia. rewrite !take_ge; [done|..];
        rewrite length_drop; lia.
Qed.

Lemma to2D_rows (board : SudokuBoard) :
  to2D board = (λ i, take 9 (drop (i * 9) board)) <$> seq 0 9.
Proof.
  unfold to2D. apply list_fmap_ext. intros _ i _.
  replace (Z.of_nat i * 9)%Z with (Z.of_nat (i * 9)) by lia.
  replace (Z.of_nat (i * 9) + 9)%Z with (Z.of_nat (i * 9 + 9)) by lia.
  rewrite slice_nat. f_equal. lia.
Qed.

Lemma concat_chunks {A} (l : list A) k n :
  concat ((λ i, take k (drop (i * k) l)) <$> seq 0 n) = take (n * k) l.
Proof.
  induction n as [|n IH]; [done|].
  rewrite seq_S, fmap_app, concat_app, IH. simpl. rewrite app_nil_r.
  rewrite take_take_drop. f_equal. lia.
Qed.

Lemma chunk_concat {A} (rows : list (list A)) k i row :
  Forall (λ r, length r = k) rows → rows !! i = Some row →
  take k (drop (i * k) (concat rows)) = row.
Proof.
  intros Hrows. revert i. induction Hrows as [|r rows Hr _ IH]; intros [|i] Hi;
    simplify_eq/=.
  - by rewrite drop_0, take_app_length.
  - rewrite drop_app_add' by done. by apply IH.
Qed.

(** X1.  Flattening the nine slices gives back the first 81 cells: the
    whole array when it has at most 81 cells, and nothing of what lies
    beyond. *)
Theorem to1D_to2D (board : SudokuBoard) : to1D (to2D board) = take 81 board.
Proof. unfold to1D. rewrite to2D_rows. apply (concat_chunks board 9 9). Qed.

(** X2.  Slicing the flattened form of a 9×9 board gives the board back. *)
Theorem to2D_to1D (board : BoardType) :
  board9x9 board → to2D (to1D board) = board.
Proof.
  intros [Hlen Hrows]. rewrite to2D_rows. unfold to1D. apply list_eq. intros i.
  rewrite list_lookup_fmap. destruct (decide (i < 9)) as [Hi|Hi].
  - rewrite (lookup_seq_lt 0 9 i Hi). simpl.
    destruct (lookup_lt_is_Some_2 board i) as [row Hrow]; [lia|].
    rewrite Hrow. f_equal. by apply chunk_concat.
  - rewrite lookup_seq_ge by lia. simpl. symmetry. apply lookup_ge_None. lia.
Qed.

Lemma to2D_to1D_witness :
  board9x9 exampleBoard ∧ to2D (to1D exampleBoard) = exampleBoard.
Proof.
  split; [apply (bool_decide_unpack _); vm_compute; exact I|].
  apply (to2D_to1D exampleBoard).
  apply (bool_decide_unpack _); vm_compute; exact I.
Defined.

Lemma to2D_cell (board : SudokuBoard) row col :
  row < 9 → col < 9 → cell (to2D board) (row, col) = board !! (row * 9 + col).
Proof.
  intros Hr Hc. rewrite to2D_rows. unfold cell. cbn [fst snd].
  rewrite list_lookup_fmap, (lookup_seq_lt 0 9 row Hr). simpl.
  by rewrite lookup_take_lt, lookup_drop.
Qed.

(** X3.  The cell that the handlers decode from an index of the external
    solver, [(Math.floor(index / 9), index % 9)], holds in the 2D board what
    the 1D board holds at that index, for every index below 81. *)
Theorem to2D_cellOfIndex (board : SudokuBoard) index :
  index < 81 → cell (to2D board) (cellOfIndex index) = board !! index.
Proof.
  intros Hi. unfold cellOfIndex. rewrite to2D_cell.
  - f_equal. pose proof (Nat.div_mod_eq index 9). lia.
  - apply Nat.Div0.div_lt_upper_bound. lia.
  - apply Nat.mod_upper_bound. lia.
Qed.

Lemma to2D_cellOfIndex_witness :
  40 < 81 ∧
  cell (to2D (to1D exampleBoard)) (cellOfIndex 40) = to1D exampleBoard !! 40.
Proof. split; [lia|]. apply (to2D_cellOfIndex (to1D exampleBoard) 40). lia. Defined.

(** X4.  [to2D] always yields nine rows, and they are nine cells each
    exactly when the array has at least 81 cells: a shorter array gives short
    (possibly empty) last rows. *)
Theorem to2D_shape (board : SudokuBoard) :
  length (to2D board) = 9 ∧ (board9x9 (to2D board) ↔ 81 ≤ length board).
Proof.
  rewrite to2D_rows. split; [done|]. unfold board9x9.
  rewrite Forall_fmap, Forall_forall. split.
  - intros [_ Hall]. specialize (Hall 8). simpl in Hall.
    rewrite length_take, length_drop in Hall.
    assert (8 ∈ seq 0 9) as H8 by (apply elem_of_seq; lia).
    specialize (Hall H8). lia.
  - intros Hlen. split; [done|]. intros i Hi%elem_of_seq. simpl.
    rewrite length_take, length_drop. lia.
Qed.

(** ** Boxes *)

(** X5.  The two components test "same box" differently, one against the
    bounds of the box of the second cell, one by comparing box coordinates;
    the tests agree on all cells, and they single out exactly the cells the
    box loop of [isValid] scans. *)
Theorem isInSameBox_agree row col row' col' :
  SolverBoard.isInSameBox row col row' col' = GameBoard.isInSameBox row col row' col' ∧
  (GameBoard.isInSameBox row col row' col' = true ↔ (row, col) ∈ boxCells row' col').
Proof.
  assert (GameBoard.isInSameBox row col row' col' = true ↔
          (row, col) ∈ boxCells row' col') as Hgame.
  { unfold GameBoard.isInSameBox. rewrite elem_of_boxCells, andb_true_iff.
    by rewrite !Nat.eqb_eq. }
  split; [|done]. apply eq_true_iff_eq. rewrite Hgame, elem_of_boxCells.
  unfold SolverBoard.isInSameBox.
  rewrite !andb_true_iff, !Nat.leb_le, !Nat.ltb_lt, !div3_spec. simpl. lia.
Qed.

(** ** Boards with too few rows *)

Lemma scan_true_reads board num ps :
  scan board num ps = Ok true → ∀ p, p ∈ ps → p.1 < length board.
Proof.
  induction ps as [|[r c] ps IH]; simpl; [by intros _ p ?%elem_of_nil|].
  unfold read. destruct (board !! r) as [cells|] eqn:Hrow; [|done].
  destruct (strict_eq_num _ _); [done|].
  intros Hscan p [->|Hp]%elem_of_cons; [|by apply IH].
  by eapply lookup_lt_Some.
Qed.

Lemma isValid_few_rows board row col num :
  length board < 9 → isValid board row col num ≠ Ok true.
Proof.
  intros Hlen Hvalid. rewrite isValid_scan in Hvalid.
  pose proof (scan_true_reads _ _ _ Hvalid (8, col)) as Hread. cbn [fst] in Hread.
  enough (8 < length board) by lia. apply Hread.
  rewrite !elem_of_app, elem_of_colCells. simpl. right; left. lia.
Qed.

Lemma findEmpty_None_reads board ps :
  findEmpty board ps = Ok None → ∀ p, p ∈ ps → p.1 < length board.
Proof.
  induction ps as [|[r c] ps IH]; simpl; [by intros _ p ?%elem_of_nil|].
  unfold read. destruct (board !! r) as [cells|] eqn:Hrow; [|done].
  destruct (strict_eq_null _); [done|].
  intros Hscan p [->|Hp]%elem_of_cons; [|by apply IH].
  by eapply lookup_lt_Some.
Qed.

Lemma tryNums_never_valid rec board row col nums :
  (∀ n, isValid board row col n ≠ Ok true) →
  tryNums rec board row col nums = Some ([], Ret false) ∨
  tryNums rec board row col nums = Some ([], Throw).
Proof.
  intros Hnever. induction nums as [|num nums IH]; simpl; [by left|].
  specialize (Hnever num). destruct (isValid board row col num) as [[|]|]; auto.
  done.
Qed.

(** X6.  On a board with fewer than nine rows [isValid] never answers true,
    whatever the cell and the value: the column loop reaches a missing row
    unless a match made it answer false before. *)
Theorem isValid_few_rows_not_true board row col num :
  length board < 9 →
  isValid board row col num = Ok false ∨ isValid board row col num = TypeError.
Proof.
  intros Hlen. pose proof (isValid_few_rows board row col num Hlen).
  destruct (isValid board row col num) as [[|]|]; auto. done.
Qed.

Lemma isValid_few_rows_not_true_witness :
  length threeRowBoard < 9 ∧
  (isValid threeRowBoard 0 2 4 = Ok false ∨ isValid threeRowBoard 0 2 4 = TypeError).
Proof.
  split; [vm_compute; lia|].
  apply (isValid_few_rows_not_true threeRowBoard 0 2 4). vm_compute; lia.
Defined.

(** X7.  On a board with fewer than nine rows the solver publishes no
    board and never returns true: the run is the first call, which throws or
    returns false. *)
Theorem solveSudoku_few_rows board :
  length board < 9 →
  solveSudoku board = Some ([Call board], Throw) ∨
  solveSudoku board = Some ([Call board], Ret false).
Proof.
  intros Hlen. unfold solveSudoku. rewrite solve_S.
  destruct (findEmpty board positions) as [[[row col]|]|] eqn:Hfind; [|exfalso|by left].
  - destruct (tryNums_never_valid (solve (emptyCount board)) board row col (seqZ 1 9))
      as [-> | ->]; auto.
    intros n. by apply isValid_few_rows.
  - pose proof (findEmpty_None_reads _ _ Hfind (8, 0)) as Hread. cbn [fst] in Hread.
    enough (8 < length board) by lia. apply Hread.
    apply elem_of_positions. split; simpl; lia.
Qed.

Lemma solveSudoku_few_rows_witness :
  length threeRowBoard < 9 ∧
  (solveSudoku threeRowBoard = Some ([Call threeRowBoard], Throw) ∨
   solveSudoku threeRowBoard = Some ([Call threeRowBoard], Ret false)).
Proof.
  split; [vm_compute; lia|].
  apply (solveSudoku_few_rows threeRowBoard). vm_compute; lia.
Defined.

(** ** A run that gives up *)

Lemma tryNums_false_restores rec board row col nums t :
  cell board (row, col) = Some Null →
  tryNums rec board row col nums = Some (t, Ret false) →
  last (snapshots t) = None ∨ last (snapshots t) = Some board.
Proof.
  intros Hnull. revert t. induction nums as [|num nums IH]; intros t; simpl.
  { intros [= <-]. by left. }
  destruct (isValid board row col num) as [[|]|]; [|by auto|done].
  destruct (rec _) as [[t1 [[|]|]]|]; [done| |done..].
  destruct (tryNums rec board row col nums) as [[t2 o2]|]; [|done].
  intros [= <- ->]. right. rewrite place_clear by done.
  change (snapshots (SetBoard ?b :: ?l)) with (b :: snapshots l).
  rewrite snapshots_app.
  change (snapshots (SetBoard ?b :: ?l)) with (b :: snapshots l).
  rewrite app_comm_cons, last_app_cons, last_cons.
  by destruct (IH t2 eq_refl) as [-> | ->].
Qed.

(** X8.  Backtracking restores: whenever a run returns false, the board it
    ends on is the input board, whatever the shape of the board and however
    many placements and removals were published on the way. *)
Theorem solveSudoku_false_restores board t :
  solveSudoku board = Some (t, Ret false) → finalBoard board t = board.
Proof.
  unfold solveSudoku. rewrite solve_S.
  destruct (findEmpty board positions) as [[[row col]|]|] eqn:Hfind; [|done..].
  destruct (tryNums _ _ _ _ _) as [[t' o']|] eqn:Htry; [|done].
  intros [= <- ->]. rewrite finalBoard_Call. unfold finalBoard.
  apply findEmpty_Some_cell in Hfind.
  by destruct (tryNums_false_restores _ _ _ _ _ _ Hfind Htry) as [-> | ->].
Qed.

Lemma solveSudoku_false_restores_witness :
  ∃ t, solveSudoku deadEndBoard = Some (t, Ret false) ∧
    length (snapshots t) = 4 ∧ finalBoard deadEndBoard t = deadEndBoard.
Proof.
  eexists. split; [vm_compute; reflexivity|]. split; [reflexivity|].
  apply (solveSudoku_false_restores deadEndBoard). vm_compute; reflexivity.
Defined.

(** ** Which completion the search finds *)

Lemma positions_NoDup : NoDup positions.
Proof. apply (bool_decide_unpack _). vm_compute. exact I. Qed.

Lemma positions_lookup p : onBoard p → positions !! (p.1 * 9 + p.2) = Some p.
Proof.
  intros Hp%elem_of_positions. revert p Hp. apply Forall_forall.
  apply (bool_decide_unpack _). vm_compute. exact I.
Qed.

Lemma positions_before l1 p l2 q :
  positions = l1 ++ p :: l2 → onBoard q → rowMajorBefore q p → q ∈ l1.
Proof.
  intros Hsplit Hq Hbefore.
  assert (onBoard p) as Hp.
  { apply elem_of_positions. rewrite Hsplit, elem_of_app, elem_of_cons. auto. }
  assert (length l1 = p.1 * 9 + p.2) as Hlen.
  { apply (NoDup_lookup positions _ _ p positions_NoDup).
    - rewrite Hsplit. by apply list_lookup_middle.
    - by apply positions_lookup. }
  pose proof (positions_lookup q Hq) as Hlq.
  rewrite Hsplit, lookup_app_l in Hlq.
  - by eapply list_elem_of_lookup_2.
  - destruct Hq as [_ Hq2], Hbefore as [?|[? ?]]; lia.
Qed.

Lemma findEmpty_first board ps p :
  findEmpty board ps = Ok (Some p) →
  ∃ l1 l2, ps = l1 ++ p :: l2 ∧ ∀ q, q ∈ l1 → cell board q ≠ Some Null.
Proof.
  induction ps as [|[r c] ps IH]; simpl; [done|].
  unfold read. destruct (board !! r) as [cells|] eqn:Hrow; [|done].
  destruct (strict_eq_null (cells !! c)) eqn:Hnull.
  - intros [= <-]. exists [], ps. split; [done|]. by intros q ?%elem_of_nil.
  - intros (l1 & l2 & -> & Hl1)%IH. exists ((r, c) :: l1), l2. split; [done|].
    intros q [->|Hq]%elem_of_cons; [|by apply Hl1].
    unfold cell; simpl. rewrite Hrow. simpl. intros Hc. by rewrite Hc in Hnull.
Qed.

Lemma tryNums_true_first rec board row col nums t :
  tryNums rec board row col nums = Some (t, Ret true) →
  ∃ l1 n l2 pre t',
    nums = l1 ++ n :: l2 ∧
    t = pre ++ SetBoard (place board row col (Num n)) :: t' ∧
    rec (place board row col (Num n)) = Some (t', Ret true) ∧
    ∀ m, m ∈ l1 →
      isValid board row col m = Ok false ∨
      ∃ t'', rec (place board row col (Num m)) = Some (t'', Ret false).
Proof.
  revert t. induction nums as [|num nums IH]; intros t; simpl; [done|].
  destruct (isValid board row col num) as [[|]|] eqn:Hvalid; [| |done].
  - destruct (rec _) as [[t1 [[|]|]]|] eqn:Hr; [| |done..].
    + intros [= <-]. exists [], num, nums, [], t1. split; [done|]. split; [done|].
      split; [done|]. by intros m ?%elem_of_nil.
    + destruct (tryNums rec board row col nums) as [[t2 o2]|]; [|done].
      intros [= <- ->].
      destruct (IH _ eq_refl) as (l1 & n & l2 & pre & t' & -> & -> & Hrec & Hl1).
      exists (num :: l1), n, l2,
        (SetBoard (place board row col (Num num)) :: t1 ++
         SetBoard (place (place board row col (Num num)) row col Null) :: pre), t'.
      split; [done|]. split; [by simpl; rewrite <- app_assoc|]. split; [done|].
      intros m [->|Hm]%elem_of_cons; [by eauto|by apply Hl1].
  - intros (l1 & n & l2 & pre & t' & -> & -> & Hrec & Hl1)%IH.
    exists (num :: l1), n, l2, pre, t'. split; [done|]. split; [done|].
    split; [done|]. intros m [->|Hm]%elem_of_cons; [by left|by apply Hl1].
Qed.

Lemma seqZ_split_lt a k l1 n l2 m :
  seqZ a k = l1 ++ n :: l2 → (a ≤ m < n)%Z → m ∈ l1.
Proof.
  intros Hsplit Hm.
  assert (seqZ a k !! length l1 = Some n) as Hn
    by (rewrite Hsplit; by apply list_lookup_middle).
  apply lookup_seqZ in Hn as [-> Hk].
  assert (seqZ a k !! Z.to_nat (m - a) = Some m) as Hlm.
  { apply lookup_seqZ. lia. }
  rewrite Hsplit, lookup_app_l in Hlm by lia.
  by eapply list_elem_of_lookup_2.
Qed.

(** The value a valid completion holds in an empty cell passes [isValid]. *)
Lemma completion_value_valid board full row col m :
  board9x9 board → validCompletion board full → onBoard (row, col) →
  cell board (row, col) = Some Null → cell full (row, col) = Some (Num m) →
  isValid board row col m = Ok true.
Proof.
  intros Hb (Hwf & Hext & Hperm) Hp Hnull Hfull. destruct Hp as [Hr Hc].
  destruct (isValid_spec board row col m Hb Hr Hc) as ([|] & Hok & Hiff); [done|].
  exfalso. destruct Hiff as [(q & Hq & Hshare & Hcq) _]; [done|].
  apply (allUnitsPermutation_noDuplicates full Hperm (row, col) q m); auto.
  - by split.
  - intros <-. congruence.
Qed.

Lemma completion_place board full row col m :
  validCompletion board full → cell board (row, col) = Some Null →
  cell full (row, col) = Some (Num m) →
  validCompletion (place board row col (Num m)) full.
Proof.
  intros (Hwf & Hext & Hperm) Hnull Hfull. split; [done|]. split; [|done].
  apply extends_place_completion; [done..|]. by rewrite Hnull.
Qed.

Lemma solve_true_least fuel board t full :
  board9x9 board → solve fuel board = Some (t, Ret true) →
  validCompletion board full → rowMajorLe (finalBoard board t) full.
Proof.
  revert board t. induction fuel as [|fuel IH]; intros board t Hb; [done|].
  rewrite solve_S. destruct (findEmpty board positions) as [[[row col]|]|] eqn:Hfind;
    [| |done].
  - destruct (tryNums _ _ _ _ _) as [[t' o']|] eqn:Htry; [|done].
    intros [= <- ->] Hfull.
    apply tryNums_true_first in Htry
      as (l1 & n & l2 & pre & t1 & Hnums & -> & Hrec & Hl1).
    rewrite finalBoard_Call, finalBoard_app_SetBoard.
    pose proof (findEmpty_Some_cell _ _ _ Hfind) as Hnull.
    destruct (findEmpty_first _ _ _ Hfind) as (k1 & k2 & Hsplit & Hk1).
    assert (onBoard (row, col)) as Hp.
    { apply elem_of_positions. rewrite Hsplit, elem_of_app, elem_of_cons. auto. }
    pose proof Hfull as (Hwf & Hext & Hperm).
    destruct (allUnitsPermutation_cell full (row, col) Hperm Hp) as (m & Hm & Hrange).
    apply elem_of_seqZ in Hrange.
    assert (board9x9 (place board row col (Num n))) as Hb' by by apply place_board9x9.
    destruct (Z.lt_trichotomy m n) as [Hlt|[->|Hgt]].
    + exfalso. assert (m ∈ l1) as Hin by (eapply seqZ_split_lt; [done|lia]).
      destruct (Hl1 m Hin) as [Hinvalid|[t'' Hfalse]].
      * by rewrite (completion_value_valid board full row col m) in Hinvalid.
      * eapply (solve_complete fuel (place board row col (Num m))); [|by apply completion_place|done].
        by apply place_board9x9.
    + apply IH; [done..|]. by apply completion_place.
    + right. exists (row, col), n, m. split; [done|].
      assert (extends (place board row col (Num n)) (finalBoard (place board row col (Num n)) t1))
        as Hext'.
      { eapply (finalBoard_invariant (extends _)); [done|].
        by eapply solve_trace_extends. }
      split; [|split; [done|split; [done|]]].
      { apply Hext', cell_place_eq. by rewrite Hnull. }
      intros q Hq Hbefore.
      assert (q ∈ k1) as Hqk by by eapply positions_before.
      assert (q ≠ (row, col)) as Hne.
      { intros ->. destruct Hbefore as [?|[? ?]]; simpl in *; lia. }
      destruct (cell_is_Some board q Hb Hq) as [[|v] Hcq]; [by destruct (Hk1 q Hqk)|].
      rewrite (Hext q v Hcq). apply Hext'. by rewrite cell_place_ne.
  - intros [= <-] (Hwf & Hext & Hperm). left. intros p Hp.
    change (finalBoard board [Call board]) with board.
    destruct (cell_is_Some board p Hb Hp) as [[|v] Hcp].
    + pose proof (findEmpty_positions board Hb) as [[_ Hcomplete]|(q & Hq & _)];
        [by destruct (Hcomplete p Hp)|congruence].
    + by rewrite (Hext p v Hcp).
Qed.

(** X9.  Of all valid completions of the input, a successful run ends on
    the least one in the order of the search: any other valid completion
    agrees with it on the cells before their first difference in row-major
    order and holds a larger value there. *)
Theorem solveSudoku_finds_least board t full :
  board9x9 board → solveSudoku board = Some (t, Ret true) →
  validCompletion board full → rowMajorLe (finalBoard board t) full.
Proof.
  intros Hb Hrun. by apply (solve_true_least (S (emptyCount board)) board t full).
Qed.

Lemma solvedBoard_permutation : allUnitsPermutation solvedBoard.
Proof.
  apply complete_noDuplicates_permutation.
  - apply (bool_decide_unpack _). vm_compute. exact I.
  - apply completeCheck_correct. vm_compute. reflexivity.
  - apply noDuplicatesCheck_correct. vm_compute. reflexivity.
Qed.

Lemma solveSudoku_finds_least_witness :
  ∃ t, board9x9 blankBoard ∧ solveSudoku blankBoard = Some (t, Ret true) ∧
    validCompletion blankBoard solvedBoard ∧
    rowMajorLe (finalBoard blankBoard t) solvedBoard.
Proof.
  eexists.
  assert (board9x9 blankBoard) as Hb
    by (apply (bool_decide_unpack _); vm_compute; exact I).
  assert (validCompletion blankBoard solvedBoard) as Hfull.
  { split; [apply (bool_decide_unpack _); vm_compute; exact I|].
    split; [|apply solvedBoard_permutation].
    intros p v Hc. by apply cell_blank in Hc. }
  split; [exact Hb|]. split; [vm_compute; reflexivity|]. split; [exact Hfull|].
  apply (solveSudoku_finds_least blankBoard _ solvedBoard);
    [exact Hb|vm_compute; reflexivity|exact Hfull].
Defined.

(** ** Puzzles with one completion *)

Lemma board_ext (A B : BoardType) :
  board9x9 A → board9x9 B → (∀ p, onBoard p → cell A p = cell B p) → A = B.
Proof.
  intros [HlenA HrowsA] [HlenB HrowsB] Hcells. apply list_eq. intros i.
  destruct (decide (i < 9)) as [Hi|Hi].
  2:{ rewrite !lookup_ge_None_2; [done|lia..]. }
  destruct (lookup_lt_is_Some_2 A i) as [rA HA]; [lia|].
  destruct (lookup_lt_is_Some_2 B i) as [rB HB]; [lia|].
  rewrite HA, HB. f_equal. apply list_eq. intros j.
  pose proof (Forall_lookup_1 _ _ _ _ HrowsA HA) as HlA.
  pose proof (Forall_lookup_1 _ _ _ _ HrowsB HB) as HlB. simpl in *.
  destruct (decide (j < 9)) as [Hj|Hj].
  2:{ rewrite !lookup_ge_None_2; [done|lia..]. }
  specialize (Hcells (i, j)). unfold cell in Hcells. simpl in Hcells.
  rewrite HA, HB in Hcells. apply Hcells. by split.
Qed.

Lemma completion_input_wf board full :
  board9x9 board → validCompletion board full →
  wf_board board ∧ noDuplicates board.
Proof.
  intros Hb (Hwf & Hext & Hperm). split; [split; [done|]|].
  - apply Forall_lookup. intros i cells Hi. apply Forall_lookup. intros j [|v] Hj; [done|].
    apply (wf_cell_ok full (i, j) (Num v) Hwf). apply Hext.
    unfold cell; simpl. by rewrite Hi.
  - intros p q v Hp Hq Hne Hshare Hcp Hcq.
    apply (allUnitsPermutation_noDuplicates full Hperm p q v); auto.
Qed.

(** X10.  When the input has exactly one valid completion, the run returns
    true and ends on it. *)
Theorem solveSudoku_unique_completion board full :
  board9x9 board → validCompletion board full →
  (∀ full', validCompletion board full' → full' = full) →
  ∃ t, solveSudoku board = Some (t, Ret true) ∧ finalBoard board t = full.
Proof.
  intros Hb Hfull Hunique.
  destruct (completion_input_wf board full Hb Hfull) as [Hwf Hnd].
  destruct (solveSudoku_total board Hb) as (t & [|] & Hrun).
  - exists t. split; [done|]. apply Hunique.
    by eapply solve_true_validCompletion.
  - exfalso. by eapply solve_complete.
Qed.

(** The two empty cells of [nearlySolvedBoard] can only be filled one way. *)
Lemma nearlySolvedBoard_unique full :
  validCompletion nearlySolvedBoard full → full = solvedBoard.
Proof.
  intros (Hwf & Hext & Hperm).
  pose proof (allUnitsPermutation_noDuplicates full Hperm) as Hnd.
  assert (∀ r c v, cell nearlySolvedBoard (r, c) = Some (Num v) →
            cell full (r, c) = Some (Num v)) as Hgiven by (intros; by apply Hext).
  assert (∀ r c r' c' v, r < 9 → c < 9 → r' < 9 → c' < 9 → (r, c) ≠ (r', c') →
            sharesUnit (r, c) (r', c') →
            cell nearlySolvedBoard (r, c) = Some (Num v) →
            cell full (r', c') ≠ Some (Num v)) as Hother.
  { intros r c r' c' v ?????? Hc. apply (Hnd (r, c) (r', c') v); auto; by split. }
  assert (cell full (0, 2) = Some (Num 4)) as H02.
  { destruct (allUnitsPermutation_cell full (0, 2) Hperm) as (m & Hm & Hr%elem_of_seqZ);
      [split; simpl; lia|].
    pose proof (Hother 0 0 0 2 5%Z). pose proof (Hother 0 1 0 2 3%Z).
    pose proof (Hother 0 3 0 2 6%Z). pose proof (Hother 0 4 0 2 7%Z).
    pose proof (Hother 0 5 0 2 8%Z). pose proof (Hother 0 6 0 2 9%Z).
    pose proof (Hother 0 7 0 2 1%Z). pose proof (Hother 0 8 0 2 2%Z).
    rewrite Hm in *.
    assert (m = 4 ∨ m = 5 ∨ m = 3 ∨ m = 6 ∨ m = 7 ∨ m = 8 ∨ m = 9 ∨ m = 1 ∨ m = 2)%Z
      as Hcases by lia.
    destruct Hcases as [->|Hcases]; [done|exfalso].
    repeat (destruct Hcases as [->|Hcases]);
      try subst m;
      match goal with
      | H : _ → _ → _ → _ → _ → _ → _ → Some (Num ?v) ≠ Some (Num ?v) |- _ =>
          apply H; [lia|lia|lia|lia|intros [=]|left; reflexivity|reflexivity|reflexivity]
      end. }
  assert (cell full (8, 8) = Some (Num 9)) as H88.
  { destruct (allUnitsPermutation_cell full (8, 8) Hperm) as (m & Hm & Hr%elem_of_seqZ);
      [split; simpl; lia|].
    pose proof (Hother 8 0 8 8 3%Z). pose proof (Hother 8 1 8 8 4%Z).
    pose proof (Hother 8 2 8 8 5%Z). pose proof (Hother 8 3 8 8 2%Z).
    pose proof (Hother 8 4 8 8 8%Z). pose proof (Hother 8 5 8 8 6%Z).
    pose proof (Hother 8 6 8 8 1%Z). pose proof (Hother 8 7 8 8 7%Z).
    rewrite Hm in *.
    assert (m = 9 ∨ m = 3 ∨ m = 4 ∨ m = 5 ∨ m = 2 ∨ m = 8 ∨ m = 6 ∨ m = 1 ∨ m = 7)%Z
      as Hcases by lia.
    destruct Hcases as [->|Hcases]; [done|exfalso].
    repeat (destruct Hcases as [->|Hcases]);
      try subst m;
      match goal with
      | H : _ → _ → _ → _ → _ → _ → _ → Some (Num ?v) ≠ Some (Num ?v) |- _ =>
          apply H; [lia|lia|lia|lia|intros [=]|left; reflexivity|reflexivity|reflexivity]
      end. }
  apply board_ext; [apply Hwf|apply (bool_decide_unpack _); vm_compute; exact I|].
  intros [r c] [Hr Hc]. simpl in *.
  destruct (decide ((r, c) = (0, 2))) as [[= -> ->]|Hne1]; [by rewrite H02|].
  destruct (decide ((r, c) = (8, 8))) as [[= -> ->]|Hne2]; [by rewrite H88|].
  assert (cell nearlySolvedBoard (r, c) = cell solvedBoard (r, c)) as Hsame.
  { unfold nearlySolvedBoard. by rewrite !cell_place_ne. }
  rewrite <- Hsame.
  assert (∃ v, cell solvedBoard (r, c) = Some (Num v)) as [v Hv].
  { assert (onBoard (r, c)) as Hp by by split.
    destruct (allUnitsPermutation_cell solvedBoard (r, c) solvedBoard_permutation Hp)
      as (v & Hv & _). eauto. }
  rewrite Hsame, Hv. apply Hgiven. by rewrite Hsame.
Qed.

Lemma solveSudoku_unique_completion_witness :
  board9x9 nearlySolvedBoard ∧ validCompletion nearlySolvedBoard solvedBoard ∧
  ∃ t, solveSudoku nearlySolvedBoard = Some (t, Ret true) ∧
    finalBoard nearlySolvedBoard t = solvedBoard.
Proof.
  assert (board9x9 nearlySolvedBoard) as Hb
    by (apply (bool_decide_unpack _); vm_compute; exact I).
  assert (validCompletion nearlySolvedBoard solvedBoard) as Hfull.
  { split; [apply (bool_decide_unpack _); vm_compute; exact I|].
    split; [|apply solvedBoard_permutation].
    intros p v Hc. unfold nearlySolvedBoard in Hc.
    destruct (decide (p = (8, 8))) as [->|Hne2]; [by vm_compute in Hc|].
    rewrite cell_place_ne in Hc by done.
    destruct (decide (p = (0, 2))) as [->|Hne1]; [by vm_compute in Hc|].
    by rewrite cell_place_ne in Hc. }
  split; [exact Hb|]. split; [exact Hfull|].
  apply (solveSudoku_unique_completion nearlySolvedBoard solvedBoard);
    [exact Hb|exact Hfull|apply nearlySolvedBoard_unique].
Defined.

(** ** The checker on grids outside the data model *)

(** X11.  On every 9×9 grid of numbers and [null], in the range 1..9 or
    not, [checkSolution] answers [isValid = true] exactly when every cell
    holds a number other than 0 and no two cells of a unit hold the same
    number: the range of the values is not checked. *)
Theorem checkSolution_any_values board :
  board9x9 board →
  ∃ res, checkSolution board = Ok res ∧
    (cr_isValid res = true ↔
     (∀ p, onBoard p → ∃ v, v ≠ 0%Z ∧ cell board p = Some (Num v)) ∧
     noDuplicates board).
Proof.
  intros Hb. unfold checkSolution.
  destruct (checkUnits_spec board units [] (units_in_range board Hb))
    as (conflicts & -> & Hiff & _).
  destruct (completeLoop_spec board (seq 0 9) true) as (r & -> & Hr).
  { apply Forall_forall. intros row Hrow%elem_of_seq. destruct Hb as [-> _]. lia. }
  eexists. split; [done|]. simpl.
  rewrite andb_true_iff, bool_decide_eq_true, length_zero_iff_nil, Hr.
  pose proof units_shape as Hshape. rewrite Forall_forall in Hshape.
  assert ((∀ row col, row ∈ seq 0 9 → col ∈ seq 0 9 →
             falsy (cell board (row, col)) = false) ↔
          (∀ p, onBoard p → ∃ v, v ≠ 0%Z ∧ cell board p = Some (Num v))) as Hfilled.
  { split.
    - intros Hall [row col] [Hrow Hcol]. cbn [fst snd] in *.
      assert (falsy (cell board (row, col)) = false) as Hf
        by (apply Hall; apply elem_of_seq; lia).
      apply falsy_false in Hf as (v & Hv & Hne). eauto.
    - intros Hall row col Hrow%elem_of_seq Hcol%elem_of_seq.
      apply falsy_false. destruct (Hall (row, col)) as (v & ? & ?); [split; simpl; lia|].
      eauto. }
  rewrite Hfilled. split.
  - intros [[_ Hall] ->]. split; [done|].
    intros p q v Hp Hq Hne Hshare Hcp Hcq.
    destruct (shares_common_unit p q Hp Hq Hshare) as (u & Hu & Hpu & Hqu).
    destruct (Hshape u Hu) as (Hnd & _).
    assert (p ∈ []) as []%elem_of_nil. apply Hiff. right.
    exists u. split; [done|]. split; [done|]. exists v. split.
    { destruct (Hall p Hp) as (v' & Hv' & Hcp'). congruence. }
    split; [done|]. apply seenTwice_unit; [done|]. exists p, q. auto.
  - intros [Hall Hnodup]. split; [done|].
    destruct conflicts as [|p conflicts]; [done|exfalso].
    assert (p ∈ p :: conflicts) as Hin by left.
    apply Hiff in Hin as [[]%elem_of_nil|(u & Hu & Hpu & v & Hv & Hcp & Htw)].
    destruct (Hshape u Hu) as (Hnd & _ & Hon & Hsh).
    rewrite Forall_forall in Hon. rewrite Forall_forall in Hsh.
    apply seenTwice_unit in Htw as (q & q' & Hq & Hq' & Hne & Hcq & Hcq'); [|done].
    specialize (Hsh q Hq). rewrite Forall_forall in Hsh.
    apply (Hnodup q q' v); auto.
Qed.

Lemma checkSolution_any_values_witness :
  board9x9 tenBoard ∧ cell tenBoard (0, 6) = Some (Num 10) ∧
  ∃ res, checkSolution tenBoard = Ok res ∧
    (cr_isValid res = true ↔
     (∀ p, onBoard p → ∃ v, v ≠ 0%Z ∧ cell tenBoard p = Some (Num v)) ∧
     noDuplicates tenBoard).
Proof.
  split; [apply (bool_decide_unpack _); vm_compute; exact I|].
  split; [reflexivity|].
  apply (checkSolution_any_values tenBoard).
  apply (bool_decide_unpack _); vm_compute; exact I.
Defined.

Lemma checkUnit_throws board u p todo seen conflicts :
  length board ≤ p.1 → checkUnit board u (p :: todo) seen conflicts = TypeError.
Proof. intros Hp. destruct p as [r c]. simpl. by rewrite read_TypeError. Qed.

Lemma checkUnits_throws board us conflicts p todo :
  p :: todo ∈ us → length board ≤ p.1 → checkUnits board us conflicts = TypeError.
Proof.
  intros Hin Hp. revert conflicts.
  induction us as [|u us IH]; intros conflicts; [by apply elem_of_nil in Hin|].
  simpl. apply elem_of_cons in Hin as [<-|Hin].
  - by rewrite checkUnit_throws.
  - destruct (checkUnit board u u [] conflicts); [by apply IH|done].
Qed.

(** X12.  On a board with fewer than nine rows [checkSolution] throws: the
    row loop indexes the first missing row. *)
Theorem checkSolution_few_rows board :
  length board < 9 → checkSolution board = TypeError.
Proof.
  intros Hlen. unfold checkSolution.
  rewrite (checkUnits_throws board units [] (length board, 0)
             ((λ x, (length board, x)) <$> seq 1 8)); [done| |simpl; lia].
  apply units_spec. left. exists (length board). by split.
Qed.

Lemma checkSolution_few_rows_witness :
  length threeRowBoard < 9 ∧ checkSolution threeRowBoard = TypeError.
Proof.
  split; [vm_compute; lia|].
  apply (checkSolution_few_rows threeRowBoard). vm_compute; lia.
Defined.

(** ** Undo and redo *)

Lemma slice_0 {A} (l : list A) (k : nat) : slice l 0 (Z.of_nat k) = take k l.
Proof.
  change 0%Z with (Z.of_nat 0). rewrite (slice_nat l 0 k). by rewrite Nat.sub_0_r.
Qed.

Lemma slice_0_Z {A} (l : list A) (k : Z) :
  (0 ≤ k)%Z → slice l 0 k = take (Z.to_nat k) l.
Proof. intros Hk. rewrite <- (Z2Nat.id k) at 1 by done. apply slice_0. Qed.

Lemma sliceFrom_last {A} (l : list A) (k : nat) :
  0 < k → sliceFrom l (- Z.of_nat k) = drop (length l - k) l.
Proof.
  intros Hk. unfold sliceFrom, slice, sliceIndex.
  repeat case_decide; try lia. rewrite Nat2Z.id, Nat.min_id.
  replace (Z.to_nat (Z.max (Z.of_nat (length l) + - Z.of_nat k) 0))
    with (length l - k) by lia.
  apply take_ge. rewrite length_drop. lia.
Qed.

Lemma sliceFrom_1 {A} (l : list A) : sliceFrom l 1 = drop 1 l.
Proof.
  unfold sliceFrom. change 1%Z with (Z.of_nat 1). rewrite (slice_nat l 1 (length l)).
  apply take_ge. rewrite length_drop. lia.
Qed.

Lemma undo_no_history s : st_historyIndex s = (-1)%Z → undo s = Ok s.
Proof. intros Hi. unfold undo. by rewrite decide_True by lia. Qed.

Lemma redo_no_future s : st_future s = [] → redo s = s.
Proof. intros Hf. unfold redo. by rewrite Hf. Qed.

Section history_facts.
Context {Text : Type} `{EqDecision Text}.
Variable stringifyBoard : BoardType → Text.
Variable stringifyMarks : list (list PencilMarks) → Text.

Lemma saveToHistory_current s :
  saveToHistory stringifyBoard stringifyMarks s (st_board s) (st_pencilMarks s) = s.
Proof. unfold saveToHistory. by rewrite !bool_decide_eq_true_2. Qed.

(** X13.  No handler ever records anything to undo: [saveToHistory] is
    always called on the current board and marks, which it compares with the
    current board and marks, so from [resetBoard] on and through any
    sequence of clicks, key presses, undos, redos and resets, [history] and
    [future] stay empty and [undo] and [redo] change nothing. *)
Theorem history_stays_empty b s :
  rtc (sessionStep stringifyBoard stringifyMarks) (resetEdit b) s →
  st_history s = [] ∧ st_historyIndex s = (-1)%Z ∧ st_future s = [] ∧
  undo s = Ok s ∧ redo s = s.
Proof.
  intros Hrun.
  enough (st_history s = [] ∧ st_historyIndex s = (-1)%Z ∧ st_future s = [])
    as (Hh & Hi & Hf).
  { by rewrite undo_no_history, redo_no_future. }
  revert s Hrun. apply rtc_ind_r; [done|].
  intros s1 s2 _ Hstep (Hh & Hi & Hf).
  destruct Hstep as [s1 b' pm|s1 b' pm|s1 s2 Hundo|s1|s1 b'].
  - by rewrite saveToHistory_current.
  - done.
  - rewrite undo_no_history in Hundo by done. by injection Hundo as <-.
  - by rewrite redo_no_future.
  - done.
Qed.

(** X14.  The undo machinery keeps its bounds, whatever [saveToHistory] is
    given: at most 50 entries in [history], at most 49 in [future], and an
    index from -1 up to the last entry of [history]; hence [undo] never
    indexes past the end of [history]. *)
Theorem historyBounds_kept s newBoard newPencilMarks :
  historyBounds s →
  historyBounds (saveToHistory stringifyBoard stringifyMarks s newBoard newPencilMarks) ∧
  (∃ s', undo s = Ok s' ∧ historyBounds s') ∧
  historyBounds (redo s).
Proof.
  intros (Hh & Hf & Hi). split; [|split].
  - unfold saveToHistory. destruct (_ && _); [done|]. unfold historyBounds.
    cbn [st_history st_future st_historyIndex].
    rewrite !slice_0_Z by lia. change (-50)%Z with (- Z.of_nat 50)%Z.
    rewrite !sliceFrom_last by lia.
    rewrite !length_drop, !length_app, !length_take. cbn [length]. lia.
  - unfold undo. destruct (decide (st_historyIndex s < 0)%Z) as [Hneg|Hpos].
    { exists s. done. }
    destruct (lookup_lt_is_Some_2 (st_history s) (Z.to_nat (st_historyIndex s)))
      as [previousState ->]; [lia|].
    eexists. split; [done|]. unfold historyBounds.
    cbn [st_history st_future st_historyIndex].
    rewrite slice_0_Z, length_take by lia. cbn [length]. lia.
  - unfold redo. destruct (st_future s) as [|nextState future] eqn:Hfuture.
    { unfold historyBounds. rewrite Hfuture. cbn [length]. lia. }
    unfold historyBounds. cbn [st_history st_future st_historyIndex].
    change (-50)%Z with (- Z.of_nat 50)%Z.
    rewrite !sliceFrom_last, sliceFrom_1 by lia.
    rewrite !length_drop, !length_app, ?Hfuture. cbn [length] in *. lia.
Qed.
End history_facts.

(** X15.  [redo] after an effective [undo] shows the board and the pencil
    marks again that [undo] replaced, and within the bounds of the machinery
    the index is back where it was. *)
Theorem undo_redo_restores s s' :
  (0 ≤ st_historyIndex s)%Z → undo s = Ok s' →
  st_board (redo s') = st_board s ∧
  st_pencilMarks (redo s') = st_pencilMarks s ∧
  (historyBounds s → st_historyIndex (redo s') = st_historyIndex s).
Proof.
  intros Hi. unfold undo. rewrite decide_False by lia.
  destruct (st_history s !! _) as [previousState|]; [|done].
  intros [= <-]. unfold redo. cbn [st_history st_future st_historyIndex].
  rewrite slice_0_Z by lia. simpl.
  split; [done|]. split; [done|]. intros (Hh & _ & Hlt). lia.
Qed.

Lemma history_stays_empty_witness :
  let stringifyBoard := (inl : BoardType → BoardType + list (list PencilMarks)) in
  let stringifyMarks := (inr : list (list PencilMarks) → BoardType + list (list PencilMarks)) in
  let s0 := resetEdit exampleBoard in
  let s1 := setBoardAndMarks solvedBoard (st_pencilMarks s0)
              (saveToHistory stringifyBoard stringifyMarks s0
                 (st_board s0) (st_pencilMarks s0)) in
  rtc (sessionStep stringifyBoard stringifyMarks) s0 s1 ∧
  st_history s1 = [] ∧ st_historyIndex s1 = (-1)%Z ∧ st_future s1 = [] ∧
  undo s1 = Ok s1 ∧ redo s1 = s1.
Proof.
  intros stringifyBoard stringifyMarks s0 s1.
  assert (rtc (sessionStep stringifyBoard stringifyMarks) s0 s1) as Hrun.
  { apply rtc_once. apply step_click. }
  split; [exact Hrun|].
  apply (history_stays_empty stringifyBoard stringifyMarks exampleBoard s1 Hrun).
Defined.

Lemma historyBounds_kept_witness :
  let stringifyBoard := (inl : BoardType → BoardType + list (list PencilMarks)) in
  let stringifyMarks := (inr : list (list PencilMarks) → BoardType + list (list PencilMarks)) in
  historyBounds sampleEdit ∧
  historyBounds (saveToHistory stringifyBoard stringifyMarks sampleEdit
                   exampleBoard []) ∧
  (∃ s', undo sampleEdit = Ok s' ∧ historyBounds s') ∧
  historyBounds (redo sampleEdit).
Proof.
  intros stringifyBoard stringifyMarks.
  assert (historyBounds sampleEdit) as Hb by (unfold historyBounds; simpl; lia).
  split; [exact Hb|].
  apply (historyBounds_kept stringifyBoard stringifyMarks sampleEdit exampleBoard [] Hb).
Defined.

Lemma undo_redo_restores_witness :
  ∃ s', (0 ≤ st_historyIndex sampleEdit)%Z ∧ undo sampleEdit = Ok s' ∧
    st_board s' = exampleBoard ∧
    st_board (redo s') = st_board sampleEdit ∧
    st_pencilMarks (redo s') = st_pencilMarks sampleEdit ∧
    (historyBounds sampleEdit →
     st_historyIndex (redo s') = st_historyIndex sampleEdit).
Proof.
  eexists. split; [simpl; lia|]. split; [reflexivity|]. split; [reflexivity|].
  apply (undo_redo_restores sampleEdit); [simpl; lia|reflexivity].
Defined.

(** ** The step display *)

Lemma mapCell_place board row col v : mapCell board row col v = place board row col v.
Proof.
  unfold mapCell, place. apply list_eq. intros i. rewrite list_lookup_imap.
  destruct (decide (row = i)) as [->|Hne].
  - rewrite list_lookup_alter_eq. destruct (board !! i) as [cells|]; [|done].
    simpl. f_equal. apply list_eq. intros j. rewrite list_lookup_imap.
    rewrite bool_decide_eq_true_2 by done. simpl.
    destruct (decide (col = j)) as [->|Hnej].
    + rewrite bool_decide_eq_true_2 by done.
      destruct (cells !! j) eqn:Hj; simpl.
      * symmetry. apply list_lookup_insert_eq. by eapply lookup_lt_Some.
      * symmetry. apply lookup_ge_None. rewrite length_insert.
        by apply lookup_ge_None.
    + rewrite bool_decide_eq_false_2 by done.
      rewrite list_lookup_insert_ne by done. by destruct (cells !! j).
  - rewrite list_lookup_alter_ne by done. destruct (board !! i) as [cells|]; [|done].
    simpl. f_equal. apply list_eq. intros j. rewrite list_lookup_imap.
    rewrite bool_decide_eq_false_2 by done. simpl. by destruct (cells !! j).
Qed.

Lemma concat_alter_insert {A} (rows : list (list A)) k r c (v : A) :
  Forall (λ row, length row = k) rows → c < k →
  concat (alter (λ row, <[c := v]> row) r rows) = <[r * k + c := v]> (concat rows).
Proof.
  intros Hrows Hc. revert r.
  induction Hrows as [|row rows Hrow _ IH]; intros [|r]; try done.
  - simpl. rewrite insert_app_l by lia. done.
  - cbn [alter list_alter concat]. rewrite IH.
    replace (S r * k + c) with (length row + (r * k + c)) by lia.
    by rewrite insert_app_r.
Qed.

Lemma to1D_place board index v :
  board9x9 board →
  to1D (place board (index / 9) (index mod 9) v) = <[index := v]> (to1D board).
Proof.
  intros [_ Hrows]. unfold to1D, place.
  rewrite (concat_alter_insert board 9) by (done || (apply Nat.mod_upper_bound; lia)).
  f_equal. pose proof (Nat.div_mod_eq index 9). lia.
Qed.

Lemma replaySteps_boards board steps out :
  board9x9 board → replaySteps board steps = Ok out →
  (λ st, to1D (ss_board st)) <$> out = replay1D (to1D board) steps ∧
  Forall (λ st, board9x9 (ss_board st)) out ∧
  length out = length steps.
Proof.
  revert board out. induction steps as [|step steps IH]; intros board out Hb;
    cbn [replaySteps replay1D].
  { intros [= <-]. done. }
  destruct (step_updates step) as [|update _]; [done|].
  rewrite mapCell_place.
  destruct (replaySteps _ steps) as [out'|] eqn:Hrec; [|done].
  intros [= <-].
  apply IH in Hrec as (Hboards & Hall & Hlen); [|by apply place_board9x9].
  rewrite to1D_place in Hboards by done.
  split; [|split].
  - rewrite fmap_cons. f_equal; [|done]. by apply to1D_place.
  - constructor; [by apply place_board9x9|done].
  - cbn [length]. by rewrite Hlen.
Qed.

Lemma replaySteps_throws board steps :
  replaySteps board steps = TypeError ↔
  ∃ step, step ∈ steps ∧ step_updates step = [].
Proof.
  revert board. induction steps as [|step steps IH]; intros board; cbn [replaySteps].
  { split; [done|]. by intros (step & ?%elem_of_nil & _). }
  destruct (step_updates step) as [|update rest] eqn:Hupd.
  { split; [|done]. intros _. exists step. split; [left|done]. }
  specialize (IH (mapCell board (upd_index update / 9) (upd_index update mod 9)
                    (Num (upd_filledValue update)))).
  destruct (replaySteps _ steps) as [out'|].
  - split; [done|]. intros (step' & [->|Hin]%elem_of_cons & Hnone); [congruence|].
    enough (Ok out' = (TypeError : result (list SolutionStep))) by done.
    apply IH. eauto.
  - split; [|done]. intros _. destruct IH as [(step' & Hin & Hnone) _]; [done|].
    exists step'. split; [by right|done].
Qed.

(** X16.  The boards of the step display are the boards of the external
    solver: when the solver reports a solved puzzle with steps, on a 9×9
    board, there is one displayed step per solver step, and its board is the
    2D form of the solver's 1D board after the first update of each step so
    far, an update at index 81 or beyond changing nothing on either side. *)
Theorem generateSolutionSteps_follows_solver solver board steps out :
  board9x9 board →
  solver (to1D board) = mkSolution true (Some steps) →
  generateSolutionSteps solver board = Ok out →
  ss_board <$> out = to2D <$> replay1D (to1D board) steps ∧
  length out = length steps.
Proof.
  intros Hb Hsol. unfold generateSolutionSteps. rewrite Hsol. simpl.
  intros (Hboards & Hall & Hlen)%replaySteps_boards; [|done].
  split; [|done]. rewrite <- Hboards, <- list_fmap_compose.
  apply list_eq. intros i. rewrite !list_lookup_fmap.
  destruct (out !! i) as [st|] eqn:Hst; [|done]. simpl. f_equal.
  symmetry. apply to2D_to1D. by eapply Forall_lookup_1 in Hall.
Qed.

(** X17.  [generateSolutionSteps] throws exactly when the solver reports a
    solved puzzle with steps one of which has no update; it returns no step
    when the solver reports no solution or no steps. *)
Theorem generateSolutionSteps_outcome solver board :
  (generateSolutionSteps solver board = TypeError ↔
   sol_solved (solver (to1D board)) = true ∧
   ∃ steps, sol_steps (solver (to1D board)) = Some steps ∧
     ∃ step, step ∈ steps ∧ step_updates step = []) ∧
  (sol_solved (solver (to1D board)) = false ∨ sol_steps (solver (to1D board)) = None →
   generateSolutionSteps solver board = Ok []).
Proof.
  unfold generateSolutionSteps.
  destruct (solver (to1D board)) as [[|] [steps|]]; simpl.
  - split; [|by intros [?|?]]. rewrite replaySteps_throws. split.
    + intros Hthrow. split; [done|]. by exists steps.
    + by intros [_ (steps' & [= <-] & Hthrow)].
  - split; [|done]. split; [done|]. by intros [_ (steps' & ? & _)].
  - split; [|done]. split; [done|]. by intros [? _].
  - split; [|done]. split; [done|]. by intros [? _].
Qed.

Example generateStepExplanation_naked_single :
  generateStepExplanation "naked-single" 0 2 4 =
  "Cell [1, 3] can only be 4. All other numbers 1-9 are already present in its row, column, or 3x3 box.".
Proof. vm_compute. reflexivity. Qed.

Lemma generateSolutionSteps_follows_solver_witness :
  ∃ out,
    board9x9 nearlySolvedBoard ∧
    sampleSolver (to1D nearlySolvedBoard) = mkSolution true (Some sampleSteps) ∧
    generateSolutionSteps sampleSolver nearlySolvedBoard = Ok out ∧
    ss_board <$> out = to2D <$> replay1D (to1D nearlySolvedBoard) sampleSteps ∧
    length out = length sampleSteps ∧
    last (ss_board <$> out) = Some solvedBoard.
Proof.
  eexists.
  split; [apply (bool_decide_unpack _); vm_compute; exact I|].
  split; [reflexivity|]. split; [vm_compute; reflexivity|].
  apply and_assoc. split; [|vm_compute; reflexivity].
  apply (generateSolutionSteps_follows_solver sampleSolver nearlySolvedBoard sampleSteps).
  - apply (bool_decide_unpack _); vm_compute; exact I.
  - reflexivity.
  - vm_compute; reflexivity.
Defined.

(** ** Achievements *)

Lemma checkAchievement_lookup id l i a :
  l !! i = Some a →
  ∃ a', checkAchievement id l !! i = Some a' ∧
    ach_id a' = ach_id a ∧ ach_title a' = ach_title a ∧
    ach_description a' = ach_description a ∧
    (ach_earned a' = true ↔ ach_earned a = true ∨ ach_id a = id).
Proof.
  intros Hi. unfold checkAchievement. rewrite list_lookup_fmap, Hi. simpl.
  eexists. split; [done|].
  destruct (bool_decide (ach_id a = id)) eqn:Hid; destruct (ach_earned a) eqn:He; simpl;
    rewrite ?He; try apply bool_decide_eq_true in Hid;
    try apply bool_decide_eq_false in Hid; naive_solver.
Qed.

(** X18.  Achievements are only ever gained.  After [checkAchievement] on
    any sequence of ids the list has the same entries in the same places,
    with their ids, titles and descriptions, and an entry is earned exactly
    when it was earned before or its id is among those checked; an id that
    names no achievement changes nothing. *)
Theorem checkAchievement_only_earns ids l i a :
  l !! i = Some a →
  ∃ a', checkAll ids l !! i = Some a' ∧
    ach_id a' = ach_id a ∧ ach_title a' = ach_title a ∧
    ach_description a' = ach_description a ∧
    (ach_earned a' = true ↔ ach_earned a = true ∨ ach_id a ∈ ids) ∧
    length (checkAll ids l) = length l.
Proof.
  unfold checkAll. revert l a. induction ids as [|id ids IH]; intros l a Hi; simpl.
  { exists a. rewrite elem_of_nil. naive_solver. }
  destruct (checkAchievement_lookup id l i a Hi) as (a1 & H1 & Hid1 & Ht1 & Hd1 & He1).
  destruct (IH _ a1 H1) as (a' & H' & Hid & Ht & Hd & He & Hlen).
  exists a'. split; [done|]. rewrite Hid, Ht, Hd, He, He1, Hid1, Hlen, elem_of_cons.
  unfold checkAchievement. rewrite length_fmap. naive_solver.
Qed.

Lemma checkAchievement_only_earns_witness :
  ALL_ACHIEVEMENTS !! 3 = Some (mkAchievement "no-hint-master" "No Hint Master"
    "Solve a puzzle without using any hints." false) ∧
  ∃ a', checkAll ["first-solve"; "naked-pair-master"; "no-hint-master"]
          ALL_ACHIEVEMENTS !! 3 = Some a' ∧
    ach_earned a' = true.
Proof.
  split; [reflexivity|].
  destruct (checkAchievement_only_earns
              ["first-solve"; "naked-pair-master"; "no-hint-master"]
              ALL_ACHIEVEMENTS 3 _ eq_refl) as (a' & Ha' & _ & _ & _ & He & _).
  exists a'. split; [exact Ha'|]. apply He. right. set_solver.
Defined.

Lemma checkSolution_valid_permutation board res :
  wf_board board → checkSolution board = Ok res →
  (cr_isValid res = true ↔ allUnitsPermutation board) ∧
  (∀ p, p ∈ cr_conflicts res ↔ inConflict board p).
Proof.
  intros Hwf Hres.
  destruct (checkSolution_spec board Hwf) as (res' & Hres' & Hiff & _ & Hvalid).
  assert (res' = res) as -> by congruence. split; [|done].
  rewrite Hvalid. split.
  - intros [Hcomplete Hnil]. apply complete_noDuplicates_permutation; [done|done|].
    intros p q v Hp Hq Hne Hshare Hcp Hcq.
    assert (p ∈ cr_conflicts res) as Hin.
    { apply Hiff. exists q, v. split; [done|]. split; [done|].
      split; [by intros ->|]. done. }
    rewrite Hnil in Hin. by apply elem_of_nil in Hin.
  - intros Hperm. split; [by apply allUnitsPermutation_complete|].
    destruct (cr_conflicts res) as [|p l] eqn:Hl; [done|].
    exfalso. apply (noDuplicates_no_conflict board p).
    + by apply allUnitsPermutation_noDuplicates.
    + apply Hiff. left.
Qed.

Lemma checkWhen_lookup (c : Prop) `{!Decision c} id l i a :
  l !! i = Some a →
  ∃ a', (if decide c then checkAchievement id l else l) !! i = Some a' ∧
    ach_id a' = ach_id a ∧
    (ach_earned a' = true ↔ ach_earned a = true ∨ c ∧ ach_id a = id).
Proof.
  intros Hi. case_decide.
  - destruct (checkAchievement_lookup id l i a Hi) as (a' & ? & ? & _ & _ & ?).
    exists a'. naive_solver.
  - exists a. naive_solver.
Qed.

(** X19.  The check button rewards exactly a solved grid.  On a board of
    the data model [handleCheckSolution] leaves the board as it is, shows as
    conflict cells exactly the cells in conflict, and changes the earned flag
    of an achievement only to set it: an achievement is earned afterwards
    exactly when it was before, or every unit of the board is a permutation
    of 1..9 and it is first-solve, or no-hint-master with no hint used, or
    speed-demon with less than 300000 ms on the clock. *)
Theorem handleCheckSolution_rewards_solution now s :
  wf_board (cs_board s) →
  ∃ s', handleCheckSolution now s = Ok s' ∧
    cs_board s' = cs_board s ∧
    (∀ p, p ∈ cs_conflictCells s' ↔ inConflict (cs_board s) p) ∧
    length (cs_achievements s') = length (cs_achievements s) ∧
    ∀ i a, cs_achievements s !! i = Some a →
      ∃ a', cs_achievements s' !! i = Some a' ∧ ach_id a' = ach_id a ∧
        (ach_earned a' = true ↔
           ach_earned a = true ∨
           allUnitsPermutation (cs_board s) ∧
           (ach_id a = "first-solve" ∨
            ach_id a = "no-hint-master" ∧ cs_hintsUsed s = 0 ∨
            ach_id a = "speed-demon" ∧ (now - cs_startTime s < 300000)%Z)).
Proof.
  intros Hwf. unfold handleCheckSolution.
  destruct (checkSolution_spec _ Hwf) as (res & Hres & _).
  destruct (checkSolution_valid_permutation _ res Hwf Hres) as [Hvalid Hconf].
  rewrite Hres. destruct (cr_isValid res) eqn:Hv.
  - assert (allUnitsPermutation (cs_board s)) as Hperm by by apply Hvalid.
    eexists. split; [done|].
    cbn [cs_board cs_achievements cs_conflictCells]. split; [done|]. split; [|split].
    + intros p. rewrite elem_of_nil. split; [done|].
      apply noDuplicates_no_conflict. by apply allUnitsPermutation_noDuplicates.
    + repeat case_decide; unfold checkAchievement; by rewrite ?length_fmap.
    + intros i a Hi.
      destruct (checkAchievement_lookup "first-solve" _ i a Hi)
        as (a1 & H1 & Hid1 & _ & _ & He1).
      destruct (checkWhen_lookup (cs_hintsUsed s = 0) "no-hint-master" _ i a1 H1)
        as (a2 & H2 & Hid2 & He2).
      destruct (checkWhen_lookup (now - cs_startTime s < 300000)%Z "speed-demon" _ i a2 H2)
        as (a3 & H3 & Hid3 & He3).
      exists a3. split; [exact H3|]. rewrite Hid3, Hid2, Hid1, He3, He2, He1, Hid2, Hid1.
      naive_solver.
  - assert (¬ allUnitsPermutation (cs_board s)) as Hperm.
    { intros Hp%Hvalid. done. }
    eexists. split; [done|]. simpl. split; [done|]. split; [done|]. split; [done|].
    intros i a Hi. exists a. naive_solver.
Qed.

Lemma handleCheckSolution_rewards_solution_witness :
  wf_board solvedBoard ∧
  ∃ s', handleCheckSolution 1000
          (mkCheckState solvedBoard ALL_ACHIEVEMENTS 2 0 [(0, 0)]) = Ok s' ∧
    cs_conflictCells s' = [] ∧
    ach_earned <$> cs_achievements s' = [true; false; false; false; true].
Proof.
  assert (wf_board solvedBoard) as Hwf
    by (apply (bool_decide_unpack _); vm_compute; exact I).
  split; [exact Hwf|].
  destruct (handleCheckSolution_rewards_solution 1000
              (mkCheckState solvedBoard ALL_ACHIEVEMENTS 2 0 [(0, 0)]) Hwf)
    as (s' & Hs' & _).
  exists s'. split; [exact Hs'|].
  vm_compute in Hs'. injection Hs' as <-. split; reflexivity.
Defined.

(** ** The solver component: clicks *)

Lemma initialCell_initialCells board row col :
  initialCell (initialCells board) row col = true ↔
  ∃ n, cell board (row, col) = Some (Num n).
Proof.
  unfold initialCell, initialCells, cell. simpl. rewrite list_lookup_fmap.
  destruct (board !! row) as [cells|]; simpl; [|naive_solver].
  rewrite list_lookup_fmap. destruct (cells !! col) as [[|n]|]; simpl; naive_solver.
Qed.

Lemma rendered_onBoard board p :
  board9x9 board → is_Some (cell board p) → onBoard p.
Proof.
  intros [Hlen Hrows] [x Hx]. unfold cell in Hx.
  destruct (board !! p.1) as [cells|] eqn:Hrow; [|done]. simpl in Hx.
  pose proof (lookup_lt_Some _ _ _ Hrow) as H1.
  pose proof (lookup_lt_Some _ _ _ Hx) as H2.
  rewrite Forall_lookup in Hrows. rewrite (Hrows _ _ Hrow) in H2.
  split; lia.
Qed.

Lemma assignAt_lt {A} (l : list A) i x :
  i < length l → assignAt l i x = Some (<[i := x]> l).
Proof. intros Hi. unfold assignAt. by rewrite decide_True. Qed.

Lemma handleNumberClick_place num s row col :
  board9x9 (SolverBoard.sb_board s) →
  SolverBoard.sb_selectedCell s = Some (row, col) → onBoard (row, col) →
  initialCell (SolverBoard.sb_initialBoardState s) row col = false →
  SolverBoard.handleNumberClick num s =
    Done (SolverBoard.setBoard
            (place (SolverBoard.sb_board s) row col
               (if strict_eq_num (cell (SolverBoard.sb_board s) (row, col)) num
                then Null else Num num)) s).
Proof.
  intros Hb Hsel Hp Hinit. unfold SolverBoard.handleNumberClick.
  rewrite Hsel, Hinit.
  destruct (cell_is_Some _ (row, col) Hb Hp) as [x Hx]. unfold cell in *. simpl in *.
  destruct (SolverBoard.sb_board s !! row) as [cells|] eqn:Hrow; [|done].
  simpl in *. rewrite assignAt_lt by by eapply lookup_lt_Some.
  by rewrite (place_insert _ _ _ _ cells).
Qed.

Lemma extends_trans b1 b2 b3 : extends b1 b2 → extends b2 b3 → extends b1 b3.
Proof. intros H1 H2 p v Hp. by apply H2, H1. Qed.

Lemma handleNumberClick_invariant num s s' :
  solverInvariant s → SolverBoard.handleNumberClick num s = Done s' →
  solverInvariant s'.
Proof.
  intros Hinv Hclick. pose proof Hinv as (Hb & Hext & Hinit & Hsolving & Hsel).
  unfold SolverBoard.handleNumberClick in Hclick.
  destruct (SolverBoard.sb_selectedCell s) as [[row col]|] eqn:Hs;
    [|by injection Hclick as <-].
  destruct (initialCell (SolverBoard.sb_initialBoardState s) row col) eqn:Hgiven;
    [by injection Hclick as <-|].
  pose proof (handleNumberClick_place num s row col Hb Hs (Hsel _ eq_refl) Hgiven)
    as Hplace.
  unfold SolverBoard.handleNumberClick in Hplace. rewrite Hs, Hgiven in Hplace.
  rewrite Hplace in Hclick. injection Hclick as <-.
  split; [by apply place_board9x9|]. split; [|by rewrite <- Hs in Hsel].
  intros p v Hp. simpl. rewrite cell_place_ne; [by apply Hext|].
  intros ->. rewrite Hinit in Hgiven.
  assert (initialCell (initialCells exampleBoard) row col = true) as Htrue
    by (apply initialCell_initialCells; eauto).
  congruence.
Qed.

(** What every state of a session satisfies. *)
Lemma uiStep_invariant s :
  rtc SolverBoard.uiStep (SolverBoard.resetBoard SolverBoard.initialState) s →
  solverInvariant s.
Proof.
  assert (board9x9 exampleBoard) as Hex
    by (apply (bool_decide_unpack _); vm_compute; exact I).
  intros Hrun. revert s Hrun. apply rtc_ind_r.
  { split; [done|]. split; [by intros p v|]. done. }
  intros s s' _ Hstep Hinv. pose proof Hinv as (Hb & Hext & Hinit & Hsolving & Hsel).
  destruct Hstep as [s row col Hcell|s num s' _ _ Hclick|s s' _ Hclear
                    |s s' _ Hsolve|s _].
  - unfold SolverBoard.handleCellClick.
    destruct (initialCell _ _ _); [done|]. unfold solverInvariant. simpl.
    repeat (split; [done|]). intros p [= <-]. by apply (rendered_onBoard _ _ Hb).
  - by eapply handleNumberClick_invariant.
  - unfold SolverBoard.handleClearClick in Hclear.
    destruct (SolverBoard.sb_selectedCell s) eqn:Hs.
    + by eapply handleNumberClick_invariant.
    + by injection Hclear as <-.
  - unfold SolverBoard.handleSolveClick in Hsolve. rewrite Hsolving in Hsolve.
    destruct (solveSudoku (SolverBoard.sb_board s)) as [[t o]|] eqn:Hrun; [|done].
    injection Hsolve as <-. unfold solverInvariant. simpl.
    split; [|split; [|done]].
    + apply (finalBoard_invariant board9x9 _ _ _ _ Hrun).
      by eapply solve_trace_9x9.
    + apply (extends_trans _ (SolverBoard.sb_board s)); [done|].
      apply (finalBoard_invariant (extends (SolverBoard.sb_board s)) _ _ _ _ Hrun).
      by eapply solve_trace_extends.
  - unfold solverInvariant. simpl. split; [done|]. split; [by intros p v|]. done.
Qed.

(** X20.  In the solver component the cells of the puzzle cannot be
    changed.  After any sequence of cell clicks, number buttons, Clear, Solve
    and New Puzzle, starting from the board the component shows first, the
    board has nine rows of nine cells and every given of the sample puzzle
    still holds its value; and the next number button, Clear or Solve
    returns without throwing. *)
Theorem solver_session_keeps_givens s :
  rtc SolverBoard.uiStep (SolverBoard.resetBoard SolverBoard.initialState) s →
  board9x9 (SolverBoard.sb_board s) ∧
  extends exampleBoard (SolverBoard.sb_board s) ∧
  (∀ num, ∃ s', SolverBoard.handleNumberClick num s = Done s') ∧
  (∃ s', SolverBoard.handleClearClick s = Done s') ∧
  (∃ s', SolverBoard.handleSolveClick s = Some s').
Proof.
  intros (Hb & Hext & Hinit & Hsolving & Hsel)%uiStep_invariant.
  split; [done|]. split; [done|].
  assert (∀ num, ∃ s', SolverBoard.handleNumberClick num s = Done s') as Hnum.
  { intros num. destruct (SolverBoard.sb_selectedCell s) as [[row col]|] eqn:Hs.
    2:{ unfold SolverBoard.handleNumberClick. rewrite Hs. eauto. }
    destruct (initialCell (SolverBoard.sb_initialBoardState s) row col) eqn:Hgiven.
    { unfold SolverBoard.handleNumberClick. rewrite Hs, Hgiven. eauto. }
    rewrite (handleNumberClick_place num s row col) by auto. eauto. }
  split; [done|]. split.
  - unfold SolverBoard.handleClearClick.
    destruct (SolverBoard.sb_selectedCell s); eauto.
  - unfold SolverBoard.handleSolveClick. rewrite Hsolving.
    destruct (solveSudoku_ends (SolverBoard.sb_board s)) as [[t o] ->]. eauto.
Qed.

Lemma clearedState_reached :
  rtc SolverBoard.uiStep (SolverBoard.resetBoard SolverBoard.initialState) clearedState.
Proof.
  eapply rtc_l; [apply (SolverBoard.ui_cell _ 0 2); vm_compute; eauto|].
  eapply rtc_l; [apply (SolverBoard.ui_number _ 4);
                 [reflexivity|lia|vm_compute; reflexivity]|].
  eapply rtc_l; [apply SolverBoard.ui_clear;
                 [reflexivity|vm_compute; reflexivity]|].
  vm_compute. apply rtc_refl.
Qed.

Lemma solver_session_keeps_givens_witness :
  rtc SolverBoard.uiStep (SolverBoard.resetBoard SolverBoard.initialState) clearedState ∧
  cell (SolverBoard.sb_board clearedState) (0, 2) = Some (Num 0) ∧
  board9x9 (SolverBoard.sb_board clearedState) ∧
  extends exampleBoard (SolverBoard.sb_board clearedState).
Proof.
  split; [exact clearedState_reached|]. split; [reflexivity|].
  destruct (solver_session_keeps_givens clearedState clearedState_reached)
    as (Hb & Hext & _).
  split; [exact Hb|exact Hext].
Defined.

(** X21.  Clear does not empty a cell for the solver.  On a 9×9 board with
    a selected cell that is not a given and does not hold 0, Clear writes the
    number 0, not [null]; the solver takes a 0 for a filled cell, so that the
    board a following Solve ends on still holds 0 there and is no solved
    grid, whatever the run returns. *)
Theorem clear_leaves_zero s row col :
  board9x9 (SolverBoard.sb_board s) →
  SolverBoard.sb_selectedCell s = Some (row, col) → onBoard (row, col) →
  initialCell (SolverBoard.sb_initialBoardState s) row col = false →
  SolverBoard.sb_isSolving s = false →
  cell (SolverBoard.sb_board s) (row, col) ≠ Some (Num 0) →
  ∃ s1 s2,
    SolverBoard.handleClearClick s = Done s1 ∧
    SolverBoard.sb_board s1 = place (SolverBoard.sb_board s) row col (Num 0) ∧
    SolverBoard.handleSolveClick s1 = Some s2 ∧
    cell (SolverBoard.sb_board s2) (row, col) = Some (Num 0) ∧
    ¬ allUnitsPermutation (SolverBoard.sb_board s2).
Proof.
  intros Hb Hsel Hp Hgiven Hsolving Hcell.
  assert (strict_eq_num (cell (SolverBoard.sb_board s) (row, col)) 0 = false) as Hne.
  { destruct (cell _ _) as [[|n]|]; simpl; [done| |done].
    apply bool_decide_eq_false. congruence. }
  set (b1 := place (SolverBoard.sb_board s) row col (Num 0)).
  assert (board9x9 b1) as Hb1 by by apply place_board9x9.
  destruct (solveSudoku_total b1 Hb1) as (t & r & Hrun).
  assert (cell (finalBoard b1 t) (row, col) = Some (Num 0)) as Hzero.
  { apply (finalBoard_invariant (extends b1) _ _ _ _ Hrun).
    - by eapply solve_trace_extends.
    - apply cell_place_eq. by apply cell_is_Some. }
  exists (SolverBoard.setBoard b1 s),
         (SolverBoard.mkState (finalBoard b1 t) (SolverBoard.sb_initialBoardState s)
            (SolverBoard.sb_selectedCell s) false).
  split.
  { unfold SolverBoard.handleClearClick. rewrite Hsel.
    rewrite (handleNumberClick_place 0 s row col) by done. by rewrite Hne. }
  split; [done|]. split.
  { unfold SolverBoard.handleSolveClick. simpl. by rewrite Hsolving, Hrun. }
  split; [done|]. simpl.
  intros Hperm. destruct (allUnitsPermutation_cell _ (row, col) Hperm Hp)
    as (n & Hn & Hin).
  rewrite Hzero in Hn. injection Hn as <-. apply elem_of_seqZ in Hin. lia.
Qed.

Lemma clear_leaves_zero_witness :
  ∃ s1 s2,
    SolverBoard.handleClearClick
      (SolverBoard.mkState nearlySolvedBoard (initialCells exampleBoard)
         (Some (0, 2)) false) = Done s1 ∧
    SolverBoard.handleSolveClick s1 = Some s2 ∧
    cell (SolverBoard.sb_board s2) (0, 2) = Some (Num 0) ∧
    ¬ allUnitsPermutation (SolverBoard.sb_board s2).
Proof.
  destruct (clear_leaves_zero
              (SolverBoard.mkState nearlySolvedBoard (initialCells exampleBoard)
                 (Some (0, 2)) false) 0 2)
    as (s1 & s2 & H1 & _ & H2 & H3 & H4).
  - apply (bool_decide_unpack _); vm_compute; exact I.
  - reflexivity.
  - split; simpl; lia.
  - reflexivity.
  - reflexivity.
  - vm_compute. discriminate.
  - exists s1, s2. split; [exact H1|]. split; [exact H2|]. split; [exact H3|exact H4].
Defined.

(** ** The game component: clicks and keys *)

Lemma imap_alter_row {A} (f : A → A) (row : nat) (l : list A) :
  imap (λ rIdx r, if bool_decide (rIdx = row) then f r else r) l = alter f row l.
Proof.
  apply list_eq. intros i. rewrite list_lookup_imap.
  destruct (decide (i = row)) as [->|Hne].
  - rewrite list_lookup_alter_eq. destruct (l !! row); [|done]. simpl.
    by rewrite bool_decide_eq_true_2.
  - rewrite list_lookup_alter_ne by done. destruct (l !! i); [|done]. simpl.
    by rewrite bool_decide_eq_false_2.
Qed.

Lemma sliceFrom_nat {A} (l : list A) (k : nat) : sliceFrom l (Z.of_nat k) = drop k l.
Proof.
  unfold sliceFrom. rewrite (slice_nat l k (length l)).
  apply take_ge. rewrite length_drop. lia.
Qed.

(** Within the row the splice replaces the cell; at its end and further
    out it appends one. *)
Lemma spliceCell_insert {A} (r : list A) col x :
  spliceCell r col x = if decide (col < length r) then <[col := x]> r else r ++ [x].
Proof.
  unfold spliceCell. rewrite slice_0.
  replace (Z.of_nat col + 1)%Z with (Z.of_nat (S col)) by lia.
  rewrite sliceFrom_nat. case_decide.
  - by rewrite insert_take_drop.
  - by rewrite take_ge, drop_ge by lia.
Qed.

Lemma marks9x9_insert pm row col marksRow x :
  marks9x9 pm → pm !! row = Some marksRow →
  marks9x9 (<[row := <[col := x]> marksRow]> pm).
Proof.
  intros [Hlen Hrows] Hrow. split; [by rewrite length_insert|].
  apply Forall_insert; [done|]. rewrite length_insert.
  by eapply Forall_lookup_1 in Hrows.
Qed.

Lemma marks9x9_lookup pm p :
  marks9x9 pm → onBoard p → ∃ marksRow marks,
    pm !! p.1 = Some marksRow ∧ marksRow !! p.2 = Some marks ∧ length marksRow = 9.
Proof.
  intros [Hlen Hrows] [Hr Hc].
  destruct (lookup_lt_is_Some_2 pm p.1) as [marksRow Hrow]; [lia|].
  assert (length marksRow = 9) as Hl by by eapply Forall_lookup_1 in Hrows.
  destruct (lookup_lt_is_Some_2 marksRow p.2) as [marks Hmarks]; [lia|].
  eauto.
Qed.

Lemma board9x9_lookup board p :
  board9x9 board → onBoard p → ∃ cells,
    board !! p.1 = Some cells ∧ length cells = 9.
Proof.
  intros [Hlen Hrows] [Hr Hc].
  destruct (lookup_lt_is_Some_2 board p.1) as [cells Hrow]; [lia|].
  exists cells. split; [done|]. by eapply Forall_lookup_1 in Hrows.
Qed.

Lemma extends_place_free newBoard board row col v :
  extends newBoard board → initialCell (initialCells newBoard) row col = false →
  extends newBoard (place board row col v).
Proof.
  intros Hext Hfree p w Hp. rewrite cell_place_ne; [by apply Hext|].
  intros ->. assert (initialCell (initialCells newBoard) row col = true) as Htrue
    by (apply initialCell_initialCells; eauto).
  congruence.
Qed.

Section game_facts.
Context {Text : Type} `{EqDecision Text}.
Variable stringifyBoard : BoardType → Text.
Variable stringifyMarks : list (list PencilMarks) → Text.
Variable getHint : SudokuBoard → Solution.

(** On a cell of a 9×9 board that is no given, [handleClearCell] is the
    write of [null]. *)
Lemma handleClearCell_place s row col :
  board9x9 (st_board (gs_edit s)) → marks9x9 (st_pencilMarks (gs_edit s)) →
  gs_selectedCell s = Some (row, col) → onBoard (row, col) →
  initialCell (gs_initialBoardState s) row col = false →
  handleClearCell stringifyBoard stringifyMarks s =
    withEdit (setBoardAndMarks (place (st_board (gs_edit s)) row col Null)
                (alter (λ r, <[col := []]> r) row (st_pencilMarks (gs_edit s)))
                (gs_edit s)) s.
Proof.
  intros Hb Hm Hsel Hp Hgiven. unfold handleClearCell. rewrite Hsel, Hgiven.
  rewrite (saveToHistory_current stringifyBoard stringifyMarks).
  rewrite !imap_alter_row. f_equal. f_equal.
  - unfold place. apply list_alter_ext; [|done]. intros cells Hcells.
    rewrite spliceCell_insert. rewrite decide_True; [done|].
    destruct (board9x9_lookup _ (row, col) Hb Hp) as (cells' & Hrow & Hlen).
    simpl in *. destruct Hp. simpl in *. assert (cells' = cells) as -> by congruence. lia.
  - apply list_alter_ext; [|done]. intros marksRow Hrow.
    rewrite spliceCell_insert. rewrite decide_True; [done|].
    destruct (marks9x9_lookup _ (row, col) Hm Hp) as (r' & marks & Hrow' & _ & Hlen).
    simpl in *. destruct Hp. simpl in *. assert (r' = marksRow) as -> by congruence. lia.
Qed.

Lemma gameShape_withEdit newBoard s b pm :
  gameShape newBoard s → board9x9 b → marks9x9 pm →
  gameShape newBoard (withEdit (setBoardAndMarks b pm (gs_edit s)) s).
Proof.
  intros (Hb & Hm & Hinit & Hsel & Hh & Hi & Hf) Hb' Hm'.
  unfold gameShape. simpl. done.
Qed.

Lemma marks9x9_alter pm row col :
  marks9x9 pm → marks9x9 (alter (λ r, <[col := []]> r) row pm).
Proof.
  intros [Hlen Hrows]. split; [by rewrite length_alter|].
  apply Forall_alter; [done|]. intros r Hr _. rewrite length_insert.
  by eapply Forall_lookup_1 in Hrows.
Qed.

Lemma handleClearCell_shape newBoard s :
  gameShape newBoard s →
  gameShape newBoard (handleClearCell stringifyBoard stringifyMarks s) ∧
  (extends newBoard (st_board (gs_edit s)) →
   extends newBoard
     (st_board (gs_edit (handleClearCell stringifyBoard stringifyMarks s)))).
Proof.
  intros Hshape. pose proof Hshape as (Hb & Hm & Hinit & Hsel & Hh & Hi & Hf).
  destruct (gs_selectedCell s) as [[row col]|] eqn:Hs.
  2:{ unfold handleClearCell. by rewrite Hs. }
  destruct (initialCell (gs_initialBoardState s) row col) eqn:Hgiven.
  { unfold handleClearCell. by rewrite Hs, Hgiven. }
  rewrite (handleClearCell_place s row col) by auto. split.
  - apply gameShape_withEdit; [done|by apply place_board9x9|by apply marks9x9_alter].
  - simpl. intros Hext. apply extends_place_free; [done|]. by rewrite <- Hinit.
Qed.

Lemma togglePencilMark_shape pm row col num pm' :
  marks9x9 pm → togglePencilMark pm row col num = Ok pm' → marks9x9 pm'.
Proof.
  intros Hm. unfold togglePencilMark.
  destruct (pm !! row) as [marksRow|] eqn:Hrow; [|done].
  destruct (marksRow !! col) as [marks|]; [|done].
  intros [= <-]. by apply marks9x9_insert.
Qed.

Lemma handleNumberClick_shape newBoard num s s' :
  gameShape newBoard s →
  handleNumberClick stringifyBoard stringifyMarks getHint num s = Done s' →
  gameShape newBoard s' ∧
  (extends newBoard (st_board (gs_edit s)) → extends newBoard (st_board (gs_edit s'))).
Proof.
  intros Hshape. pose proof Hshape as (Hb & Hm & Hinit & Hsel & Hh & Hi & Hf).
  unfold handleNumberClick.
  destruct (gs_selectedCell s) as [[row col]|] eqn:Hs; [|by intros [= <-]].
  destruct (initialCell (gs_initialBoardState s) row col) eqn:Hgiven;
    [by intros [= <-]|].
  rewrite (saveToHistory_current stringifyBoard stringifyMarks).
  assert (onBoard (row, col)) as Hp by by apply Hsel.
  destruct (gs_isPencilMode s) eqn:Hmode.
  { destruct (togglePencilMark _ _ _ _) as [pm'|] eqn:Htoggle; [|done].
    intros [= <-]. split; [|done].
    apply togglePencilMark_shape in Htoggle; [|done].
    by apply gameShape_withEdit. }
  destruct (marks9x9_lookup _ (row, col) Hm Hp) as (marksRow & marks & Hrow & _ & Hlen).
  destruct (board9x9_lookup _ (row, col) Hb Hp) as (cells & Hcells & Hlenc).
  simpl in Hrow, Hcells. rewrite Hrow, Hcells.
  rewrite !assignAt_lt by (destruct Hp; simpl in *; lia).
  set (v := if strict_eq_num (cells !! col) num then Null else Num num).
  rewrite <- (place_insert _ _ _ _ _ Hcells).
  assert (∀ score achievements,
    gameShape newBoard
      (mkGame (setBoardAndMarks (place (st_board (gs_edit s)) row col v)
                 (<[row := <[col := []]> marksRow]> (st_pencilMarks (gs_edit s)))
                 (gs_edit s))
         false (gs_initialBoardState s) (Some (row, col))
         score achievements)) as Hnew.
  { intros score achievements. unfold gameShape. simpl.
    split; [by apply place_board9x9|]. split; [by apply marks9x9_insert|]. done. }
  assert (extends newBoard (st_board (gs_edit s)) →
          extends newBoard (place (st_board (gs_edit s)) row col v)) as Hext.
  { intros Hext. apply extends_place_free; [done|]. by rewrite <- Hinit. }
  cbv zeta. fold v.
  destruct (sol_steps _) as [[|hintStep ?]|]; try (by intros [= <-]).
  destruct (step_updates hintStep) as [|update ?]; [done|].
  destruct (_ && _); by intros [= <-].
Qed.

Lemma otherKey_shape newBoard e s :
  gameShape newBoard s →
  ∃ s', otherKey e s = Done s' ∧ gameShape newBoard s' ∧
    st_board (gs_edit s') = st_board (gs_edit s).
Proof.
  intros Hshape. pose proof Hshape as (Hb & Hm & Hinit & Hsel & Hh & Hi & Hf).
  unfold otherKey. rewrite undo_no_history, redo_no_future by done.
  assert (withEdit (gs_edit s) s = s) as -> by by destruct s.
  repeat case_match; eauto.
Qed.

Lemma setSelectedCell_shape newBoard p s :
  gameShape newBoard s → onBoard p → gameShape newBoard (setSelectedCell p s).
Proof.
  intros (Hb & Hm & Hinit & Hsel & Hh & Hi & Hf) Hp. unfold gameShape. simpl.
  repeat (split; [done|]). split; [|done]. by intros ? [= <-].
Qed.

Lemma handleKeyDown_other_shape newBoard e s :
  gameShape newBoard s → digitKey (ev_key e) = None →
  ∃ s', handleKeyDown stringifyBoard stringifyMarks e s = Done s' ∧
    gameShape newBoard s' ∧
    (extends newBoard (st_board (gs_edit s)) →
     extends newBoard (st_board (gs_edit s'))).
Proof.
  intros Hshape Hkey. pose proof Hshape as (Hb & Hm & Hinit & Hsel & Hh & Hi & Hf).
  destruct (otherKey_shape newBoard e s Hshape) as (s1 & Hother & Hshape1 & Hboard1).
  unfold handleKeyDown. rewrite Hkey.
  destruct (gs_selectedCell s) as [[row col]|] eqn:Hs.
  2:{ exists s1. rewrite Hboard1. eauto. }
  assert (onBoard (row, col)) as [Hr Hc] by by apply Hsel. simpl in Hr, Hc.
  destruct (_ || _).
  { eexists. split; [done|]. by apply handleClearCell_shape. }
  repeat case_match; try (exists s1; rewrite Hboard1; by eauto);
    (eexists; split; [done|]; split; [|done]);
    try done; apply setSelectedCell_shape; try done; split; simpl; lia.
Qed.

Lemma handleKeyDown_digit_place e num s row col :
  board9x9 (st_board (gs_edit s)) → marks9x9 (st_pencilMarks (gs_edit s)) →
  digitKey (ev_key e) = Some num →
  gs_selectedCell s = Some (row, col) → onBoard (row, col) →
  gs_isPencilMode s = false →
  handleKeyDown stringifyBoard stringifyMarks e s =
    Done (withEdit
            (setBoardAndMarks (place (st_board (gs_edit s)) row col (Num num))
               (alter (λ r, <[col := []]> r) row (st_pencilMarks (gs_edit s)))
               (gs_edit s)) s).
Proof.
  intros Hb Hm Hkey Hs Hp Hmode. unfold handleKeyDown. rewrite Hkey, Hs, Hmode.
  destruct (marks9x9_lookup _ (row, col) Hm Hp) as (marksRow & marks & Hrow & _ & Hlen).
  destruct (board9x9_lookup _ (row, col) Hb Hp) as (cells & Hcells & Hlenc).
  simpl in Hrow, Hcells. rewrite Hrow, Hcells.
  rewrite !assignAt_lt by (destruct Hp; simpl in *; lia).
  rewrite <- (place_insert _ _ _ _ _ Hcells).
  do 3 f_equal. apply list_eq. intros i. destruct (decide (i = row)) as [->|Hne].
  - by rewrite list_lookup_insert_eq, list_lookup_alter_eq, Hrow
      by by eapply lookup_lt_Some.
  - by rewrite list_lookup_insert_ne, list_lookup_alter_ne.
Qed.

Lemma handleKeyDown_digit_shape newBoard e num s :
  gameShape newBoard s → digitKey (ev_key e) = Some num →
  ∃ s', handleKeyDown stringifyBoard stringifyMarks e s = Done s' ∧
    gameShape newBoard s'.
Proof.
  intros Hshape Hkey. pose proof Hshape as (Hb & Hm & Hinit & Hsel & Hh & Hi & Hf).
  destruct (gs_selectedCell s) as [[row col]|] eqn:Hs.
  2:{ destruct (otherKey_shape newBoard e s Hshape) as (s1 & Hother & Hshape1 & _).
      exists s1. unfold handleKeyDown. by rewrite Hkey, Hs. }
  assert (onBoard (row, col)) as Hp by by apply Hsel.
  destruct (gs_isPencilMode s) eqn:Hmode.
  - unfold handleKeyDown. rewrite Hkey, Hs, Hmode.
    destruct (marks9x9_lookup _ (row, col) Hm Hp) as (marksRow & marks & Hrow & Hmarks & _).
    simpl in Hrow, Hmarks.
    destruct (togglePencilMark _ _ _ _) as [pm'|] eqn:Htoggle.
    + eexists. split; [done|]. apply gameShape_withEdit; [done..|].
      by eapply togglePencilMark_shape.
    + unfold togglePencilMark in Htoggle. by rewrite Hrow, Hmarks in Htoggle.
  - rewrite (handleKeyDown_digit_place e num s row col) by done.
    eexists. split; [done|].
    apply gameShape_withEdit; [done|by apply place_board9x9|by apply marks9x9_alter].
Qed.

Lemma resetBoard_shape generated s0 :
  board9x9 (to2D generated) → gameShape (to2D generated) (resetBoard generated s0).
Proof.
  intros Hb. unfold gameShape. simpl. split; [done|]. split; [|done].
  split; [done|]. by repeat constructor.
Qed.

Lemma gameStep_invariant generated s0 s :
  board9x9 (to2D generated) →
  rtc (gameStep stringifyBoard stringifyMarks getHint) (resetBoard generated s0) s →
  gameShape (to2D generated) s ∧ extends (to2D generated) (st_board (gs_edit s)).
Proof.
  intros Hb Hrun. revert s Hrun. apply rtc_ind_r.
  { split; [by apply resetBoard_shape|]. by intros p v. }
  intros s s' _ Hstep [Hshape Hext].
  destruct Hstep as [s row col Hcell|s num s' _ Hclick|s|s|s e s' Hkey Hdown].
  - unfold handleCellClick. destruct (initialCell _ _ _); [done|].
    split; [|done]. apply setSelectedCell_shape; [done|].
    eapply rendered_onBoard; [|done]. apply Hshape.
  - destruct (handleNumberClick_shape _ _ _ _ Hshape Hclick). auto.
  - destruct (handleClearCell_shape _ _ Hshape). auto.
  - split; [|done]. destruct Hshape as (? & ? & ? & ? & ? & ? & ?).
    unfold gameShape. simpl. done.
  - destruct (handleKeyDown_other_shape _ e s Hshape Hkey) as (s1 & Hs1 & ? & ?).
    assert (s1 = s') as -> by congruence. auto.
Qed.

(** X22.  Short of typing a digit, nothing a player does changes a given.
    After any sequence of cell clicks, number buttons, Clear, pencil button
    and keys other than digits, on a generated puzzle of nine rows of nine
    cells, the board has nine rows of nine cells, every given still holds its
    value, the selected cell lies on the board, and no key pressed next,
    digits included, makes the handler throw. *)
Theorem game_keeps_givens generated s0 s :
  board9x9 (to2D generated) →
  rtc (gameStep stringifyBoard stringifyMarks getHint) (resetBoard generated s0) s →
  board9x9 (st_board (gs_edit s)) ∧
  extends (to2D generated) (st_board (gs_edit s)) ∧
  (∀ p, gs_selectedCell s = Some p → onBoard p) ∧
  (∀ e, ∃ s', handleKeyDown stringifyBoard stringifyMarks e s = Done s').
Proof.
  intros Hb Hrun. destruct (gameStep_invariant generated s0 s Hb Hrun) as [Hshape Hext].
  split; [apply Hshape|]. split; [done|]. split; [apply Hshape|].
  intros e. destruct (digitKey (ev_key e)) as [num|] eqn:Hkey.
  - destruct (handleKeyDown_digit_shape _ e num s Hshape Hkey) as (s' & ? & _). eauto.
  - destruct (handleKeyDown_other_shape _ e s Hshape Hkey) as (s' & ? & _). eauto.
Qed.

(** X23.  The keyboard does not protect the givens.  With a given selected
    on a 9×9 board, out of pencil mode, the number buttons and Clear leave
    the state as it is, but a digit key writes its digit into the cell, and
    the cell stays marked as a given. *)
Theorem digit_key_overwrites_given e num s row col :
  board9x9 (st_board (gs_edit s)) → marks9x9 (st_pencilMarks (gs_edit s)) →
  gs_selectedCell s = Some (row, col) → onBoard (row, col) →
  gs_isPencilMode s = false →
  initialCell (gs_initialBoardState s) row col = true →
  digitKey (ev_key e) = Some num →
  handleNumberClick stringifyBoard stringifyMarks getHint num s = Done s ∧
  handleClearCell stringifyBoard stringifyMarks s = s ∧
  ∃ s', handleKeyDown stringifyBoard stringifyMarks e s = Done s' ∧
    st_board (gs_edit s') = place (st_board (gs_edit s)) row col (Num num) ∧
    cell (st_board (gs_edit s')) (row, col) = Some (Num num) ∧
    initialCell (gs_initialBoardState s') row col = true.
Proof.
  intros Hb Hm Hs Hp Hmode Hgiven Hkey.
  split; [unfold handleNumberClick; by rewrite Hs, Hgiven|].
  split; [unfold handleClearCell; by rewrite Hs, Hgiven|].
  rewrite (handleKeyDown_digit_place e num s row col) by done.
  eexists. split; [done|]. simpl. split; [done|]. split; [|done].
  apply cell_place_eq. by apply cell_is_Some.
Qed.

End game_facts.

Lemma givenSelected_reached :
  rtc (gameStep (Text := sampleText) inl inr noHint)
    (resetBoard (to1D exampleBoard)
       (mkGame (resetEdit []) false [] None 0 ALL_ACHIEVEMENTS))
    givenSelected.
Proof.
  eapply rtc_l; [apply (game_cell _ _ _ _ 0 2); vm_compute; eauto|].
  eapply rtc_l;
    [apply (game_key _ _ _ _ (mkKeyboardEvent "ArrowLeft" false false false));
     [reflexivity|vm_compute; reflexivity]|].
  eapply rtc_l;
    [apply (game_key _ _ _ _ (mkKeyboardEvent "ArrowLeft" false false false));
     [reflexivity|vm_compute; reflexivity]|].
  vm_compute. apply rtc_refl.
Qed.

Lemma game_keeps_givens_witness :
  board9x9 (to2D (to1D exampleBoard)) ∧
  rtc (gameStep (Text := sampleText) inl inr noHint)
    (resetBoard (to1D exampleBoard)
       (mkGame (resetEdit []) false [] None 0 ALL_ACHIEVEMENTS))
    givenSelected ∧
  gs_selectedCell givenSelected = Some (0, 0) ∧
  extends (to2D (to1D exampleBoard)) (st_board (gs_edit givenSelected)).
Proof.
  assert (board9x9 (to2D (to1D exampleBoard))) as Hb
    by (apply (bool_decide_unpack _); vm_compute; exact I).
  split; [exact Hb|]. split; [exact givenSelected_reached|]. split; [reflexivity|].
  destruct (game_keeps_givens inl inr noHint (to1D exampleBoard) _ givenSelected Hb
              givenSelected_reached) as (_ & Hext & _).
  exact Hext.
Defined.

Lemma digit_key_overwrites_given_witness :
  cell exampleBoard (0, 0) = Some (Num 5) ∧
  ∃ s', handleKeyDown (Text := sampleText) inl inr
          (mkKeyboardEvent "9" false false false) givenSelected = Done s' ∧
    cell (st_board (gs_edit s')) (0, 0) = Some (Num 9) ∧
    initialCell (gs_initialBoardState s') 0 0 = true.
Proof.
  split; [reflexivity|].
  destruct (digit_key_overwrites_given (Text := sampleText) inl inr noHint
              (mkKeyboardEvent "9" false false false) 9 givenSelected 0 0)
    as (_ & _ & s' & Hdown & _ & Hcell & Hgiven).
  - apply (bool_decide_unpack _); vm_compute; exact I.
  - split; [reflexivity|]. repeat constructor.
  - reflexivity.
  - split; simpl; lia.
  - reflexivity.
  - reflexivity.
  - reflexivity.
  - exists s'. split; [exact Hdown|]. split; [exact Hcell|exact Hgiven].
Defined.

(** ** The learning mode *)

(** What the states of the learning mode over the steps [out] have in
    common. *)
Lemma learnStep_invariant out score s1 s :
  (∃ k st, ls_currentStepIndex s1 = Z.of_nat k ∧ out !! k = Some st ∧
     ls_board s1 = ss_board st) →
  ls_solutionSteps s1 = out → ls_isStepMode s1 = true → ls_score s1 = score →
  rtc learnStep s1 s →
  (∃ k st, ls_currentStepIndex s = Z.of_nat k ∧ out !! k = Some st ∧
     ls_board s = ss_board st) ∧
  ls_solutionSteps s = out ∧ ls_isStepMode s = true ∧ ls_score s = score.
Proof.
  intros H1 H2 H3 H4 Hrun. revert s Hrun. apply rtc_ind_r; [done|].
  intros s s' _ Hstep ((k & st & Hk & Hst & Hboard) & Hsteps & Hmode & Hscore).
  destruct Hstep as [s|s].
  - unfold handlePreviousStep. case_decide as Hlt; [|by eauto 10].
    unfold showCurrentStep. simpl. rewrite decide_True by lia.
    destruct k as [|k]; [lia|].
    replace (Z.to_nat (ls_currentStepIndex s - 1)) with k by lia.
    assert (is_Some (out !! k)) as [st' Hst'].
    { apply lookup_lt_is_Some. apply lookup_lt_Some in Hst. lia. }
    rewrite Hsteps, Hst'. simpl. split; [|done]. exists k, st'. split; [lia|done].
  - unfold handleNextStep. case_decide as Hlt; [|by eauto 10].
    unfold showCurrentStep. simpl. rewrite decide_True by lia.
    replace (Z.to_nat (ls_currentStepIndex s + 1)) with (S k) by lia.
    assert (is_Some (out !! S k)) as [st' Hst'].
    { apply lookup_lt_is_Some. rewrite Hsteps in Hlt. lia. }
    rewrite Hsteps, Hst'. simpl. split; [|done]. exists (S k), st'. split; [lia|done].
Qed.

Lemma learnStep_reaches out s1 k st :
  ls_solutionSteps s1 = out → ls_currentStepIndex s1 = 0%Z →
  out !! k = Some st →
  ∃ s, rtc learnStep s1 s ∧ ls_currentStepIndex s = Z.of_nat k ∧
    ls_solutionSteps s = out.
Proof.
  intros Hsteps Hzero. revert st. induction k as [|k IH]; intros st Hst.
  { exists s1. split; [apply rtc_refl|]. split; [by rewrite Hzero|done]. }
  assert (is_Some (out !! k)) as [st' Hst'].
  { apply lookup_lt_is_Some. apply lookup_lt_Some in Hst. lia. }
  destruct (IH st' Hst') as (s & Hrun & Hk & Hout).
  exists (handleNextStep s). split; [eapply rtc_r; [done|apply learn_next]|].
  unfold handleNextStep. apply lookup_lt_Some in Hst.
  rewrite decide_True by (rewrite Hout; lia).
  unfold showCurrentStep. simpl. rewrite decide_True by lia.
  destruct (ls_solutionSteps s !! _); simpl; split; (lia || done).
Qed.

(** X24.  In the learning mode the board on display is always a board of
    the external solver.  When the solver reports a solved 9×9 puzzle with at
    least one step, each with an update, [handleShowMeHow] returns, adds 25
    to the score, and from then on, through any sequence of Previous and
    Next, the index stays within the steps and the board on display is the
    2D form of the solver's board after the first update of each step up to
    the current one; so the first board shown already holds the first
    placement.  Every step can be reached. *)
Theorem learning_mode_shows_solver_boards solver s0 steps out :
  board9x9 (ls_board s0) → ls_isSolving s0 = false →
  solver (to1D (ls_board s0)) = mkSolution true (Some steps) →
  generateSolutionSteps solver (ls_board s0) = Ok out → out ≠ [] →
  ∃ s1, handleShowMeHow solver s0 = Done s1 ∧
    (∀ s, rtc learnStep s1 s →
       ∃ k board1D, ls_currentStepIndex s = Z.of_nat k ∧
         replay1D (to1D (ls_board s0)) steps !! k = Some board1D ∧
         ls_board s = to2D board1D ∧
         ls_isStepMode s = true ∧ ls_score s = (ls_score s0 + 25)%Z) ∧
    (∀ k, k < length steps →
       ∃ s, rtc learnStep s1 s ∧ ls_currentStepIndex s = Z.of_nat k).
Proof.
  intros Hb Hsolving Hsol Hgen Hne.
  pose proof Hgen as Hreplay. unfold generateSolutionSteps in Hreplay.
  rewrite Hsol in Hreplay. simpl in Hreplay.
  apply replaySteps_boards in Hreplay as (Hboards & Hall & Hlen); [|done].
  destruct out as [|st0 out'] eqn:Hout; [done|]. rewrite <- Hout in *.
  assert (out !! 0 = Some st0) as Hst0 by by rewrite Hout.
  set (s1 := mkLearn (ss_board st0) out 0 true false (ls_score s0 + 25)).
  assert (handleShowMeHow solver s0 = Done s1) as Hshow.
  { unfold handleShowMeHow. rewrite Hsolving, Hgen, Hout.
    unfold showCurrentStep. simpl. by rewrite <- Hout. }
  exists s1. split; [done|]. split.
  - intros s Hrun.
    destruct (learnStep_invariant out (ls_score s0 + 25)%Z s1 s)
      as ((k & st & Hk & Hst & Hboard) & _ & Hmode & Hscore); try done.
    { exists 0, st0. done. }
    exists k, (to1D (ss_board st)). split; [done|]. split; [|split; [|done]].
    + by rewrite <- Hboards, list_lookup_fmap, Hst.
    + rewrite Hboard. symmetry. apply to2D_to1D. by eapply Forall_lookup_1 in Hall.
  - intros k Hk.
    assert (is_Some (out !! k)) as [st Hst] by (apply lookup_lt_is_Some; lia).
    destruct (learnStep_reaches out s1 k st) as (s & Hrun & Hidx & _); try done.
    eauto.
Qed.

Lemma learning_mode_shows_solver_boards_witness :
  ∃ s1, handleShowMeHow sampleSolver sampleLearn = Done s1 ∧
    ls_board s1 = place nearlySolvedBoard 0 2 (Num 4) ∧
    ∃ s, rtc learnStep s1 s ∧ ls_currentStepIndex s = 1%Z ∧ ls_board s = solvedBoard.
Proof.
  edestruct (learning_mode_shows_solver_boards sampleSolver sampleLearn sampleSteps)
    as (s1 & Hshow & Hall & Hreach).
  - apply (bool_decide_unpack _); vm_compute; exact I.
  - reflexivity.
  - reflexivity.
  - vm_compute. reflexivity.
  - vm_compute. discriminate.
  - exists s1. split; [exact Hshow|].
    vm_compute in Hshow. injection Hshow as <-. split; [vm_compute; reflexivity|].
    eexists. split; [eapply rtc_l; [apply learn_next|apply rtc_refl]|].
    split; vm_compute; reflexivity.
Defined.

(** ** Pencil marks *)

Lemma ascending_unique l1 l2 : ascending l1 → ascending l2 → l1 ≡ₚ l2 → l1 = l2.
Proof. intros [H1 _] [H2 _] Hperm. by apply (StronglySorted_unique Z.le). Qed.

Lemma StronglySorted_filter_le (P : Z → Prop) `{∀ x, Decision (P x)} (l : list Z) :
  StronglySorted Z.le l → StronglySorted Z.le (filter P l).
Proof.
  induction 1 as [|x l Hl IH Hx]; [constructor|].
  rewrite filter_cons. destruct (decide (P x)); [|done].
  constructor; [done|]. apply Forall_forall. intros y [_ Hy]%list_elem_of_filter.
  rewrite Forall_forall in Hx. auto.
Qed.

Lemma ascending_filter (P : Z → Prop) `{∀ x, Decision (P x)} (l : list Z) :
  ascending l → ascending (filter P l).
Proof.
  intros [Hs Hnd]. split; [by apply StronglySorted_filter_le|by apply NoDup_filter].
Qed.

Lemma filter_ne_id (num : Z) (l : list Z) :
  num ∉ l → filter (λ n, n ≠ num) l = l.
Proof.
  induction l as [|x l IH]; [done|]. intros Hnot.
  rewrite filter_cons, decide_True by (intros ->; apply Hnot; left).
  f_equal. apply IH. intros Hin. apply Hnot. by right.
Qed.

Lemma filter_ne_perm (num : Z) (l : list Z) :
  NoDup l → num ∈ l → filter (λ n, n ≠ num) l ++ [num] ≡ₚ l.
Proof.
  induction 1 as [|x l Hx Hnd IH]; [by intros ?%elem_of_nil|].
  rewrite filter_cons. destruct (decide (x ≠ num)) as [Hne|Heq].
  - intros [?|Hin]%elem_of_cons; [congruence|]. simpl. by rewrite IH.
  - assert (x = num) as -> by (destruct (decide (x = num)); [done|by destruct Heq]).
    intros _. rewrite filter_ne_id by done. by rewrite Permutation_app_comm.
Qed.

(** Adding a missing mark and sorting; removing a mark that is there. *)
Lemma toggle_add (num : Z) (marks : list Z) :
  ascending marks → num ∉ marks →
  ascending (merge_sort Z.le (marks ++ [num])) ∧
  merge_sort Z.le (marks ++ [num]) ≡ₚ marks ++ [num] ∧
  filter (λ n, n ≠ num) (merge_sort Z.le (marks ++ [num])) = marks.
Proof.
  intros Hasc Hnot. pose proof (merge_sort_Permutation Z.le (marks ++ [num])) as Hperm.
  assert (ascending (merge_sort Z.le (marks ++ [num]))) as Hasc1.
  { split; [apply (StronglySorted_merge_sort Z.le)|]. rewrite Hperm.
    apply NoDup_app. split; [apply Hasc|]. split; [|apply NoDup_singleton].
    intros x Hx ->%list_elem_of_singleton. done. }
  split; [done|]. split; [done|].
  apply ascending_unique; [by apply ascending_filter|done|].
  rewrite Hperm, filter_app, filter_ne_id by done.
  rewrite filter_cons, decide_False by naive_solver. simpl.
  by rewrite app_nil_r.
Qed.

Lemma toggle_remove (num : Z) (marks : list Z) :
  ascending marks → num ∈ marks →
  ascending (filter (λ n, n ≠ num) marks) ∧
  ¬ (num ∈ filter (λ n, n ≠ num) marks) ∧
  merge_sort Z.le (filter (λ n, n ≠ num) marks ++ [num]) = marks.
Proof.
  intros Hasc Hin. split; [by apply ascending_filter|]. split.
  { by intros [? _]%list_elem_of_filter. }
  apply ascending_unique; [|done|].
  - split; [apply (StronglySorted_merge_sort Z.le)|].
    rewrite merge_sort_Permutation, filter_ne_perm; [apply Hasc..|done].
  - rewrite merge_sort_Permutation. apply filter_ne_perm; [apply Hasc|done].
Qed.

Lemma togglePencilMark_twice pm row col num marksRow marks :
  pm !! row = Some marksRow → marksRow !! col = Some marks → ascending marks →
  ∃ marks1,
    togglePencilMark pm row col num = Ok (<[row := <[col := marks1]> marksRow]> pm) ∧
    ascending marks1 ∧
    (∀ n, n ∈ marks1 ↔ n ∈ marks ∧ n ≠ num ∨ n = num ∧ num ∉ marks) ∧
    togglePencilMark (<[row := <[col := marks1]> marksRow]> pm) row col num = Ok pm.
Proof.
  intros Hrow Hcol Hasc.
  assert (row < length pm) as Hr by by eapply lookup_lt_Some.
  assert (col < length marksRow) as Hc by by eapply lookup_lt_Some.
  assert (∀ marks1 marks2,
    <[row := <[col := marks2]> (<[col := marks1]> marksRow)]>
      (<[row := <[col := marks1]> marksRow]> pm) =
    <[row := <[col := marks2]> marksRow]> pm) as Hins.
  { intros. by rewrite !list_insert_insert_eq. }
  assert (<[row := <[col := marks]> marksRow]> pm = pm) as Hid.
  { rewrite (list_insert_id marksRow) by done. by apply list_insert_id. }
  unfold togglePencilMark at 1. rewrite Hrow, Hcol.
  destruct (decide (num ∈ marks)) as [Hin|Hnot].
  - rewrite bool_decide_eq_true_2 by done.
    destruct (toggle_remove num marks Hasc Hin) as (Hasc1 & Hnot1 & Hback).
    eexists. split; [done|]. split; [done|]. split.
    { intros n. rewrite list_elem_of_filter. naive_solver. }
    unfold togglePencilMark.
    rewrite list_lookup_insert_eq by done. rewrite list_lookup_insert_eq by done.
    rewrite bool_decide_eq_false_2 by done. by rewrite Hback, Hins, Hid.
  - rewrite bool_decide_eq_false_2 by done.
    destruct (toggle_add num marks Hasc Hnot) as (Hasc1 & Hperm & Hback).
    eexists. split; [done|]. split; [done|]. split.
    { intros n. rewrite Hperm, elem_of_app, list_elem_of_singleton.
      destruct (decide (n = num)) as [->|]; naive_solver. }
    unfold togglePencilMark.
    rewrite list_lookup_insert_eq by done. rewrite list_lookup_insert_eq by done.
    rewrite bool_decide_eq_true_2
      by (rewrite Hperm, elem_of_app, list_elem_of_singleton; by right).
    by rewrite Hback, Hins, Hid.
Qed.

Lemma withEdit_same s :
  withEdit (setBoardAndMarks (st_board (gs_edit s)) (st_pencilMarks (gs_edit s))
              (gs_edit s)) s = s.
Proof. by destruct s as [[] ? ? ? ? ?]. Qed.

Section pencil_facts.
Context {Text : Type} `{EqDecision Text}.
Variable stringifyBoard : BoardType → Text.
Variable stringifyMarks : list (list PencilMarks) → Text.
Variable getHint : SudokuBoard → Solution.

(** X25.  In pencil mode a digit toggles a mark, and twice the same digit
    changes nothing.  With a cell selected whose marks are in ascending order
    without repetition, a digit key leaves the board as it is and adds the
    digit to the marks of the cell if it is missing, removes it if it is
    there, keeping the other marks and the ascending order; the same key
    again leads back to the very same state.  On a cell that is no given the
    number buttons do the same. *)
Theorem pencil_toggle_twice e num s row col marksRow marks :
  digitKey (ev_key e) = Some num →
  gs_selectedCell s = Some (row, col) → gs_isPencilMode s = true →
  st_pencilMarks (gs_edit s) !! row = Some marksRow →
  marksRow !! col = Some marks → ascending marks →
  ∃ s1 marks1,
    handleKeyDown stringifyBoard stringifyMarks e s = Done s1 ∧
    st_board (gs_edit s1) = st_board (gs_edit s) ∧
    st_pencilMarks (gs_edit s1) =
      <[row := <[col := marks1]> marksRow]> (st_pencilMarks (gs_edit s)) ∧
    ascending marks1 ∧
    (∀ n, n ∈ marks1 ↔ n ∈ marks ∧ n ≠ num ∨ n = num ∧ num ∉ marks) ∧
    handleKeyDown stringifyBoard stringifyMarks e s1 = Done s ∧
    (initialCell (gs_initialBoardState s) row col = false →
     handleNumberClick stringifyBoard stringifyMarks getHint num s = Done s1 ∧
     handleNumberClick stringifyBoard stringifyMarks getHint num s1 = Done s).
Proof.
  intros Hkey Hs Hmode Hrow Hcol Hasc.
  destruct (togglePencilMark_twice _ row col num marksRow marks Hrow Hcol Hasc)
    as (marks1 & Htoggle & Hasc1 & Hmarks & Hback).
  set (pm1 := <[row := <[col := marks1]> marksRow]> (st_pencilMarks (gs_edit s))) in *.
  set (s1 := withEdit (setBoardAndMarks (st_board (gs_edit s)) pm1 (gs_edit s)) s).
  assert (withEdit (setBoardAndMarks (st_board (gs_edit s1))
                      (st_pencilMarks (gs_edit s)) (gs_edit s1)) s1 = s) as Hs1.
  { by destruct s as [[] ? ? ? ? ?]. }
  exists s1, marks1. split.
  { unfold handleKeyDown. by rewrite Hkey, Hs, Hmode, Htoggle. }
  split; [done|]. split; [done|]. split; [done|]. split; [done|]. split.
  { unfold handleKeyDown. simpl. rewrite Hkey, Hs, Hmode, Hback.
    f_equal. exact Hs1. }
  intros Hgiven. split.
  - unfold handleNumberClick. rewrite Hs, Hgiven, Hmode.
    rewrite (saveToHistory_current stringifyBoard stringifyMarks). by rewrite Htoggle.
  - unfold handleNumberClick. simpl. rewrite Hs, Hgiven, Hmode.
    rewrite (saveToHistory_current stringifyBoard stringifyMarks
               (setBoardAndMarks (st_board (gs_edit s)) pm1 (gs_edit s))).
    simpl. rewrite Hback. f_equal. exact Hs1.
Qed.
End pencil_facts.

Lemma pencil_toggle_twice_witness :
  ∃ s1,
    handleKeyDown (Text := sampleText) inl inr
      (mkKeyboardEvent "3" false false false) pencilState = Done s1 ∧
    st_pencilMarks (gs_edit s1) !! 0 ≫= (.!! 2) = Some [3%Z] ∧
    handleKeyDown (Text := sampleText) inl inr
      (mkKeyboardEvent "3" false false false) s1 = Done pencilState.
Proof.
  destruct (pencil_toggle_twice (Text := sampleText) inl inr noHint
              (mkKeyboardEvent "3" false false false) 3 pencilState 0 2
              (replicate 9 []) [])
    as (s1 & marks1 & Hdown & _ & Hmarks & _ & _ & Hback & _).
  - reflexivity.
  - reflexivity.
  - reflexivity.
  - reflexivity.
  - reflexivity.
  - split; constructor.
  - exists s1. split; [exact Hdown|]. split; [|exact Hback].
    vm_compute in Hdown. injection Hdown as <-. reflexivity.
Defined.
